(** * Iterative step-time solver (klippy/chelper/itersolve.c)

    A shallow embedding of the solver and of its reversal filter, with the
    properties of the written specification stated over it.

    Modelling conventions.
    - A C [double] is a primitive binary64 float; every operation rounds on
      its own (no fused multiply-add, no extended precision).  Primitive
      floats have one NaN, so [signbit] of a NaN reads as 0 here.
    - A C [int] is a [Z]; the statuses and direction bits of this file are
      only stored, compared and negated.
    - [sk->sc] and [sk->tq] point at objects owned elsewhere; the record holds
      their current value, and a call that mutates the object stores the new
      value back in the field.
    - The two callbacks of a stepper, [calc_position_cb] and [post_cb], are
      fixed when the stepper is allocated and never assigned by this file;
      they are variables of the section rather than record fields.
    - An unbounded C loop takes a [fuel] bound and answers [None] when the
      bound is reached; the same value bounds each loop separately.  [None]
      also stands for a walk past either end of the move list, which the
      sentinels of the queue are there to prevent. *)

From Stdlib Require Import ZArith List Bool Lia.
From Stdlib Require Import Floats.
Import ListNotations.

Set Warnings "-inexact-float".

Open Scope float_scope.

(** ** C idioms on doubles *)

(** [if (x)] on a double: true unless [x] compares equal to zero. *)
Definition truthy (x : float) : bool := negb (x =? 0).

(** [signbit(x)]. *)
Definition signbit (x : float) : bool := PrimFloat.get_sign x.

(** [fabs(x)]. *)
Definition fabs (x : float) : float := PrimFloat.abs x.

(** [a >= b] and [a > b]. *)
Definition geb (a b : float) : bool := b <=? a.
Definition gtb (a b : float) : bool := b <? a.

(** [!i] on an int. *)
Definition lnot (i : Z) : Z := if (i =? 0)%Z then 1%Z else 0%Z.

(** The place of a double on the number line, as an integer that grows with
    the value and counts the doubles on the way: [None] for a NaN, 0 for the
    two zeros. *)
Definition SFrank (f : spec_float) : option Z :=
  match f with
  | S754_nan => None
  | S754_zero _ => Some 0%Z
  | S754_infinity s => Some (cond_Zopp s (2048 * 2 ^ 53))%Z
  | S754_finite s m e => Some (cond_Zopp s ((e + 1074) * 2 ^ 53 + Zpos m))%Z
  end.

Definition rank (v : float) : option Z := SFrank (Prim2SF v).

(** The number of doubles passed on the way from [a] up to [b]. *)
Definition doubles_between (a b : float) : Z :=
  match rank a, rank b with
  | Some i, Some j => (j - i)%Z
  | _, _ => 0%Z
  end.

(** ** Data *)

(** Modelled from the spec: [struct coord] and [struct move] are declared in
    trapq.h, which is not part of the sources at hand; the fields are the ones
    itersolve.c reads or writes, plus the two velocity coefficients that the
    projection consumes. *)
Record coord := mk_coord { x : float; y : float; z : float }.

Record move := mk_move {
  print_time : float;
  move_t : float;
  start_v : float;
  half_accel : float;
  start_pos : coord;
  axes_r : coord
}.

(** [struct trapq]: the list of moves, head sentinel first. *)
Record trapq := mk_trapq { moves : list move }.

(** Modelled from the spec: the activity flags of itersolve.h, one bit per
    Cartesian axis. *)
Definition AF_X : Z := 1.
Definition AF_Y : Z := 2.
Definition AF_Z : Z := 4.

(** [struct stepper_kinematics], over the state [SC] of the step sink. *)
Record stepper_kinematics {SC : Type} := mk_sk {
  step_dist : float;
  commanded_pos : float;
  sc : SC;
  last_flush_time : float;
  last_move_time : float;
  tq : option trapq;
  active_flags : Z;
  gen_steps_pre_active : float;
  gen_steps_post_active : float;
  next_move_print_time : float;
  next_step_time : float;
  next_step_dir : Z
}.
Arguments stepper_kinematics : clear implicits.
Arguments mk_sk {SC}.

Record timepos := mk_timepos { time : float; position : float }.

Definition SDS_CHECK_TIME : float := 0.001.
Definition SDS_FILTER_TIME : float := 0.000750.
Definition SEEK_TIME_RESET : float := 0.000100.

Section Itersolve.

Context {SC : Type}.

Local Abbreviation stepper := (stepper_kinematics SC).

(** [stepcompress_append(sc, sdir, print_time, step_time)] of the step sink:
    the status it returns and the sink afterwards. *)
Variable stepcompress_append : SC -> Z -> float -> float -> Z * SC.

(** [trapq_check_sentinels(tq)]: the queue as the call leaves it. *)
Variable trapq_check_sentinels : trapq -> trapq.

(** [sk->calc_position_cb] and [sk->post_cb] (the latter may be NULL). *)
Variable calc_position_cb : stepper -> move -> float -> float.
Variable post_cb : option (stepper -> stepper).

(** *** Field assignments *)

Definition set_commanded_pos (sk : stepper) (v : float) : stepper :=
  mk_sk (step_dist sk) v (sc sk) (last_flush_time sk) (last_move_time sk)
        (tq sk) (active_flags sk) (gen_steps_pre_active sk)
        (gen_steps_post_active sk) (next_move_print_time sk)
        (next_step_time sk) (next_step_dir sk).

Definition set_sc (sk : stepper) (v : SC) : stepper :=
  mk_sk (step_dist sk) (commanded_pos sk) v (last_flush_time sk)
        (last_move_time sk) (tq sk) (active_flags sk)
        (gen_steps_pre_active sk) (gen_steps_post_active sk)
        (next_move_print_time sk) (next_step_time sk) (next_step_dir sk).

Definition set_step_dist (sk : stepper) (v : float) : stepper :=
  mk_sk v (commanded_pos sk) (sc sk) (last_flush_time sk)
        (last_move_time sk) (tq sk) (active_flags sk)
        (gen_steps_pre_active sk) (gen_steps_post_active sk)
        (next_move_print_time sk) (next_step_time sk) (next_step_dir sk).

Definition set_last_flush_time (sk : stepper) (v : float) : stepper :=
  mk_sk (step_dist sk) (commanded_pos sk) (sc sk) v (last_move_time sk)
        (tq sk) (active_flags sk) (gen_steps_pre_active sk)
        (gen_steps_post_active sk) (next_move_print_time sk)
        (next_step_time sk) (next_step_dir sk).

Definition set_last_move_time (sk : stepper) (v : float) : stepper :=
  mk_sk (step_dist sk) (commanded_pos sk) (sc sk) (last_flush_time sk) v
        (tq sk) (active_flags sk) (gen_steps_pre_active sk)
        (gen_steps_post_active sk) (next_move_print_time sk)
        (next_step_time sk) (next_step_dir sk).

Definition set_tq (sk : stepper) (v : option trapq) : stepper :=
  mk_sk (step_dist sk) (commanded_pos sk) (sc sk) (last_flush_time sk)
        (last_move_time sk) v (active_flags sk) (gen_steps_pre_active sk)
        (gen_steps_post_active sk) (next_move_print_time sk)
        (next_step_time sk) (next_step_dir sk).

Definition set_next_move_print_time (sk : stepper) (v : float) : stepper :=
  mk_sk (step_dist sk) (commanded_pos sk) (sc sk) (last_flush_time sk)
        (last_move_time sk) (tq sk) (active_flags sk)
        (gen_steps_pre_active sk) (gen_steps_post_active sk) v
        (next_step_time sk) (next_step_dir sk).

Definition set_next_step_time (sk : stepper) (v : float) : stepper :=
  mk_sk (step_dist sk) (commanded_pos sk) (sc sk) (last_flush_time sk)
        (last_move_time sk) (tq sk) (active_flags sk)
        (gen_steps_pre_active sk) (gen_steps_post_active sk)
        (next_move_print_time sk) v (next_step_dir sk).

Definition set_next_step_dir (sk : stepper) (v : Z) : stepper :=
  mk_sk (step_dist sk) (commanded_pos sk) (sc sk) (last_flush_time sk)
        (last_move_time sk) (tq sk) (active_flags sk)
        (gen_steps_pre_active sk) (gen_steps_post_active sk)
        (next_move_print_time sk) (next_step_time sk) v.

(** ** Filter of rapid "step + direction change + step" sequences *)

Definition sds_commit (sk : stepper) : Z * stepper :=
  let mtime := next_move_print_time sk in
  let stime := next_step_time sk in
  let sk := set_next_move_print_time sk 0 in
  let (ret, sc') := stepcompress_append (sc sk) (next_step_dir sk) mtime stime in
  (ret, set_sc sk sc').

(** The three assignments that end [sds_append]. *)
Definition sds_store (sk : stepper) (sdir : Z) (move_print_time step_time : float)
  : stepper :=
  let sk := set_next_move_print_time sk move_print_time in
  let sk := set_next_step_time sk step_time in
  set_next_step_dir sk sdir.

Definition sds_append (sk : stepper) (sdir : Z)
    (move_print_time step_time : float) : Z * stepper :=
  (* from [int ret = sds_commit(sk);] to the end of the function *)
  let commit_and_store :=
    let (ret, sk) := sds_commit sk in
    if negb (ret =? 0)%Z then (ret, sk)
    else (0%Z, sds_store sk sdir move_print_time step_time) in
  if truthy (next_move_print_time sk) then
    if negb (sdir =? next_step_dir sk)%Z then
      let mt_diff := move_print_time - next_move_print_time sk in
      let st_diff := step_time - next_step_time sk in
      if mt_diff + st_diff <? SDS_FILTER_TIME then
        (* Rollback last step *)
        let sk := set_next_move_print_time sk 0 in
        let sk := set_next_step_dir sk sdir in
        (0%Z, sk)
      else commit_and_store
    else commit_and_store
  else (0%Z, sds_store sk sdir move_print_time step_time).

Definition sds_flush (sk : stepper) (move_print_time step_time : float)
  : Z * stepper :=
  if truthy (next_move_print_time sk) then
    let mt_diff := move_print_time - next_move_print_time sk in
    let st_diff := step_time - next_step_time sk in
    if geb (mt_diff + st_diff) SDS_FILTER_TIME then sds_commit sk
    else (0%Z, sk)
  else (0%Z, sk).

(** ** Main iterative solver *)

(** One pass of the [for (;;)] loop of [itersolve_find_step]: the guess, the
    exit test, and the bracket after the pass. *)
Record find_state := mk_find {
  f_low : timepos;
  f_high : timepos;
  f_best : timepos
}.

Definition find_guess (st : find_state) : float :=
  (time (f_low st) * position (f_high st)
   - time (f_high st) * position (f_low st))
  / (position (f_high st) - position (f_low st)).

Definition find_exit (st : find_state) : bool :=
  fabs (find_guess st - time (f_best st)) <=? 0.000000001.

Definition find_next (sk : stepper) (m : move) (target : float)
    (high_sign : bool) (st : find_state) : find_state :=
  let guess_time := find_guess st in
  let best_guess := mk_timepos guess_time (calc_position_cb sk m guess_time) in
  let guess_position := position best_guess - target in
  let guess_sign := signbit guess_position in
  if Bool.eqb guess_sign high_sign
  then mk_find (f_low st) (mk_timepos guess_time guess_position) best_guess
  else mk_find (mk_timepos guess_time guess_position) (f_high st) best_guess.

Fixpoint find_loop (fuel : nat) (sk : stepper) (m : move) (target : float)
    (high_sign : bool) (st : find_state) : option timepos :=
  match fuel with
  | O => None
  | S fuel' =>
      if find_exit st then Some (f_best st)
      else find_loop fuel' sk m target high_sign
                     (find_next sk m target high_sign st)
  end.

(** Find step using "false position" method *)
Definition itersolve_find_step (fuel : nat) (sk : stepper) (m : move)
    (low high : timepos) (target : float) : option timepos :=
  let best_guess := high in
  let low := mk_timepos (time low) (position low - target) in
  let high := mk_timepos (time high) (position high - target) in
  if negb (truthy (position high)) then
    (* The high range was a perfect guess for the next step *)
    Some best_guess
  else
    let high_sign := signbit (position high) in
    if Bool.eqb high_sign (signbit (position low)) then
      (* The target is not in the low/high range - return low range *)
      Some (mk_timepos (time low) target)
    else find_loop fuel sk m target high_sign (mk_find low high best_guess).


(** *** Range solver *)

(** The variables of [itersolve_gen_steps_range] that live across passes of
    its [for (;;)] loop. *)
Record range_state := mk_range {
  r_sk : stepper;
  r_last : timepos;
  r_low : timepos;
  r_high : timepos;
  r_seek_time_delta : float;
  r_sdir : Z;
  r_is_dir_change : bool
}.

(** How one pass of the loop ends: [continue], [break], [return ret], or an
    inner loop out of fuel. *)
Inductive range_step :=
| RContinue (st : range_state)
| RBreak (st : range_state)
| RReturn (ret : Z) (sk : stepper)
| RStuck.

(** [do { high.time = last.time + seek_time_delta;
         seek_time_delta += seek_time_delta;
    } while (high.time <= low.time)]: the final [high.time] and
    [seek_time_delta]. *)
Fixpoint seek_loop (fuel : nat) (last_time low_time seek_time_delta : float)
  : option (float * float) :=
  match fuel with
  | O => None
  | S fuel' =>
      let high_time := last_time + seek_time_delta in
      let seek_time_delta := seek_time_delta + seek_time_delta in
      if high_time <=? low_time
      then seek_loop fuel' last_time low_time seek_time_delta
      else Some (high_time, seek_time_delta)
  end.

(** The tail of the loop body: "Need to increase the search range to find an
    upper bound". *)
Definition range_widen (fuel : nat) (m : move) (end_ : float)
    (st : range_state) : range_step :=
  if geb (time (r_high st)) end_ then
    (* At end of move *)
    RBreak st
  else
    let low := r_high st in
    match seek_loop fuel (time (r_last st)) (time low) (r_seek_time_delta st) with
    | None => RStuck
    | Some (high_time, seek_time_delta) =>
        let high_time := if gtb high_time end_ then end_ else high_time in
        let high :=
          mk_timepos high_time (calc_position_cb (r_sk st) m high_time) in
        RContinue (mk_range (r_sk st) (r_last st) low high seek_time_delta
                            (r_sdir st) (r_is_dir_change st))
    end.

(** [sdir ? v : -v]. *)
Definition toward (sdir : Z) (v : float) : float :=
  if (sdir =? 0)%Z then - v else v.

(** One pass of the loop body. *)
Definition range_iter (fuel : nat) (m : move) (half_step end_ : float)
    (st : range_state) : range_step :=
  let sk := r_sk st in
  let last := r_last st in
  let low := r_low st in
  let high := r_high st in
  let sdir := r_sdir st in
  let diff := position high - position last in
  let dist := toward sdir diff in
  if geb dist half_step then
    (* Have valid upper bound - now find step *)
    let target := position last + toward sdir half_step in
    match itersolve_find_step fuel sk m low high target with
    | None => RStuck
    | Some next =>
        (* Add step at given time *)
        let (ret, sk) := sds_append sk sdir (print_time m) (time next) in
        if negb (ret =? 0)%Z then RReturn ret sk
        else
          let seek_time_delta := time next - time last in
          let seek_time_delta :=
            if seek_time_delta <? 0.000000001 then 0.000000001
            else seek_time_delta in
          let seek_time_delta :=
            if r_is_dir_change st && gtb seek_time_delta SEEK_TIME_RESET
            then SEEK_TIME_RESET else seek_time_delta in
          let last :=
            mk_timepos (time next) (target + toward sdir half_step) in
          let low := next in
          let st' := mk_range sk last low high seek_time_delta sdir false in
          if time low <? time high then
            (* The existing search range is still valid *)
            RContinue st'
          else range_widen fuel m end_ st'
    end
  else if gtb dist 0 then
    (* Avoid rollback if stepper fully reaches target position *)
    let sk :=
      if truthy (next_move_print_time sk) then snd (sds_commit sk) else sk in
    range_widen fuel m end_
      (mk_range sk last low high (r_seek_time_delta st) sdir
                (r_is_dir_change st))
  else if dist <? - (half_step + 0.000000001) then
    (* Found direction change *)
    let seek_time_delta :=
      if gtb (r_seek_time_delta st) SEEK_TIME_RESET then SEEK_TIME_RESET
      else r_seek_time_delta st in
    if gtb (time low) (time last) then
      (* Update direction and retry *)
      RContinue (mk_range sk last low high seek_time_delta (lnot sdir) true)
    else if gtb (time high) (time last + 0.000000001) then
      (* Reduce the high bound - it will become a better low bound *)
      let high_time := (time last + time high) * 0.5 in
      let high := mk_timepos high_time (calc_position_cb sk m high_time) in
      RContinue (mk_range sk last low high seek_time_delta sdir true)
    else
      range_widen fuel m end_
        (mk_range sk last low high seek_time_delta sdir true)
  else range_widen fuel m end_ st.

(** The loop: [inl] is a [return] from inside it, [inr] the state at
    [break]. *)
Fixpoint range_loop (fuel0 fuel : nat) (m : move) (half_step end_ : float)
    (st : range_state) : option (Z * stepper + range_state) :=
  match fuel with
  | O => None
  | S fuel' =>
      match range_iter fuel0 m half_step end_ st with
      | RContinue st' => range_loop fuel0 fuel' m half_step end_ st'
      | RBreak st' => Some (inr st')
      | RReturn ret sk => Some (inl (ret, sk))
      | RStuck => None
      end
  end.

(** The state at loop entry. *)
Definition range_init (sk : stepper) (start : float) : range_state :=
  let last := mk_timepos start (commanded_pos sk) in
  mk_range sk last last last SEEK_TIME_RESET (next_step_dir sk) false.

(** [if (sk->post_cb) sk->post_cb(sk);] *)
Definition run_post_cb (sk : stepper) : stepper :=
  match post_cb with Some cb => cb sk | None => sk end.

(** The statements after the loop. *)
Definition range_finish (m : move) (end_ : float) (st : range_state)
  : Z * stepper :=
  let (ret, sk) := sds_flush (r_sk st) (print_time m) end_ in
  if negb (ret =? 0)%Z then (ret, sk)
  else
    let sk := set_commanded_pos sk (position (r_last st)) in
    (0%Z, run_post_cb sk).

(** Generate step times for a portion of a move *)
Definition itersolve_gen_steps_range (fuel : nat) (sk : stepper) (m : move)
    (move_start move_end : float) : option (Z * stepper) :=
  let half_step := 0.5 * step_dist sk in
  let start := move_start - print_time m in
  let end_ := move_end - print_time m in
  match range_loop fuel fuel m half_step end_ (range_init sk start) with
  | None => None
  | Some (inl r) => Some r
  | Some (inr st) => Some (range_finish m end_ st)
  end.

(** ** Interface functions *)

(** Check if a move is likely to cause movement on a stepper *)
Definition check_active (sk : stepper) (m : move) : bool :=
  let af := active_flags sk in
  (negb (Z.land af AF_X =? 0)%Z && negb (x (axes_r m) =? 0))
  || (negb (Z.land af AF_Y =? 0)%Z && negb (y (axes_r m) =? 0))
  || (negb (Z.land af AF_Z =? 0)%Z && negb (z (axes_r m) =? 0)).

(** A position in the move list: the entry [m] points at, the entries before
    it (nearest first) and the entries after it. *)
Record cursor := mk_cursor {
  c_prev : list move;
  c_cur : move;
  c_next : list move
}.

Definition list_first_entry (ms : list move) : option cursor :=
  match ms with
  | [] => None
  | m :: rest => Some (mk_cursor [] m rest)
  end.

Definition list_next_entry (c : cursor) : option cursor :=
  match c_next c with
  | [] => None
  | n :: rest => Some (mk_cursor (c_cur c :: c_prev c) n rest)
  end.

Definition list_prev_entry (c : cursor) : option cursor :=
  match c_prev c with
  | [] => None
  | p :: rest => Some (mk_cursor rest p (c_cur c :: c_next c))
  end.

(** [while (last_flush_time >= m->print_time + m->move_t)
        m = list_next_entry(m, node);] *)
Fixpoint skip_flushed (last_flush_time : float) (prev : list move) (m : move)
    (next : list move) : option cursor :=
  if geb last_flush_time (print_time m + move_t m) then
    match next with
    | [] => None
    | n :: rest => skip_flushed last_flush_time (m :: prev) n rest
    end
  else Some (mk_cursor prev m next).

(** [while (m->print_time > last_flush_time)
        m = list_prev_entry(m, node);] *)
Fixpoint rewind (last_flush_time : float) (prev : list move) (m : move)
    (next : list move) : option cursor :=
  if gtb (print_time m) last_flush_time then
    match prev with
    | [] => None
    | p :: rest => rewind last_flush_time rest p (m :: next)
    end
  else Some (mk_cursor prev m next).

(** [double start = m->print_time, end = start + m->move_t;
     if (start < last_flush_time) start = last_flush_time;
     if (end > flush_time) end = flush_time;] *)
Definition clip_start (m : move) (last_flush_time : float) : float :=
  let start := print_time m in
  if start <? last_flush_time then last_flush_time else start.

Definition clip_end (m : move) (flush_time : float) : float :=
  let end_ := print_time m + move_t m in
  if gtb end_ flush_time then flush_time else end_.

(** The [for (;;)] loop of [itersolve_generate_steps]. *)
Fixpoint generate_loop (fuel0 fuel : nat) (sk : stepper)
    (flush_time gen_steps_post_active last_flush_time force_steps_time : float)
    (c : cursor) : option (Z * stepper) :=
  match fuel with
  | O => None
  | S fuel' =>
      if geb last_flush_time flush_time then Some (0%Z, sk)
      else
        let m := c_cur c in
        let start := clip_start m last_flush_time in
        let end_ := clip_end m flush_time in
        (* the end of the loop body, after the branches on activity *)
        let advance sk last_flush_time force_steps_time :=
          if flush_time + gen_steps_pre_active sk <=? print_time m + move_t m
          then Some (0%Z, sk)
          else
            match list_next_entry c with
            | None => None
            | Some c' =>
                generate_loop fuel0 fuel' sk flush_time gen_steps_post_active
                              last_flush_time force_steps_time c'
            end in
        if check_active sk m then
          if truthy (gen_steps_pre_active sk)
             && gtb start (last_flush_time + 0.000000001) then
            (* Must generate steps leading up to stepper activity *)
            let force_steps_time := start in
            let last_flush_time :=
              if last_flush_time <? start - gen_steps_pre_active sk
              then start - gen_steps_pre_active sk else last_flush_time in
            match rewind last_flush_time (c_prev c) m (c_next c) with
            | None => None
            | Some c' =>
                generate_loop fuel0 fuel' sk flush_time gen_steps_post_active
                              last_flush_time force_steps_time c'
            end
          else
            (* Generate steps for this move *)
            match itersolve_gen_steps_range fuel0 sk m start end_ with
            | None => None
            | Some (ret, sk) =>
                if negb (ret =? 0)%Z then Some (ret, sk)
                else
                  let sk := set_last_move_time sk end_ in
                  advance sk end_ (end_ + gen_steps_post_active)
            end
        else if start <? force_steps_time then
          (* Must generates steps just past stepper activity *)
          let end_ := if gtb end_ force_steps_time then force_steps_time else end_ in
          match itersolve_gen_steps_range fuel0 sk m start end_ with
          | None => None
          | Some (ret, sk) =>
              if negb (ret =? 0)%Z then Some (ret, sk)
              else advance sk end_ force_steps_time
          end
        else advance sk last_flush_time force_steps_time
  end.

(** Generate step times for a range of moves on the trapq *)
Definition itersolve_generate_steps (fuel : nat) (sk : stepper)
    (flush_time : float) : option (Z * stepper) :=
  let last_flush_time := last_flush_time sk in
  let sk := set_last_flush_time sk flush_time in
  match tq sk with
  | None => Some (0%Z, sk)
  | Some q =>
      let q := trapq_check_sentinels q in
      let sk := set_tq sk (Some q) in
      match list_first_entry (moves q) with
      | None => None
      | Some c =>
          match skip_flushed last_flush_time (c_prev c) (c_cur c) (c_next c) with
          | None => None
          | Some c =>
              let gen_steps_post_active := gen_steps_post_active sk in
              let gen_steps_post_active :=
                if gen_steps_post_active <? SDS_CHECK_TIME then SDS_CHECK_TIME
                else gen_steps_post_active in
              let force_steps_time := last_move_time sk + gen_steps_post_active in
              generate_loop fuel fuel sk flush_time gen_steps_post_active
                            last_flush_time force_steps_time c
          end
      end
  end.

(** The [for (;;)] loop of [itersolve_check_active]. *)
Fixpoint check_active_walk (sk : stepper) (flush_time : float) (m : move)
    (next : list move) : option float :=
  if check_active sk m then Some (print_time m)
  else if flush_time <=? print_time m + move_t m then Some 0
  else
    match next with
    | [] => None
    | n :: rest => check_active_walk sk flush_time n rest
    end.

(** Check if the given stepper is likely to be active in the given time range *)
Definition itersolve_check_active (sk : stepper) (flush_time : float)
  : option (float * stepper) :=
  match tq sk with
  | None => Some (0, sk)
  | Some q =>
      let q := trapq_check_sentinels q in
      let sk := set_tq sk (Some q) in
      match list_first_entry (moves q) with
      | None => None
      | Some c =>
          match skip_flushed (last_flush_time sk) (c_prev c) (c_cur c) (c_next c) with
          | None => None
          | Some c =>
              match check_active_walk sk flush_time (c_cur c) (c_next c) with
              | None => None
              | Some r => Some (r, sk)
              end
          end
      end
  end.

(** Report if the given stepper is registered for the given axis; [axis] is
    the character code. *)
Definition itersolve_is_active_axis (sk : stepper) (axis : Z) : Z :=
  if ((axis <? 120) || (axis >? 122))%Z then 0%Z
  else if (Z.land (active_flags sk) (Z.shiftl AF_X (axis - 120)) =? 0)%Z
       then 0%Z else 1%Z.

Definition itersolve_set_trapq (sk : stepper) (q : option trapq) : stepper :=
  set_tq sk q.

Definition itersolve_set_stepcompress (sk : stepper) (s : SC)
    (step_dist : float) : stepper :=
  set_step_dist (set_sc sk s) step_dist.

(** The move that [itersolve_calc_position_from_coord] builds on its stack:
    all bytes zero, then the start position and the duration. *)
Definition coord_move (x y z : float) : move :=
  mk_move 0 1000 0 0 (mk_coord x y z) (mk_coord 0 0 0).

Definition itersolve_calc_position_from_coord (sk : stepper) (x y z : float)
  : float :=
  calc_position_cb sk (coord_move x y z) 500.

Definition itersolve_set_position (sk : stepper) (x y z : float) : stepper :=
  set_commanded_pos sk (itersolve_calc_position_from_coord sk x y z).

Definition itersolve_get_commanded_pos (sk : stepper) : float :=
  commanded_pos sk.

(** ** Observers used by the statements *)

(** The filter holds a step back: [sk->next_move_print_time] is non-zero. *)
Definition sds_pending (sk : stepper) : bool :=
  truthy (next_move_print_time sk).

(** [sk'] has the [commanded_pos], [last_flush_time] and [step_dist] of
    [sk]: the fields that the filter and the loop of the range solver never
    assign. *)
Definition same_frame (sk sk' : stepper) : Prop :=
  commanded_pos sk' = commanded_pos sk
  /\ last_flush_time sk' = last_flush_time sk
  /\ step_dist sk' = step_dist sk.

(** The calls that reach the filter of a stepper: [sds_append], [sds_flush],
    and the guarded [sds_commit] of the range solver's partial-progress
    branch. *)
Inductive filter_op :=
| FAppend (sdir : Z) (move_print_time step_time : float)
| FFlush (move_print_time step_time : float)
| FCommitPending.

Definition filter_step (sk : stepper) (op : filter_op) : stepper :=
  match op with
  | FAppend d mt st => snd (sds_append sk d mt st)
  | FFlush mt st => snd (sds_flush sk mt st)
  | FCommitPending =>
      if truthy (next_move_print_time sk) then snd (sds_commit sk) else sk
  end.

Definition filter_run (ops : list filter_op) (sk : stepper) : stepper :=
  fold_left filter_step ops sk.

(** The candidate step that a pass of the range loop hands to [sds_append],
    if it hands one: direction, move print time, step time. *)
Definition range_candidate (fuel : nat) (m : move) (half_step : float)
    (st : range_state) : option (Z * float * float) :=
  let dist :=
    toward (r_sdir st) (position (r_high st) - position (r_last st)) in
  if geb dist half_step then
    let target := position (r_last st) + toward (r_sdir st) half_step in
    match itersolve_find_step fuel (r_sk st) m (r_low st) (r_high st) target with
    | Some next => Some (r_sdir st, print_time m, time next)
    | None => None
    end
  else None.

(** The candidate steps of the passes that [range_loop] runs, in order. *)
Fixpoint range_candidates (fuel0 fuel : nat) (m : move)
    (half_step end_ : float) (st : range_state) : list (Z * float * float) :=
  match fuel with
  | O => []
  | S fuel' =>
      let c :=
        match range_candidate fuel0 m half_step st with
        | Some c => [c]
        | None => []
        end in
      match range_iter fuel0 m half_step end_ st with
      | RContinue st' => c ++ range_candidates fuel0 fuel' m half_step end_ st'
      | _ => c
      end
  end.

(** The candidate steps of one call of [itersolve_gen_steps_range]. *)
Definition gen_steps_range_candidates (fuel : nat) (sk : stepper) (m : move)
    (move_start move_end : float) : list (Z * float * float) :=
  range_candidates fuel fuel m (0.5 * step_dist sk)
                   (move_end - print_time m)
                   (range_init sk (move_start - print_time m)).

(** *** The times that a range solve computes *)

(** [lo <= t1 <= ... <= tn <= hi]. *)
Fixpoint ascending (lo : float) (ts : list float) (hi : float) : bool :=
  match ts with
  | [] => lo <=? hi
  | t :: rest => (lo <=? t) && ascending t rest hi
  end.

(** The pass takes the branch that halves the high bound. *)
Definition range_halves (half_step : float) (st : range_state) : bool :=
  let dist :=
    toward (r_sdir st) (position (r_high st) - position (r_last st)) in
  negb (geb dist half_step)
  && negb (gtb dist 0)
  && (dist <? - (half_step + 0.000000001))
  && negb (gtb (time (r_low st)) (time (r_last st)))
  && gtb (time (r_high st)) (time (r_last st) + 0.000000001).

(** What exact arithmetic promises of the times that a pass computes, and
    what rounding, an overflow or a NaN can break: the root finder answers
    with a time within its bracket; a halved high bound lies between
    [last.time] and the bound it replaces; and the high bound that the pass
    leaves is a number. *)
Definition range_pass_exact (fuel : nat) (m : move) (half_step end_ : float)
    (st : range_state) : bool :=
  match range_candidate fuel m half_step st with
  | Some (_, _, t) => (time (r_low st) <=? t) && (t <=? time (r_high st))
  | None => true
  end
  && (if range_halves half_step st then
        (time (r_last st) <=? (time (r_last st) + time (r_high st)) * 0.5)
        && ((time (r_last st) + time (r_high st)) * 0.5 <=? time (r_high st))
      else true)
  && match range_iter fuel m half_step end_ st with
     | RContinue st' => time (r_high st') <=? time (r_high st')
     | _ => true
     end.

(** The same of every pass that [range_loop] runs. *)
Fixpoint range_exact (fuel0 fuel : nat) (m : move) (half_step end_ : float)
    (st : range_state) : bool :=
  match fuel with
  | O => true
  | S fuel' =>
      range_pass_exact fuel0 m half_step end_ st
      && match range_iter fuel0 m half_step end_ st with
         | RContinue st' => range_exact fuel0 fuel' m half_step end_ st'
         | _ => true
         end
  end.

(** The same of one call of [itersolve_gen_steps_range]. *)
Definition gen_steps_range_exact (fuel : nat) (sk : stepper) (m : move)
    (move_start move_end : float) : bool :=
  range_exact fuel fuel m (0.5 * step_dist sk) (move_end - print_time m)
              (range_init sk (move_start - print_time m)).

(** The bracket is in order and within the range: [last.time <= low.time
    <= high.time <= end]. *)
Definition range_ordered (end_ : float) (st : range_state) : Prop :=
  (time (r_last st) <=? time (r_low st)) = true
  /\ (time (r_low st) <=? time (r_high st)) = true
  /\ (time (r_high st) <=? end_) = true.

(** Direction and step time of a candidate step. *)
Definition cand_dir (c : Z * float * float) : Z := fst (fst c).
Definition cand_time (c : Z * float * float) : float := snd c.

(** What one candidate step does to the tracked position: two additions of
    half a step, in double arithmetic. *)
Definition step_position (half_step : float) (p : float) (sdir : Z) : float :=
  (p + toward sdir half_step) + toward sdir half_step.

(** The [n]-th bracket of the root finder's loop. *)
Fixpoint find_iterate (n : nat) (sk : stepper) (m : move) (target : float)
    (high_sign : bool) (st : find_state) : find_state :=
  match n with
  | O => st
  | S n' => find_iterate n' sk m target high_sign
                         (find_next sk m target high_sign st)
  end.

(** The guess of a pass falls strictly between the two times of the
    bracket, where false position puts it in exact arithmetic when neither
    endpoint is a root. *)
Definition find_inside (st : find_state) : bool :=
  (time (f_low st) <? find_guess st) && (find_guess st <? time (f_high st)).

(** *** The upcoming-activity query, as the specification words it *)

(** A move lies within the window [[last_flush_time, flush_time]]: it does
    not end at or before [last_flush_time] (such moves are skipped) and it
    does not start after [flush_time]. *)
Definition in_window (last_flush_time flush_time : float) (m : move) : bool :=
  (last_flush_time <? print_time m + move_t m)
  && (print_time m <=? flush_time).

(** The print time of the first move of the queue that is active for the
    stepper within the window, 0 if there is none. *)
Definition first_active_in_window (sk : stepper) (flush_time : float)
    (ms : list move) : float :=
  match find (fun m => check_active sk m
                       && in_window (last_flush_time sk) flush_time m) ms with
  | Some m => print_time m
  | None => 0
  end.

(** The same with the window open at its far end: the move starts before
    [flush_time]. *)
Definition in_open_window (last_flush_time flush_time : float) (m : move)
  : bool :=
  (last_flush_time <? print_time m + move_t m)
  && (print_time m <? flush_time).

Definition first_active_before (sk : stepper) (flush_time : float)
    (ms : list move) : float :=
  match find (fun m => check_active sk m
                       && in_open_window (last_flush_time sk) flush_time m)
             ms with
  | Some m => print_time m
  | None => 0
  end.

(** What is asked of the queue: no move ends before it starts, and each move
    starts when the one before it ends. *)
Fixpoint queue_in_order (ms : list move) : bool :=
  match ms with
  | [] => true
  | m :: rest =>
      (print_time m <=? print_time m + move_t m)
      && match rest with
         | n :: _ => print_time n =? print_time m + move_t m
         | [] => true
         end
      && queue_in_order rest
  end.

(** *** The range solves of a flush *)

(** A call of [itersolve_gen_steps_range]: the stepper as it is handed over,
    the move, and the two ends of the range. *)
Definition range_call : Type := (stepper * move * float * float)%type.

(** The calls of [itersolve_gen_steps_range] that the driver's loop makes, in
    order. *)
Fixpoint generate_solves (fuel0 fuel : nat) (sk : stepper)
    (flush_time gen_steps_post_active last_flush_time force_steps_time : float)
    (c : cursor) : list range_call :=
  match fuel with
  | O => []
  | S fuel' =>
      if geb last_flush_time flush_time then []
      else
        let m := c_cur c in
        let start := clip_start m last_flush_time in
        let end_ := clip_end m flush_time in
        let advance sk last_flush_time force_steps_time :=
          if flush_time + gen_steps_pre_active sk <=? print_time m + move_t m
          then []
          else
            match list_next_entry c with
            | None => []
            | Some c' =>
                generate_solves fuel0 fuel' sk flush_time gen_steps_post_active
                                last_flush_time force_steps_time c'
            end in
        if check_active sk m then
          if truthy (gen_steps_pre_active sk)
             && gtb start (last_flush_time + 0.000000001) then
            let force_steps_time := start in
            let last_flush_time :=
              if last_flush_time <? start - gen_steps_pre_active sk
              then start - gen_steps_pre_active sk else last_flush_time in
            match rewind last_flush_time (c_prev c) m (c_next c) with
            | None => []
            | Some c' =>
                generate_solves fuel0 fuel' sk flush_time gen_steps_post_active
                                last_flush_time force_steps_time c'
            end
          else
            (sk, m, start, end_)
            :: match itersolve_gen_steps_range fuel0 sk m start end_ with
               | None => []
               | Some (ret, sk) =>
                   if negb (ret =? 0)%Z then []
                   else advance (set_last_move_time sk end_) end_
                                (end_ + gen_steps_post_active)
               end
        else if start <? force_steps_time then
          let end_ := if gtb end_ force_steps_time then force_steps_time else end_ in
          (sk, m, start, end_)
          :: match itersolve_gen_steps_range fuel0 sk m start end_ with
             | None => []
             | Some (ret, sk) =>
                 if negb (ret =? 0)%Z then []
                 else advance sk end_ force_steps_time
             end
        else advance sk last_flush_time force_steps_time
  end.

(** The calls of [itersolve_gen_steps_range] that one call of
    [itersolve_generate_steps] makes, in order. *)
Definition flush_solves (fuel : nat) (sk : stepper) (flush_time : float)
  : list range_call :=
  let last_flush_time := last_flush_time sk in
  let sk := set_last_flush_time sk flush_time in
  match tq sk with
  | None => []
  | Some q =>
      let q := trapq_check_sentinels q in
      let sk := set_tq sk (Some q) in
      match list_first_entry (moves q) with
      | None => []
      | Some c =>
          match skip_flushed last_flush_time (c_prev c) (c_cur c) (c_next c) with
          | None => []
          | Some c =>
              let gen_steps_post_active := gen_steps_post_active sk in
              let gen_steps_post_active :=
                if gen_steps_post_active <? SDS_CHECK_TIME then SDS_CHECK_TIME
                else gen_steps_post_active in
              let force_steps_time := last_move_time sk + gen_steps_post_active in
              generate_solves fuel fuel sk flush_time gen_steps_post_active
                              last_flush_time force_steps_time c
          end
      end
  end.

(** The print time and the end of a move are numbers. *)
Definition move_times_numbers (m : move) : bool :=
  (print_time m <=? print_time m)
  && (print_time m + move_t m <=? print_time m + move_t m).

(** The ranges of a list of range solves follow one another: the first
    starts at or after [lo], each other at or after the end of the one before
    it. *)
Fixpoint solves_from (lo : float) (calls : list range_call) : bool :=
  match calls with
  | [] => true
  | (_, _, s, e) :: rest => (lo <=? s) && solves_from e rest
  end.

(** Every entry of the move list has times that are numbers. *)
Definition cursor_numbers (c : cursor) : Prop :=
  forall m : move,
    In m (c_prev c) \/ m = c_cur c \/ In m (c_next c) ->
    move_times_numbers m = true.

(** * Properties *)

(** ** Binary64 arithmetic

    One fact of IEEE arithmetic that the statements need: a difference that
    compares equal to zero has operands that compare equal.  Gradual
    underflow makes it true: the exact difference of two floats is a multiple
    of the smaller of their units, so rounding cannot take it to zero. *)

Section Binary64.

Local Open Scope Z_scope.

Lemma digits2_pos_size (p : positive) : digits2_pos p = Pos.size p.
Proof. induction p; cbn; congruence. Qed.

Lemma size_bounds (p : positive) :
  2 ^ (Zpos (Pos.size p) - 1) <= Zpos p < 2 ^ Zpos (Pos.size p).
Proof.
  pose proof (Pos.size_gt p) as Hg. pose proof (Pos.size_le p) as Hl.
  apply Pos2Z.pos_lt_pos in Hg. apply Pos2Z.pos_le_pos in Hl.
  rewrite Pos2Z.inj_pow in Hg, Hl.
  replace (Zpos (Pos.size p)) with (Z.succ (Zpos (Pos.size p) - 1)) in Hl at 1 by lia.
  rewrite Z.pow_succ_r in Hl by lia.
  split; lia.
Qed.

Lemma shr_1_half (r : shr_record) (k : Z) :
  0 <= k -> 2 * k <= shr_m r -> k <= shr_m (shr_1 r).
Proof.
  destruct r as [m r s]. cbn [shr_m]. intros Hk H.
  destruct m as [|[p|p|]|[p|p|]]; cbn [shr_1 shr_m]; lia.
Qed.

Lemma iter_shr_1_lower (n : positive) :
  forall (r : shr_record) (k : Z),
    0 <= k -> 2 ^ Zpos n * k <= shr_m r -> k <= shr_m (iter_pos shr_1 n r).
Proof.
  induction n as [n IH|n IH|]; intros r k Hk H; cbn [iter_pos].
  - apply IH; [exact Hk|]. apply IH; [nia|]. apply shr_1_half; [nia|].
    replace (Zpos n~1) with (Z.succ (Zpos n + Zpos n)) in H by lia.
    rewrite Z.pow_succ_r, Z.pow_add_r in H by lia. nia.
  - apply IH; [exact Hk|]. apply IH; [nia|].
    replace (Zpos n~0) with (Zpos n + Zpos n) in H by lia.
    rewrite Z.pow_add_r in H by lia. nia.
  - apply shr_1_half; [exact Hk|]. exact H.
Qed.

Local Abbreviation emin := (-1074) (only parsing).

Lemma fexp_val (e : Z) : fexp prec emax e = Z.max (e - 53) emin.
Proof. reflexivity. Qed.

Lemma shr_record_of_loc_m (m : Z) (l : location) :
  shr_m (shr_record_of_loc m l) = m.
Proof. destruct l as [|[]]; reflexivity. Qed.

Lemma shr_fexp_pos (m e : Z) (l : location) :
  0 < m -> emin <= e ->
  0 < shr_m (fst (shr_fexp prec emax m e l))
  /\ emin <= snd (shr_fexp prec emax m e l).
Proof.
  intros Hm He. unfold shr_fexp, shr. rewrite fexp_val.
  destruct m as [|p|p]; try lia. cbn [Zdigits2].
  rewrite digits2_pos_size.
  pose proof (size_bounds p) as [Hlo _].
  destruct (Z.max _ _ - e) as [|n|n] eqn:En; cbn [fst snd];
    rewrite ?shr_record_of_loc_m; try lia.
  split; [|lia].
  assert (H1 : 1 <= shr_m (iter_pos shr_1 n (shr_record_of_loc (Z.pos p) l)));
    [|lia].
  apply iter_shr_1_lower; [lia|].
  rewrite shr_record_of_loc_m, Z.mul_1_r.
  eapply Z.le_trans; [|exact Hlo].
  apply Z.pow_le_mono_r; lia.
Qed.

Lemma round_nearest_even_pos (m : Z) (l : location) :
  0 < m -> 0 < round_nearest_even m l.
Proof.
  intros Hm. destruct l as [|[]]; cbn [round_nearest_even]; try lia.
  destruct (Z.even m); lia.
Qed.

Lemma binary_round_aux_nonzero (s s' : bool) (m e : Z) (l : location) :
  0 < m -> emin <= e -> binary_round_aux prec emax s m e l <> S754_zero s'.
Proof.
  intros Hm He. unfold binary_round_aux.
  destruct (shr_fexp_pos m e l Hm He) as [H1 H2].
  destruct (shr_fexp prec emax m e l) as [mrs' e']. cbn [fst snd] in H1, H2.
  pose proof (round_nearest_even_pos (shr_m mrs') (loc_of_shr_record mrs') H1)
    as Hr.
  destruct (shr_fexp_pos _ e' loc_Exact Hr H2) as [H3 _].
  destruct (shr_fexp prec emax _ e' loc_Exact) as [mrs'' e''].
  cbn [fst] in H3.
  destruct (shr_m mrs''); try lia.
  destruct (e'' <=? emax - prec); discriminate.
Qed.

Lemma binary_normalize_zero (m e : Z) (s : bool) :
  emin <= e -> binary_normalize prec emax m e false = S754_zero s -> m = 0.
Proof.
  intros He. destruct m as [|p|p]; [reflexivity| |];
    cbn [binary_normalize]; unfold binary_round, shl_align;
    rewrite fexp_val;
    intros H; destruct (Z.max _ _ - e) eqn:En;
    (apply binary_round_aux_nonzero in H; [contradiction|lia|lia]).
Qed.

Lemma iter_xO_val (m d : positive) :
  Zpos (Pos.iter xO m d) = Zpos m * 2 ^ Zpos d.
Proof.
  rewrite Pos2Nat.inj_iter, <- (positive_nat_Z d).
  induction (Pos.to_nat d) as [|n IH]; cbn [nat_rect].
  - cbn. lia.
  - rewrite Nat2Z.inj_succ, Z.pow_succ_r, Pos2Z.inj_xO, IH by lia. lia.
Qed.

Lemma shl_align_val (mx : positive) (ex ez : Z) :
  ez <= ex ->
  Zpos (fst (shl_align mx ex ez)) = Zpos mx * 2 ^ (ex - ez).
Proof.
  intros H. unfold shl_align.
  destruct (ez - ex) as [|d|d] eqn:Ed; cbn [fst]; try lia.
  - replace (ex - ez) with 0 by lia. cbn. lia.
  - rewrite iter_xO_val. f_equal. f_equal. lia.
Qed.

Lemma valid_finite_emin (s : bool) (m : positive) (e : Z) :
  valid_binary (S754_finite s m e) = true ->
  Z.max (Zpos (Pos.size m) + e - 53) emin = e.
Proof.
  unfold valid_binary. cbn [SpecFloat.valid_binary].
  unfold bounded, canonical_mantissa.
  rewrite fexp_val, digits2_pos_size.
  intros H. apply andb_prop in H as [H _]. apply Z.eqb_eq in H. exact H.
Qed.

(** Two canonical mantissas that denote the same number are the same. *)
Lemma canonical_unique (mx my : positive) (ex ey : Z) :
  Z.max (Zpos (Pos.size mx) + ex - 53) emin = ex ->
  Z.max (Zpos (Pos.size my) + ey - 53) emin = ey ->
  ex <= ey ->
  Zpos mx = Zpos my * 2 ^ (ey - ex) ->
  ex = ey /\ mx = my.
Proof.
  intros Hx Hy Hle E.
  destruct (Z.eq_dec ex ey) as [->|Hne].
  - rewrite Z.sub_diag in E. cbn in E. split; [reflexivity|]. lia.
  - exfalso.
    pose proof (size_bounds mx) as [Hxl Hxh].
    pose proof (size_bounds my) as [Hyl Hyh].
    assert (Hk : 0 < ey - ex) by lia.
    assert (Hp : 0 < 2 ^ (ey - ex)) by (apply Z.pow_pos_nonneg; lia).
    assert (H1 : 2 ^ (Zpos (Pos.size mx) - 1)
                 < 2 ^ (Zpos (Pos.size my) + (ey - ex))).
    { rewrite Z.pow_add_r by lia. nia. }
    assert (H2 : 2 ^ (Zpos (Pos.size my) - 1 + (ey - ex))
                 < 2 ^ Zpos (Pos.size mx)).
    { rewrite Z.pow_add_r by lia. nia. }
    apply Z.pow_lt_mono_r_iff in H1; [|lia|lia].
    apply Z.pow_lt_mono_r_iff in H2; [|lia|lia].
    lia.
Qed.

Lemma SFsub_zero_eq (a b : spec_float) :
  valid_binary a = true ->
  valid_binary b = true ->
  SFeqb (SF64sub a b) (S754_zero false) = true ->
  SFeqb a b = true.
Proof.
  intros Ha Hb.
  destruct a as [sa|sa| |sa ma ea], b as [sb|sb| |sb mb eb];
    try (destruct sa; try destruct sb; cbn; congruence);
    try (destruct sb; cbn; congruence);
    try (cbn; congruence).
  pose proof (valid_finite_emin _ _ _ Ha) as Hca.
  pose proof (valid_finite_emin _ _ _ Hb) as Hcb.
  unfold SF64sub, SFsub.
  destruct (binary_normalize _ _ _ _ _) as [s0|s0| |s0 m0 e0] eqn:E;
    try (destruct s0; cbn; congruence); try (cbn; congruence).
  intros _.
  apply binary_normalize_zero in E; [|lia].
  pose proof (shl_align_val ma ea (Z.min ea eb) ltac:(lia)) as Va.
  pose proof (shl_align_val mb eb (Z.min ea eb) ltac:(lia)) as Vb.
  assert (Hpa : 0 < 2 ^ (ea - Z.min ea eb)) by (apply Z.pow_pos_nonneg; lia).
  assert (Hpb : 0 < 2 ^ (eb - Z.min ea eb)) by (apply Z.pow_pos_nonneg; lia).
  assert (Hs : sa = sb).
  { destruct sa, sb; cbn [cond_Zopp] in E; try reflexivity; exfalso; nia. }
  subst sb.
  assert (Hv : Zpos ma * 2 ^ (ea - Z.min ea eb)
               = Zpos mb * 2 ^ (eb - Z.min ea eb)).
  { destruct sa; cbn [cond_Zopp] in E; lia. }
  assert (Heq : ea = eb /\ ma = mb).
  { destruct (Z.le_ge_cases ea eb) as [Hle|Hge].
    - rewrite Z.min_l in Hv by lia. rewrite Z.sub_diag in Hv.
      change (2 ^ 0) with 1 in Hv. rewrite Z.mul_1_r in Hv.
      apply (canonical_unique ma mb ea eb); assumption.
    - rewrite Z.min_r in Hv by lia. rewrite Z.sub_diag in Hv.
      change (2 ^ 0) with 1 in Hv. rewrite Z.mul_1_r in Hv.
      destruct (canonical_unique mb ma eb ea) as [-> ->]; auto. }
  destruct Heq as [-> ->].
  unfold SFeqb. cbn [SFcompare].
  rewrite Z.compare_refl, Pos.compare_cont_refl.
  destruct sa; reflexivity.
Qed.

End Binary64.

(** [x - y == 0] implies [x == y]. *)
Lemma sub_eqb_zero (x y : float) : (x - y =? 0) = true -> (x =? y) = true.
Proof.
  rewrite !eqb_spec, sub_spec.
  change (Prim2SF 0) with (S754_zero false).
  apply SFsub_zero_eq; apply Prim2SF_valid.
Qed.

(** ** The order of doubles

    Every double but the NaN has a place on the number line, its rank, and
    [<], [<=] and [==] on doubles are the comparisons of ranks; a comparison
    with a NaN is false.  The rank counts doubles: between two doubles there
    are as many others as there are integers between their ranks. *)

Section Order.

Local Open Scope Z_scope.

Lemma valid_finite_bounds (s : bool) (m : positive) (e : Z) :
  valid_binary (S754_finite s m e) = true ->
  -1074 <= e <= 971 /\ Zpos m < 2 ^ 53.
Proof.
  intros H. pose proof (valid_finite_emin _ _ _ H) as Hc.
  unfold valid_binary in H. cbn [SpecFloat.valid_binary] in H.
  unfold bounded in H. apply andb_prop in H as [_ He].
  apply Z.leb_le in He. change (emax - prec) with 971 in He.
  pose proof (size_bounds m) as [_ Hs].
  assert (Hp : 2 ^ Zpos (Pos.size m) <= 2 ^ 53)
    by (apply Z.pow_le_mono_r; lia).
  lia.
Qed.

Lemma finite_rank_bounds (s : bool) (m : positive) (e : Z) :
  valid_binary (S754_finite s m e) = true ->
  0 < (e + 1074) * 2 ^ 53 + Zpos m < 2047 * 2 ^ 53.
Proof.
  intros H. apply valid_finite_bounds in H.
  assert (HP : 0 < 2 ^ 53) by (apply Z.pow_pos_nonneg; lia).
  set (P := 2 ^ 53) in *.
  assert (H1 : 0 <= (e + 1074) * P) by (apply Z.mul_nonneg_nonneg; lia).
  assert (H2 : (e + 1074) * P <= 2045 * P)
    by (apply Z.mul_le_mono_nonneg_r; lia).
  lia.
Qed.

Lemma finite_rank_lt (m m' : positive) (e e' : Z) :
  Zpos m < 2 ^ 53 -> e < e' ->
  (e + 1074) * 2 ^ 53 + Zpos m < (e' + 1074) * 2 ^ 53 + Zpos m'.
Proof.
  intros Hm He.
  assert (HP : 0 < 2 ^ 53) by (apply Z.pow_pos_nonneg; lia).
  set (P := 2 ^ 53) in *.
  assert (H : (e + 1075) * P <= (e' + 1074) * P)
    by (apply Z.mul_le_mono_nonneg_r; lia).
  lia.
Qed.

Lemma SFcompare_rank (a b : spec_float) :
  valid_binary a = true -> valid_binary b = true ->
  SFcompare a b
  = match SFrank a, SFrank b with
    | Some i, Some j => Some (i ?= j)
    | _, _ => None
    end.
Proof.
  intros Ha Hb.
  assert (HP : 0 < 2 ^ 53) by (apply Z.pow_pos_nonneg; lia).
  destruct a as [sa|sa| |sa ma ea], b as [sb|sb| |sb mb eb];
    cbn [SFcompare SFrank]; try reflexivity;
    try (pose proof (finite_rank_bounds _ _ _ Ha) as Ba;
         apply valid_finite_bounds in Ha);
    try (pose proof (finite_rank_bounds _ _ _ Hb) as Bb;
         apply valid_finite_bounds in Hb);
    f_equal; symmetry;
    try (destruct sa, sb; cbn [cond_Zopp];
         first [apply Z.compare_eq_iff; lia | apply Z.compare_lt_iff; lia
               | apply Z.compare_gt_iff; lia]).
  - destruct sa, sb; cbn [cond_Zopp].
    + rewrite Z.compare_opp.
      destruct (Z.compare_spec ea eb) as [->|H|H].
      * rewrite Z.add_compare_mono_l, Pos.compare_cont_spec.
        change (Z.pos mb ?= Z.pos ma) with (mb ?= ma)%positive.
        rewrite (Pos.compare_antisym ma mb).
        destruct (ma ?= mb)%positive; reflexivity.
      * apply Z.compare_gt_iff. apply finite_rank_lt; lia.
      * apply Z.compare_lt_iff. apply finite_rank_lt; lia.
    + apply Z.compare_lt_iff. lia.
    + apply Z.compare_gt_iff. lia.
    + destruct (Z.compare_spec ea eb) as [->|H|H].
      * rewrite Z.add_compare_mono_l, Pos.compare_cont_spec.
        change (Z.pos ma ?= Z.pos mb) with (ma ?= mb)%positive.
        destruct (ma ?= mb)%positive; reflexivity.
      * apply Z.compare_lt_iff. apply finite_rank_lt; lia.
      * apply Z.compare_gt_iff. apply finite_rank_lt; lia.
Qed.

End Order.

Lemma ltb_rank (a b : float) :
  (a <? b)
  = match rank a, rank b with
    | Some i, Some j => (i <? j)%Z
    | _, _ => false
    end.
Proof.
  rewrite ltb_spec. unfold SFltb, rank.
  rewrite SFcompare_rank by apply Prim2SF_valid.
  destruct (SFrank (Prim2SF a)) as [i|], (SFrank (Prim2SF b)) as [j|];
    reflexivity.
Qed.

Lemma leb_rank (a b : float) :
  (a <=? b)
  = match rank a, rank b with
    | Some i, Some j => (i <=? j)%Z
    | _, _ => false
    end.
Proof.
  rewrite leb_spec. unfold SFleb, rank.
  rewrite SFcompare_rank by apply Prim2SF_valid.
  destruct (SFrank (Prim2SF a)) as [i|], (SFrank (Prim2SF b)) as [j|];
    reflexivity.
Qed.

Lemma eqb_rank (a b : float) :
  (a =? b)
  = match rank a, rank b with
    | Some i, Some j => (i =? j)%Z
    | _, _ => false
    end.
Proof.
  rewrite eqb_spec. unfold SFeqb, rank.
  rewrite SFcompare_rank by apply Prim2SF_valid.
  destruct (SFrank (Prim2SF a)) as [i|], (SFrank (Prim2SF b)) as [j|];
    try reflexivity.
  rewrite Z.eqb_compare. destruct (i ?= j)%Z; reflexivity.
Qed.

(** Goals about the order of doubles, settled by arithmetic on ranks. *)
Ltac by_rank :=
  unfold geb, gtb in *;
  rewrite ?ltb_rank, ?leb_rank, ?eqb_rank in *;
  repeat match goal with
         | H : context [rank ?v] |- _ => destruct (rank v)
         | |- context [rank ?v] => destruct (rank v)
         end;
  try discriminate; try reflexivity;
  rewrite ?Z.ltb_lt, ?Z.leb_le, ?Z.ltb_ge, ?Z.leb_gt, ?Z.eqb_eq, ?Z.eqb_neq in *;
  try lia.

Lemma leb_trans (a b c : float) :
  (a <=? b) = true -> (b <=? c) = true -> (a <=? c) = true.
Proof. intros H1 H2. by_rank. Qed.

Lemma ltb_leb_trans (a b c : float) :
  (a <? b) = true -> (b <=? c) = true -> (a <? c) = true.
Proof. intros H1 H2. by_rank. Qed.

Lemma leb_ltb_trans (a b c : float) :
  (a <=? b) = true -> (b <? c) = true -> (a <? c) = true.
Proof. intros H1 H2. by_rank. Qed.

Lemma ltb_leb (a b : float) : (a <? b) = true -> (a <=? b) = true.
Proof. intros H. by_rank. Qed.

Lemma leb_refl_l (a b : float) : (a <=? b) = true -> (a <=? a) = true.
Proof. intros H. by_rank. Qed.

Lemma leb_refl_r (a b : float) : (a <=? b) = true -> (b <=? b) = true.
Proof. intros H. by_rank. Qed.

Lemma not_leb_ltb (a b : float) :
  (a <=? a) = true -> (b <=? b) = true ->
  (a <=? b) = false -> (b <? a) = true.
Proof. intros H1 H2 H3. by_rank. Qed.

Lemma not_ltb_leb (a b : float) :
  (a <=? a) = true -> (b <=? b) = true ->
  (a <? b) = false -> (b <=? a) = true.
Proof. intros H1 H2 H3. by_rank. Qed.

(** ** Field assignments leave the other fields alone *)

Lemma sds_commit_sink (sk : stepper) :
  sds_commit sk =
  (fst (stepcompress_append (sc sk) (next_step_dir sk)
                            (next_move_print_time sk) (next_step_time sk)),
   set_sc (set_next_move_print_time sk 0)
          (snd (stepcompress_append (sc sk) (next_step_dir sk)
                                    (next_move_print_time sk)
                                    (next_step_time sk)))).
Proof.
  unfold sds_commit; cbn.
  destruct (stepcompress_append _ _ _ _); reflexivity.
Qed.

Lemma sds_commit_empty (sk : stepper) :
  sds_pending (snd (sds_commit sk)) = false.
Proof. rewrite sds_commit_sink; reflexivity. Qed.

Lemma truthy_zero (v : float) : (v =? 0) = true -> truthy v = false.
Proof. unfold truthy; intros ->; reflexivity. Qed.

(** ** The reversal filter *)

(** In the Empty state a flush does nothing. *)
Lemma sds_flush_empty (sk : stepper) (mt st : float) :
  sds_pending sk = false -> sds_flush sk mt st = (0%Z, sk).
Proof. unfold sds_pending, sds_flush; intros ->; reflexivity. Qed.

(** In the Empty state an append stores the step and leaves the sink
    untouched. *)
Lemma sds_append_empty (sk : stepper) (d : Z) (mt st : float) :
  sds_pending sk = false ->
  sds_append sk d mt st = (0%Z, sds_store sk d mt st).
Proof. unfold sds_pending, sds_append; intros ->; reflexivity. Qed.

(** C2 (as amended): a candidate step appended while a step of the other
    direction is pending, less than 0.75 ms after it in combined move and
    step time, cancels it: the append returns 0 without calling the sink, the
    stored direction is the new one, the filter is Empty, and a later flush
    finds nothing to forward. *)
Theorem sds_append_rollback (sk : stepper) (d2 : Z) (mt2 st2 : float) :
  sds_pending sk = true ->
  d2 <> next_step_dir sk ->
  ((mt2 - next_move_print_time sk) + (st2 - next_step_time sk)
   <? SDS_FILTER_TIME) = true ->
  let sk2 := snd (sds_append sk d2 mt2 st2) in
  fst (sds_append sk d2 mt2 st2) = 0%Z
  /\ sc sk2 = sc sk
  /\ sds_pending sk2 = false
  /\ next_step_dir sk2 = d2
  /\ forall mt st, sds_flush sk2 mt st = (0%Z, sk2).
Proof.
  intros Hp Hd Hw.
  assert (E : sds_append sk d2 mt2 st2
              = (0%Z, set_next_step_dir (set_next_move_print_time sk 0) d2)).
  { unfold sds_append. unfold sds_pending in Hp. rewrite Hp.
    apply Z.eqb_neq in Hd. rewrite Hd. cbn [negb].
    cbv zeta. rewrite Hw. reflexivity. }
  cbv zeta. rewrite E. cbn [fst snd].
  repeat split; intros; apply sds_flush_empty; reflexivity.
Qed.

(** In the Empty state the stored step time is dead: whatever the filter
    is asked next, it does the same with any other value in that field. *)
Lemma filter_step_empty (sk : stepper) (op : filter_op) (t0 : float) :
  sds_pending sk = false ->
  filter_step (set_next_step_time sk t0) op = filter_step sk op
  \/ (sds_pending (filter_step sk op) = false
      /\ filter_step (set_next_step_time sk t0) op
         = set_next_step_time (filter_step sk op) t0).
Proof.
  intros He. destruct op as [d mt st|mt st|]; cbn [filter_step].
  - left. rewrite !sds_append_empty by exact He. reflexivity.
  - right. rewrite !sds_flush_empty by exact He. split; [exact He|reflexivity].
  - right. unfold sds_pending in He. cbn [set_next_step_time next_move_print_time].
    rewrite He. split; [exact He|reflexivity].
Qed.

Lemma filter_run_empty (ops : list filter_op) (sk : stepper) (t0 : float) :
  sds_pending sk = false ->
  sc (filter_run ops (set_next_step_time sk t0)) = sc (filter_run ops sk).
Proof.
  revert sk. induction ops as [|op ops IH]; intros sk He;
    cbn [filter_run fold_left]; [reflexivity|].
  destruct (filter_step_empty sk op t0 He) as [E|[He' E]]; rewrite E.
  - reflexivity.
  - apply IH, He'.
Qed.

(** C9: a candidate step appended with move print time 0 is never pending
    afterwards, whichever path the append takes: a flush forwards nothing,
    the next append stores its step without calling the sink, the commit of
    the partial-progress branch is skipped, and whatever calls reach the
    filter later, the sink ends up as it would with any other step time in
    place of the one appended. *)
Theorem sds_append_zero_print_time (sk : stepper) (d : Z) (mt st : float) :
  (mt =? 0) = true ->
  let sk' := snd (sds_append sk d mt st) in
  sds_pending sk' = false
  /\ (forall mt' st', sds_flush sk' mt' st' = (0%Z, sk'))
  /\ (forall d' mt' st',
        sds_append sk' d' mt' st' = (0%Z, sds_store sk' d' mt' st')
        /\ sc (sds_store sk' d' mt' st') = sc sk')
  /\ (if truthy (next_move_print_time sk') then snd (sds_commit sk') else sk')
     = sk'
  /\ (forall ops t0,
        sc (filter_run ops (set_next_step_time sk' t0))
        = sc (filter_run ops sk')).
Proof.
  intros Hz. cbv zeta.
  assert (E : sds_pending (snd (sds_append sk d mt st)) = false).
  { unfold sds_append. cbv zeta. rewrite sds_commit_sink.
    destruct (truthy (next_move_print_time sk));
      [destruct (negb (d =? next_step_dir sk)%Z);
       [destruct (_ <? SDS_FILTER_TIME)|]|];
      try destruct (negb (fst _ =? 0)%Z); cbn [snd];
      try reflexivity; unfold sds_pending; cbn; apply truthy_zero, Hz. }
  split; [exact E|].
  split; [intros; apply sds_flush_empty, E|].
  split; [intros; split; [apply sds_append_empty, E | reflexivity]|].
  split.
  - unfold sds_pending in E. rewrite E. reflexivity.
  - intros ops t0. apply filter_run_empty, E.
Qed.

(** ** The root finder *)

(** C3: the two exits before the loop.  When [high.position - target] is
    zero the high endpoint is returned as it came, and its position compares
    equal to [target]; when instead both endpoints lie on the same side of
    the target the answer is [(low.time, target)].  Neither answer needs a
    pass of the loop: any fuel will do, even none. *)
Theorem itersolve_find_step_no_iteration (fuel : nat) (sk : stepper)
    (m : move) (low high : timepos) (target : float) :
  ((position high - target =? 0) = true ->
   itersolve_find_step fuel sk m low high target = Some high
   /\ itersolve_find_step 0 sk m low high target = Some high
   /\ (position high =? target) = true)
  /\ ((position high - target =? 0) = false ->
      signbit (position low - target) = signbit (position high - target) ->
      itersolve_find_step fuel sk m low high target
      = Some (mk_timepos (time low) target)
      /\ itersolve_find_step 0 sk m low high target
         = Some (mk_timepos (time low) target)).
Proof.
  unfold itersolve_find_step, truthy; cbn [position time].
  split.
  - intros Hz. rewrite Hz. cbn [negb].
    repeat split; [destruct high; reflexivity.. | apply sub_eqb_zero, Hz].
  - intros -> Hs. cbn [negb]. rewrite Hs, Bool.eqb_reflx.
    split; reflexivity.
Qed.

Lemma find_loop_exit_iff (fuel : nat) (sk : stepper) (m : move)
    (target : float) (hs : bool) (st : find_state) (r : timepos) :
  find_loop fuel sk m target hs st = Some r <->
  exists k : nat,
    (k < fuel)%nat
    /\ find_exit (find_iterate k sk m target hs st) = true
    /\ (forall j : nat, (j < k)%nat ->
          find_exit (find_iterate j sk m target hs st) = false)
    /\ r = f_best (find_iterate k sk m target hs st).
Proof.
  revert st. induction fuel as [|fuel IH]; intros st; cbn [find_loop].
  - split; [discriminate | intros (k & Hk & _); lia].
  - destruct (find_exit st) eqn:Hx.
    + split.
      * intros [= <-]. exists 0%nat. cbn [find_iterate].
        repeat split; [lia | exact Hx | intros j Hj; lia].
      * intros (k & _ & Hk & Hj & ->).
        destruct k as [|k]; [reflexivity|].
        specialize (Hj 0%nat ltac:(lia)). cbn [find_iterate] in Hj.
        congruence.
    + rewrite IH. split.
      * intros (k & Hk & Hxk & Hj & ->). exists (S k). cbn [find_iterate].
        repeat split; [lia | exact Hxk |].
        intros [|j] Hlt; cbn [find_iterate]; [exact Hx | apply Hj; lia].
      * intros (k & Hk & Hxk & Hj & ->).
        destruct k as [|k]; cbn [find_iterate] in *; [congruence|].
        exists k. repeat split; [lia | exact Hxk |].
        intros j Hlt. apply (Hj (S j)). lia.
Qed.

(** A bracket that fails the exit test and that a pass leaves unchanged
    keeps the loop running for ever. *)
Lemma find_loop_fixed_point (fuel : nat) (sk : stepper) (m : move)
    (target : float) (hs : bool) (st : find_state) :
  find_exit st = false ->
  find_next sk m target hs st = st ->
  find_loop fuel sk m target hs st = None.
Proof.
  intros Hx Hn. induction fuel as [|fuel IH]; cbn [find_loop];
    [reflexivity|].
  rewrite Hx, Hn. exact IH.
Qed.

(** Two brackets that fail the exit test and that a pass turns into one
    another keep the loop running for ever. *)
Lemma find_loop_two_cycle (sk : stepper) (m : move) (target : float)
    (hs : bool) (a b : find_state) :
  find_exit a = false -> find_exit b = false ->
  find_next sk m target hs a = b -> find_next sk m target hs b = a ->
  forall fuel : nat,
    find_loop fuel sk m target hs a = None
    /\ find_loop fuel sk m target hs b = None.
Proof.
  intros Ha Hb Hab Hba. induction fuel as [|fuel [IHa IHb]];
    cbn [find_loop]; [split; reflexivity|].
  rewrite Ha, Hb, Hab, Hba. split; assumption.
Qed.

(** A double that is neither infinite nor a NaN differs from itself by
    zero. *)
Lemma sub_diag_small (v : float) :
  (fabs v <? infinity) = true -> (fabs (v - v) <=? 0.000000001) = true.
Proof.
  unfold fabs. rewrite ltb_spec, leb_spec, !abs_spec, sub_spec.
  change (Prim2SF infinity) with (S754_infinity false).
  destruct (Prim2SF v) as [s|s| |s mv ev]; try discriminate.
  - intros _. destruct s; vm_compute; reflexivity.
  - intros _. unfold SF64sub, SFsub. rewrite Z.sub_diag.
    vm_compute. reflexivity.
Qed.

(** A pass makes its guess the time of the best guess and of one endpoint,
    and leaves the other endpoint alone. *)
Lemma find_next_bracket (sk : stepper) (m : move) (target : float)
    (hs : bool) (st : find_state) :
  time (f_best (find_next sk m target hs st)) = find_guess st
  /\ ((f_low (find_next sk m target hs st) = f_low st
       /\ time (f_high (find_next sk m target hs st)) = find_guess st)
      \/ (time (f_low (find_next sk m target hs st)) = find_guess st
          /\ f_high (find_next sk m target hs st) = f_high st)).
Proof.
  unfold find_next. cbv zeta.
  destruct (Bool.eqb _ hs); cbn [f_best f_low f_high time];
    (split; [reflexivity|]); [left | right]; split; reflexivity.
Qed.

(** As long as the guesses fall strictly inside the bracket, each pass
    leaves fewer doubles between its two times, so the exit is reached
    within as many passes as there are doubles between them; the best guess
    at that point is the one at entry or a time strictly inside the
    bracket. *)
Lemma find_loop_terminates (sk : stepper) (m : move) (target : float)
    (hs : bool) (n : nat) :
  forall st : find_state,
    (doubles_between (time (f_low st)) (time (f_high st)) <= Z.of_nat n)%Z ->
    (forall k : nat,
        (forall j : nat, (j <= k)%nat ->
           find_exit (find_iterate j sk m target hs st) = false) ->
        find_inside (find_iterate k sk m target hs st) = true) ->
    exists k : nat,
      (k <= n)%nat
      /\ find_exit (find_iterate k sk m target hs st) = true
      /\ (forall j : nat, (j < k)%nat ->
            find_exit (find_iterate j sk m target hs st) = false)
      /\ (f_best (find_iterate k sk m target hs st) = f_best st
          \/ ((time (f_low st)
               <? time (f_best (find_iterate k sk m target hs st))) = true
              /\ (time (f_best (find_iterate k sk m target hs st))
                  <? time (f_high st)) = true)).
Proof.
  assert (Hexit : forall st : find_state,
             find_exit st = true ->
             exists k : nat,
               (k <= n)%nat
               /\ find_exit (find_iterate k sk m target hs st) = true
               /\ (forall j : nat, (j < k)%nat ->
                     find_exit (find_iterate j sk m target hs st) = false)
               /\ (f_best (find_iterate k sk m target hs st) = f_best st
                   \/ ((time (f_low st)
                        <? time (f_best (find_iterate k sk m target hs st)))
                       = true
                       /\ (time (f_best (find_iterate k sk m target hs st))
                           <? time (f_high st)) = true))).
  { intros st Hx. exists 0%nat. cbn [find_iterate].
    repeat split; [lia | exact Hx | intros j Hj; lia | left; reflexivity]. }
  induction n as [|n IH]; intros st Hw Hin;
    destruct (find_exit st) eqn:Hx; try (apply Hexit, Hx).
  - exfalso.
    assert (H0 : find_inside st = true).
    { apply (Hin 0%nat). intros j Hj.
      replace j with 0%nat by lia. exact Hx. }
    clear - H0 Hw. unfold find_inside in H0.
    apply andb_prop in H0 as [H1 H2]. unfold doubles_between in Hw.
    by_rank.
  - assert (H0 : find_inside st = true).
    { apply (Hin 0%nat). intros j Hj.
      replace j with 0%nat by lia. exact Hx. }
    unfold find_inside in H0. apply andb_prop in H0 as [H1 H2].
    destruct (find_next_bracket sk m target hs st) as (Eb & Ebr).
    set (st' := find_next sk m target hs st) in *.
    assert (Hw' : (doubles_between (time (f_low st')) (time (f_high st'))
                   <= Z.of_nat n)%Z).
    { clear - H1 H2 Hw Ebr. unfold doubles_between in *.
      destruct Ebr as [[-> ->]|[-> ->]]; by_rank. }
    assert (Hin' : forall k : nat,
               (forall j : nat, (j <= k)%nat ->
                  find_exit (find_iterate j sk m target hs st') = false) ->
               find_inside (find_iterate k sk m target hs st') = true).
    { intros k Hk. apply (Hin (S k)). intros [|j] Hj; [exact Hx|].
      apply Hk. lia. }
    assert (IHn : forall st : find_state, find_exit st = true ->
               exists k : nat,
                 (k <= n)%nat
                 /\ find_exit (find_iterate k sk m target hs st) = true
                 /\ (forall j : nat, (j < k)%nat ->
                       find_exit (find_iterate j sk m target hs st) = false)
                 /\ (f_best (find_iterate k sk m target hs st) = f_best st
                     \/ ((time (f_low st)
                          <? time (f_best (find_iterate k sk m target hs st)))
                         = true
                         /\ (time (f_best (find_iterate k sk m target hs st))
                             <? time (f_high st)) = true))).
    { intros s Hs. exists 0%nat. cbn [find_iterate].
      repeat split; [lia | exact Hs | intros j Hj; lia | left; reflexivity]. }
    destruct (IH IHn st' Hw' Hin') as (k & Hk & Hxk & Hj & Hb).
    exists (S k). cbn [find_iterate]. fold st'.
    split; [lia|]. split; [exact Hxk|]. split.
    + intros [|j] Hlt; cbn [find_iterate]; [exact Hx|]. fold st'.
      apply Hj. lia.
    + right. clear - H1 H2 Eb Ebr Hb.
      destruct Hb as [->|[Hb1 Hb2]].
      * rewrite Eb. split; assumption.
      * destruct Ebr as [[E1 E2]|[E1 E2]]; rewrite E1, E2 in *;
          split; by_rank.
Qed.

(** A pass that leaves both endpoints as it found them is followed by the
    exit: the next guess is the same, hence no further from the best guess
    than 1e-9 s, when it is a number other than an infinity. *)
Lemma find_next_same_bracket (sk : stepper) (m : move) (target : float)
    (hs : bool) (st : find_state) :
  (fabs (find_guess st) <? infinity) = true ->
  f_low (find_next sk m target hs st) = f_low st ->
  f_high (find_next sk m target hs st) = f_high st ->
  find_exit (find_next sk m target hs st) = true.
Proof.
  intros Hfin Hl Hh. unfold find_exit.
  assert (Eg : find_guess (find_next sk m target hs st) = find_guess st)
    by (unfold find_guess; rewrite Hl, Hh; reflexivity).
  destruct (find_next_bracket sk m target hs st) as [Eb _].
  rewrite Eg, Eb. apply sub_diag_small, Hfin.
Qed.

(** C4 (as amended): on a bracketed call the loop of the root finder has no
    cap on its passes and ends at exactly one place, the first pass whose
    guess lies within 1e-9 s of the time of the best guess so far, which it
    then returns.  The call does return when, up to that pass, every guess
    falls strictly between the two times of its bracket: each such pass
    leaves fewer doubles between them, so that there are at most as many
    passes as doubles between [low.time] and [high.time], and the time
    returned is that of the high endpoint or lies strictly between the two.
    And a pass that moves neither endpoint is followed by the exit. *)
Theorem itersolve_find_step_terminates (sk : stepper) (m : move)
    (low high : timepos) (target : float) :
  (position high - target =? 0) = false ->
  signbit (position low - target) <> signbit (position high - target) ->
  let hs := signbit (position high - target) in
  let st0 :=
    mk_find (mk_timepos (time low) (position low - target))
            (mk_timepos (time high) (position high - target)) high in
  (forall (fuel : nat) (r : timepos),
      itersolve_find_step fuel sk m low high target = Some r <->
      exists k : nat,
        (k < fuel)%nat
        /\ find_exit (find_iterate k sk m target hs st0) = true
        /\ (forall j : nat, (j < k)%nat ->
              find_exit (find_iterate j sk m target hs st0) = false)
        /\ r = f_best (find_iterate k sk m target hs st0))
  /\ ((forall k : nat,
         (forall j : nat, (j <= k)%nat ->
            find_exit (find_iterate j sk m target hs st0) = false) ->
         find_inside (find_iterate k sk m target hs st0) = true) ->
      exists (k : nat) (r : timepos),
        (Z.of_nat k <= Z.max 0 (doubles_between (time low) (time high)))%Z
        /\ (forall fuel : nat, (k < fuel)%nat ->
              itersolve_find_step fuel sk m low high target = Some r)
        /\ (r = high
            \/ ((time low <? time r) = true
                /\ (time r <? time high) = true)))
  /\ (forall k : nat,
        let st := find_iterate k sk m target hs st0 in
        (fabs (find_guess st) <? infinity) = true ->
        f_low (find_next sk m target hs st) = f_low st ->
        f_high (find_next sk m target hs st) = f_high st ->
        find_exit (find_next sk m target hs st) = true).
Proof.
  intros Hz Hs hs st0.
  assert (Hiff : forall (fuel : nat) (r : timepos),
             itersolve_find_step fuel sk m low high target = Some r <->
             exists k : nat,
               (k < fuel)%nat
               /\ find_exit (find_iterate k sk m target hs st0) = true
               /\ (forall j : nat, (j < k)%nat ->
                     find_exit (find_iterate j sk m target hs st0) = false)
               /\ r = f_best (find_iterate k sk m target hs st0)).
  { intros fuel r.
    unfold itersolve_find_step, truthy; cbn [position time].
    rewrite Hz; cbn [negb].
    destruct (Bool.eqb _ _) eqn:He.
    - apply Bool.eqb_prop in He. congruence.
    - apply find_loop_exit_iff. }
  split; [exact Hiff|]. split.
  - intros Hin.
    destruct (find_loop_terminates sk m target hs
                (Z.to_nat (Z.max 0 (doubles_between (time low) (time high))))
                st0) as (k & Hk & Hx & Hj & Hb).
    { cbn [st0 f_low f_high time]. lia. }
    { exact Hin. }
    exists k, (f_best (find_iterate k sk m target hs st0)).
    split; [lia|]. split.
    + intros fuel Hf. apply Hiff. exists k. auto.
    + cbn [st0 f_best f_low f_high time] in Hb. exact Hb.
  - intros k st. apply find_next_same_bracket.
Qed.

(** ** Position setters *)

(** C8: [itersolve_set_position] stores in [commanded_pos] exactly what
    [itersolve_calc_position_from_coord] returns, which is the projection
    called on a move that starts at [(x, y, z)], lasts 1000 s and has all
    other fields zero (velocity coefficients included), at time 500, the
    middle of that move; [itersolve_get_commanded_pos] then reads the value
    back. *)
Theorem itersolve_set_position_spec (sk : stepper) (x y z : float) :
  itersolve_get_commanded_pos (itersolve_set_position sk x y z)
  = itersolve_calc_position_from_coord sk x y z
  /\ itersolve_calc_position_from_coord sk x y z
     = calc_position_cb sk (coord_move x y z) (0.5 * move_t (coord_move x y z))
  /\ start_pos (coord_move x y z) = mk_coord x y z
  /\ start_v (coord_move x y z) = 0
  /\ half_accel (coord_move x y z) = 0
  /\ axes_r (coord_move x y z) = mk_coord 0 0 0
  /\ print_time (coord_move x y z) = 0
  /\ commanded_pos (itersolve_set_position sk x y z)
     = calc_position_cb sk (coord_move x y z) 500.
Proof. repeat split. Qed.

(** ** The range solver *)

(** The doubling loop stops on a time that is not at or before the low
    bound. *)
Lemma seek_loop_beyond (fuel : nat) (last_time low_time delta : float)
    (high_time delta' : float) :
  seek_loop fuel last_time low_time delta = Some (high_time, delta') ->
  (high_time <=? low_time) = false.
Proof.
  revert delta. induction fuel as [|fuel IH]; intros delta;
    cbn [seek_loop]; [discriminate|].
  destruct (last_time + delta <=? low_time) eqn:E.
  - apply IH.
  - intros [= <- _]. exact E.
Qed.

Lemma same_frame_refl (sk : stepper) : same_frame sk sk.
Proof. repeat split. Qed.

Lemma same_frame_trans (a b c : stepper) :
  same_frame a b -> same_frame b c -> same_frame a c.
Proof. unfold same_frame; intuition congruence. Qed.

Lemma sds_commit_frame (sk : stepper) : same_frame sk (snd (sds_commit sk)).
Proof. rewrite sds_commit_sink. repeat split. Qed.

Lemma sds_append_frame (sk : stepper) (d : Z) (mt st : float) :
  same_frame sk (snd (sds_append sk d mt st)).
Proof.
  unfold sds_append. cbv zeta. rewrite sds_commit_sink.
  destruct (truthy (next_move_print_time sk));
    [destruct (negb (d =? next_step_dir sk)%Z);
     [destruct (_ <? SDS_FILTER_TIME)|]|];
    try destruct (negb (fst _ =? 0)%Z); repeat split.
Qed.

Lemma sds_flush_frame (sk : stepper) (mt st : float) :
  same_frame sk (snd (sds_flush sk mt st)).
Proof.
  unfold sds_flush.
  destruct (truthy (next_move_print_time sk)); [|apply same_frame_refl].
  destruct (geb _ _); [apply sds_commit_frame | apply same_frame_refl].
Qed.

(** Widening the bracket touches neither [last] nor the stepper, and never
    returns from the function. *)
Lemma range_widen_last (fuel : nat) (m : move) (end_ : float)
    (st : range_state) :
  match range_widen fuel m end_ st with
  | RContinue st' | RBreak st' => r_last st' = r_last st /\ r_sk st' = r_sk st
  | RReturn _ _ => False
  | RStuck => True
  end.
Proof.
  unfold range_widen.
  destruct (geb (time (r_high st)) end_); [split; reflexivity|].
  destruct (seek_loop _ _ _ _) as [[ht sd]|]; [split; reflexivity | exact I].
Qed.

(** Case analysis on a call of [range_widen] in the goal: the two outcomes
    that carry a state come with the equations of [range_widen_last]. *)
Ltac widen_cases Hl Hs :=
  match goal with
  | |- context [range_widen ?f ?mm ?e ?s] =>
      let Hw := fresh "Hw" in
      pose proof (range_widen_last f mm e s) as Hw;
      destruct (range_widen f mm e s) as [? | ? | ? ? | ];
      [ destruct Hw as [Hl Hs]; cbn [r_last r_sk] in Hl, Hs
      | destruct Hw as [Hl Hs]; cbn [r_last r_sk] in Hl, Hs
      | contradiction
      | exact I ]
  end.

(** What one pass of the loop does to [last] and to the stepper. *)
Lemma range_iter_last (fuel : nat) (m : move) (half_step end_ : float)
    (st : range_state) :
  match range_iter fuel m half_step end_ st with
  | RContinue st' | RBreak st' =>
      same_frame (r_sk st) (r_sk st')
      /\ match range_candidate fuel m half_step st with
         | Some (d, _, t) =>
             r_last st'
             = mk_timepos t (step_position half_step (position (r_last st)) d)
         | None => r_last st' = r_last st
         end
  | RReturn ret sk' => ret <> 0%Z /\ same_frame (r_sk st) sk'
  | RStuck => True
  end.
Proof.
  unfold range_iter, range_candidate. cbv zeta.
  destruct (geb (toward (r_sdir st) _) half_step).
  - destruct (itersolve_find_step _ _ _ _ _ _) as [next|]; [|exact I].
    pose proof (sds_append_frame (r_sk st) (r_sdir st) (print_time m)
                                 (time next)) as Hf.
    destruct (sds_append _ _ _ _) as [ret sk1]. cbn [snd] in Hf.
    destruct (ret =? 0)%Z eqn:Hr; cbn [negb].
    + destruct (time next <? time (r_high st)).
      * split; [exact Hf | reflexivity].
      * widen_cases Hl Hs;
          (split; [rewrite Hs; exact Hf | rewrite Hl; reflexivity]).
    + apply Z.eqb_neq in Hr. split; assumption.
  - destruct (gtb _ 0).
    + widen_cases Hl Hs;
        (split; [rewrite Hs | exact Hl]);
        (destruct (truthy _);
         [apply sds_commit_frame | apply same_frame_refl]).
    + destruct (_ <? _).
      * destruct (gtb (time (r_low st)) (time (r_last st))).
        { split; [apply same_frame_refl | reflexivity]. }
        destruct (gtb (time (r_high st)) _).
        { split; [apply same_frame_refl | reflexivity]. }
        widen_cases Hl Hs;
          (split; [rewrite Hs; apply same_frame_refl | exact Hl]).
      * widen_cases Hl Hs;
          (split; [rewrite Hs; apply same_frame_refl | exact Hl]).
Qed.

(** The candidate step of a pass is what the pass hands to [sds_append]. *)
Lemma range_iter_append (fuel : nat) (m : move) (half_step end_ : float)
    (st : range_state) (d : Z) (mt t : float) :
  range_candidate fuel m half_step st = Some (d, mt, t) ->
  match range_iter fuel m half_step end_ st with
  | RContinue st' | RBreak st' =>
      sds_append (r_sk st) d mt t = (0%Z, r_sk st')
  | RReturn ret sk' => sds_append (r_sk st) d mt t = (ret, sk')
  | RStuck => True
  end.
Proof.
  unfold range_iter, range_candidate. cbv zeta.
  destruct (geb (toward (r_sdir st) _) half_step); [|discriminate].
  destruct (itersolve_find_step _ _ _ _ _ _) as [next|]; [|discriminate].
  intros [= <- <- <-].
  destruct (sds_append _ _ _ _) as [ret sk1].
  destruct (ret =? 0)%Z eqn:Hr; cbn [negb]; [|reflexivity].
  apply Z.eqb_eq in Hr; subst ret.
  destruct (time next <? time (r_high st)); [reflexivity|].
  widen_cases Hl Hs; rewrite Hs; reflexivity.
Qed.

(** The loop as a whole: at [break] the tracked position is the one at entry
    advanced once per candidate step; a [return] from inside carries a
    non-zero status. *)
Lemma range_loop_last (fuel0 fuel : nat) (m : move) (half_step end_ : float)
    (st : range_state) :
  match range_loop fuel0 fuel m half_step end_ st with
  | Some (inr st') =>
      same_frame (r_sk st) (r_sk st')
      /\ position (r_last st')
         = fold_left (step_position half_step)
                     (map cand_dir
                          (range_candidates fuel0 fuel m half_step end_ st))
                     (position (r_last st))
  | Some (inl (ret, sk')) => ret <> 0%Z /\ same_frame (r_sk st) sk'
  | None => True
  end.
Proof.
  revert st. induction fuel as [|fuel IH]; intros st;
    cbn [range_loop range_candidates]; [exact I|].
  pose proof (range_iter_last fuel0 m half_step end_ st) as Hi.
  destruct (range_iter fuel0 m half_step end_ st) as [st1|st1|ret sk1|].
  - specialize (IH st1). destruct Hi as [Hf Hl].
    destruct (range_loop fuel0 fuel m half_step end_ st1) as [[[ret sk']|st']|];
      [| |exact I].
    + destruct IH as [Hr Hf']. split; [exact Hr|].
      eapply same_frame_trans; eassumption.
    + destruct IH as [Hf' Hp]. split; [eapply same_frame_trans; eassumption|].
      rewrite Hp, map_app, fold_left_app. f_equal.
      destruct (range_candidate fuel0 m half_step st) as [[[d mt] t]|];
        rewrite Hl; reflexivity.
  - destruct Hi as [Hf Hl]. split; [exact Hf|].
    destruct (range_candidate fuel0 m half_step st) as [[[d mt] t]|];
      rewrite Hl; reflexivity.
  - exact Hi.
  - exact I.
Qed.

(** *** The order of the step times *)

Lemma ascending_from (a b : float) (ts : list float) (hi : float) :
  (a <=? b) = true -> ascending b ts hi = true -> ascending a ts hi = true.
Proof.
  destruct ts as [|t rest]; cbn [ascending]; intros H1 H2.
  - by_rank.
  - apply andb_prop in H2 as [H2 H3]. rewrite H3, andb_true_r. by_rank.
Qed.

Lemma ascending_app (a b c : float) (l1 l2 : list float) :
  ascending a l1 b = true -> ascending b l2 c = true ->
  ascending a (l1 ++ l2) c = true.
Proof.
  revert a. induction l1 as [|t l1 IH]; intros a; cbn [ascending app].
  - apply ascending_from.
  - intros H1 H2. apply andb_prop in H1 as [H1 H3].
    rewrite H1. apply (IH _ H3 H2).
Qed.

(** Widening keeps the bracket in order, when the new high bound is a
    number. *)
Lemma range_widen_ordered (fuel : nat) (m : move) (end_ : float)
    (st : range_state) :
  range_ordered end_ st ->
  match range_widen fuel m end_ st with
  | RContinue st' =>
      (time (r_high st') <=? time (r_high st')) = true ->
      range_ordered end_ st'
  | RBreak st' => range_ordered end_ st'
  | RReturn _ _ => True
  | RStuck => True
  end.
Proof.
  intros (Hll & Hlh & Hhe). unfold range_widen.
  destruct (geb (time (r_high st)) end_) eqn:Hg; [repeat split; assumption|].
  destruct (seek_loop _ _ _ _) as [[ht sd]|] eqn:Hs; [|exact I].
  apply seek_loop_beyond in Hs.
  unfold range_ordered. cbn [r_last r_low r_high time].
  destruct (gtb ht end_) eqn:Hc; intros Hn; repeat split; by_rank.
Qed.

(** A pass whose times are as exact arithmetic has them keeps the bracket in
    order. *)
Lemma range_iter_ordered (fuel : nat) (m : move) (half_step end_ : float)
    (st : range_state) :
  range_ordered end_ st ->
  range_pass_exact fuel m half_step end_ st = true ->
  match range_iter fuel m half_step end_ st with
  | RContinue st' | RBreak st' => range_ordered end_ st'
  | RReturn _ _ => True
  | RStuck => True
  end.
Proof.
  intros Ho Hex. pose proof Ho as (Hll & Hlh & Hhe).
  unfold range_pass_exact in Hex.
  apply andb_prop in Hex as [Hex H3]. apply andb_prop in Hex as [H1 H2].
  pose proof (range_widen_ordered fuel m end_) as W.
  revert H1 H2 H3. unfold range_iter, range_candidate, range_halves.
  cbv zeta.
  destruct (geb (toward (r_sdir st) _) half_step) eqn:Hd; cbn [negb andb].
  - destruct (itersolve_find_step _ _ _ _ _ _) as [next|];
      [|intros; exact I].
    intros H1 _. apply andb_prop in H1 as [H1a H1b].
    destruct (sds_append _ _ _ _) as [ret sk1].
    destruct (negb (ret =? 0)%Z); [intros; exact I|].
    assert (Hn : (time next <=? time next) = true)
      by (clear - H1a; by_rank).
    destruct (time next <? time (r_high st)).
    + intros _. repeat split; cbn [r_last r_low r_high time]; assumption.
    + match goal with
      | |- context [range_widen fuel m end_ ?s] =>
          specialize (W s); destruct (range_widen fuel m end_ s);
            intros H3; try exact I; apply W; try exact H3;
            repeat split; cbn [r_last r_low r_high time]; assumption
      end.
  - intros _. destruct (gtb _ 0); cbn [negb andb].
    + intros _.
      match goal with
      | |- context [range_widen fuel m end_ ?s] =>
          specialize (W s); destruct (range_widen fuel m end_ s);
            intros H3; try exact I; apply W; try exact H3;
            repeat split; cbn [r_last r_low r_high time]; assumption
      end.
    + destruct (_ <? - (half_step + 0.000000001)); cbn [negb andb].
      * destruct (gtb (time (r_low st)) (time (r_last st))) eqn:Hgl;
          cbn [negb andb].
        { intros _ _. repeat split; cbn [r_last r_low r_high time];
            assumption. }
        destruct (gtb (time (r_high st)) _); cbn [negb andb].
        { intros H2 _. apply andb_prop in H2 as [H2a H2b].
          repeat split; cbn [r_last r_low r_high time];
            [assumption | clear - Hll Hgl H2a; by_rank
             | clear - H2b Hhe; by_rank]. }
        intros _.
        match goal with
        | |- context [range_widen fuel m end_ ?s] =>
            specialize (W s); destruct (range_widen fuel m end_ s);
              intros H3; try exact I; apply W; try exact H3;
              repeat split; cbn [r_last r_low r_high time]; assumption
        end.
      * intros _.
        specialize (W st Ho). destruct (range_widen fuel m end_ st);
          intros H3; try exact I; [apply W, H3 | exact W].
Qed.

(** The time of a candidate step is not before [last.time] and not after the
    end of the range, when the root finder has answered within its
    bracket. *)
Lemma range_candidate_between (fuel : nat) (m : move) (half_step end_ : float)
    (st : range_state) (d : Z) (mt t : float) :
  range_ordered end_ st ->
  range_pass_exact fuel m half_step end_ st = true ->
  range_candidate fuel m half_step st = Some (d, mt, t) ->
  (time (r_last st) <=? t) = true /\ (t <=? end_) = true.
Proof.
  intros (Hll & Hlh & Hhe) Hex Hc. unfold range_pass_exact in Hex.
  rewrite Hc in Hex.
  apply andb_prop in Hex as [Hex _]. apply andb_prop in Hex as [H1 _].
  apply andb_prop in H1 as [H1a H1b].
  split; by_rank.
Qed.

Lemma range_loop_ascending (fuel0 : nat) (m : move) (half_step end_ : float) :
  forall (fuel : nat) (st : range_state),
    range_ordered end_ st ->
    range_exact fuel0 fuel m half_step end_ st = true ->
    ascending (time (r_last st))
              (map cand_time (range_candidates fuel0 fuel m half_step end_ st))
              end_ = true.
Proof.
  induction fuel as [|fuel IH]; intros st Ho Hex;
    cbn [range_exact range_candidates] in *.
  - cbn [map ascending]. destruct Ho as (Hll & Hlh & Hhe). by_rank.
  - apply andb_prop in Hex as [Hp Hrest].
    pose proof (range_iter_ordered fuel0 m half_step end_ st Ho Hp) as Hi.
    pose proof (range_iter_last fuel0 m half_step end_ st) as Hl.
    pose proof (range_candidate_between fuel0 m half_step end_ st) as Hc.
    assert (Hend : (time (r_last st) <=? end_) = true)
      by (destruct Ho as (Hll & Hlh & Hhe); clear - Hll Hlh Hhe; by_rank).
    destruct (range_candidate fuel0 m half_step st) as [[[d mt] t]|].
    + destruct (Hc d mt t Ho Hp eq_refl) as [Hc1 Hc2].
      destruct (range_iter fuel0 m half_step end_ st) as [s1|s1|r sk1|];
        cbn [app map ascending cand_time snd]; rewrite Hc1; cbn [andb];
        try exact Hc2.
      destruct Hl as [_ Hl].
      specialize (IH s1 Hi Hrest). rewrite Hl in IH. exact IH.
    + destruct (range_iter fuel0 m half_step end_ st) as [s1|s1|r sk1|];
        cbn [app map ascending]; try exact Hend.
      destruct Hl as [_ Hl].
      specialize (IH s1 Hi Hrest). rewrite Hl in IH. exact IH.
Qed.

(** *** The order of the ranges *)

Lemma solves_from_weaken (a b : float) (calls : list range_call) :
  (a <=? b) = true -> solves_from b calls = true ->
  solves_from a calls = true.
Proof.
  destruct calls as [|[[[sk0 m] s] e] rest]; cbn [solves_from];
    [reflexivity|].
  intros H1 H2. apply andb_prop in H2 as [H2 H3].
  rewrite H3, andb_true_r. by_rank.
Qed.

Lemma list_next_entry_numbers (c c' : cursor) :
  list_next_entry c = Some c' -> cursor_numbers c -> cursor_numbers c'.
Proof.
  unfold list_next_entry, cursor_numbers.
  destruct c as [prev cur [|n rest]]; cbn [c_prev c_cur c_next];
    [discriminate|].
  intros [= <-] H m. cbn [c_prev c_cur c_next In]. intros Hm. apply H.
  cbn [In]. intuition.
Qed.

Lemma rewind_numbers (lft : float) (prev : list move) :
  forall (m : move) (next : list move) (c' : cursor),
    rewind lft prev m next = Some c' ->
    cursor_numbers (mk_cursor prev m next) -> cursor_numbers c'.
Proof.
  induction prev as [|p rest IH]; intros m next c'; cbn [rewind];
    destruct (gtb (print_time m) lft); try discriminate;
    try (intros [= <-] H; exact H).
  intros H Hc. apply (IH _ _ _ H).
  unfold cursor_numbers in *. cbn [c_prev c_cur c_next In] in *.
  intros x Hx. apply Hc. intuition.
Qed.

Lemma skip_flushed_numbers (lft : float) (next : list move) :
  forall (prev : list move) (m : move) (c' : cursor),
    skip_flushed lft prev m next = Some c' ->
    cursor_numbers (mk_cursor prev m next) -> cursor_numbers c'.
Proof.
  induction next as [|n rest IH]; intros prev m c'; cbn [skip_flushed];
    destruct (geb lft (print_time m + move_t m)); try discriminate;
    try (intros [= <-] H; exact H).
  intros H Hc. apply (IH _ _ _ H).
  unfold cursor_numbers in *. cbn [c_prev c_cur c_next In] in *.
  intros x Hx. apply Hc. intuition.
Qed.

(** The driver's loop hands out ranges that follow one another, from
    [last_flush_time] on. *)
Lemma generate_solves_from (fuel0 : nat) (flush_time post : float) :
  (flush_time <=? flush_time) = true ->
  forall (fuel : nat) (sk : stepper) (lft force : float) (c : cursor),
    (lft <=? lft) = true ->
    cursor_numbers c ->
    solves_from lft (generate_solves fuel0 fuel sk flush_time post lft force c)
    = true.
Proof.
  intros Hft. induction fuel as [|fuel IH]; intros sk lft force c Hl Hc;
    [reflexivity|].
  cbn [generate_solves]. cbv zeta.
  destruct (geb lft flush_time); [reflexivity|].
  assert (Hm : move_times_numbers (c_cur c) = true)
    by (apply Hc; right; left; reflexivity).
  unfold move_times_numbers in Hm. apply andb_prop in Hm as [Hm1 Hm2].
  assert (Hadv : forall sk1 lft1 force1,
             (lft1 <=? lft1) = true ->
             solves_from lft1
               (if flush_time + gen_steps_pre_active sk1
                   <=? print_time (c_cur c) + move_t (c_cur c)
                then []
                else
                  match list_next_entry c with
                  | Some c' =>
                      generate_solves fuel0 fuel sk1 flush_time post lft1
                                      force1 c'
                  | None => []
                  end) = true).
  { intros sk1 lft1 force1 Hl1.
    destruct (flush_time + gen_steps_pre_active sk1 <=? _); [reflexivity|].
    destruct (list_next_entry c) as [c'|] eqn:En; [|reflexivity].
    apply IH; [exact Hl1 | apply (list_next_entry_numbers _ _ En Hc)]. }
  assert (Hstart : (lft <=? clip_start (c_cur c) lft) = true).
  { unfold clip_start. cbv zeta.
    destruct (print_time (c_cur c) <? lft) eqn:E;
      [exact Hl | clear - E Hl Hm1; by_rank]. }
  assert (Hend : (clip_end (c_cur c) flush_time
                  <=? clip_end (c_cur c) flush_time) = true).
  { unfold clip_end. cbv zeta.
    destruct (gtb (print_time (c_cur c) + move_t (c_cur c)) flush_time);
      assumption. }
  assert (Hcall : forall sk1 s1 e1 (rest : Z -> stepper -> list range_call),
             (lft <=? s1) = true ->
             (forall sk2, solves_from e1 (rest 0%Z sk2) = true) ->
             solves_from lft
               ((sk1, c_cur c, s1, e1)
                :: match itersolve_gen_steps_range fuel0 sk1 (c_cur c) s1 e1
                   with
                   | Some (r, sk2) =>
                       if negb (r =? 0)%Z then [] else rest r sk2
                   | None => []
                   end) = true).
  { intros sk1 s1 e1 rest Hs Hr. cbn [solves_from]. rewrite Hs. cbn [andb].
    destruct (itersolve_gen_steps_range fuel0 sk1 (c_cur c) s1 e1)
      as [[r sk2]|]; [|reflexivity].
    destruct (r =? 0)%Z eqn:Er; cbn [negb]; [|reflexivity].
    apply Z.eqb_eq in Er. subst r. apply Hr. }
  destruct (check_active sk (c_cur c)).
  - destruct (truthy (gen_steps_pre_active sk) && _).
    + destruct (rewind _ _ _ _) as [c'|] eqn:Er; [|reflexivity].
      assert (Hc' : cursor_numbers c').
      { apply (rewind_numbers _ _ _ _ _ Er). destruct c; exact Hc. }
      destruct (lft <? clip_start (c_cur c) lft - gen_steps_pre_active sk)
        eqn:E.
      * apply (solves_from_weaken lft
                 (clip_start (c_cur c) lft - gen_steps_pre_active sk));
          [clear - E; by_rank|].
        apply IH; [clear - E; by_rank | exact Hc'].
      * apply IH; assumption.
    + apply (Hcall sk _ _
               (fun _ sk2 =>
                  if flush_time + gen_steps_pre_active
                                    (set_last_move_time sk2
                                       (clip_end (c_cur c) flush_time))
                     <=? print_time (c_cur c) + move_t (c_cur c)
                  then []
                  else
                    match list_next_entry c with
                    | Some c' =>
                        generate_solves fuel0 fuel
                          (set_last_move_time sk2
                             (clip_end (c_cur c) flush_time))
                          flush_time post (clip_end (c_cur c) flush_time)
                          (clip_end (c_cur c) flush_time + post) c'
                    | None => []
                    end));
        [exact Hstart | intros sk2; apply Hadv, Hend].
  - destruct (_ <? force).
    + match goal with
      | |- solves_from _ ((_, _, _, ?e1) :: _) = true =>
          assert (He1 : (e1 <=? e1) = true)
            by (destruct (gtb (clip_end (c_cur c) flush_time) force) eqn:E;
                [clear - E; by_rank | exact Hend]);
          apply (Hcall sk _ e1
                   (fun _ sk2 =>
                      if flush_time + gen_steps_pre_active sk2
                         <=? print_time (c_cur c) + move_t (c_cur c)
                      then []
                      else
                        match list_next_entry c with
                        | Some c' =>
                            generate_solves fuel0 fuel sk2 flush_time post e1
                                            force c'
                        | None => []
                        end));
            [exact Hstart | intros sk2; apply Hadv, He1]
      end.
    + apply Hadv, Hl.
Qed.

(** C1 (as amended): a pass of the range solver's loop whose candidate step
    the filter accepts ([sds_append] returns 0) moves the tracked position by
    [target = last.position +- half_step] followed by
    [last.position = target +- half_step], in double arithmetic and with the
    sign of the step's direction, and sets [last.time] to the step time; any
    other pass leaves [last] alone.  Hence, when a range solve completes, the
    position it stores in [commanded_pos] (before the post-step hook runs)
    is the position at entry advanced in this way once per candidate
    step.  As for the step times handed to the filter: in a range solve
    whose computed times are where exact arithmetic has them (each answer of
    the root finder within its bracket, each halved high bound between
    [last.time] and the bound it replaces, no high bound a NaN) they never
    decrease, and lie between the start and the end of the range; so do,
    one after the other, the step times of two such range solves of a move
    of which the second starts where the first ends.  And the ranges that a
    flush hands to its range solves follow one another: the first starts at
    or after [last_flush_time], each other at or after the end of the one
    before it. *)
Theorem itersolve_gen_steps_range_position :
  (forall fuel m half_step end_ st st',
      range_iter fuel m half_step end_ st = RContinue st'
      \/ range_iter fuel m half_step end_ st = RBreak st' ->
      match range_candidate fuel m half_step st with
      | Some (d, mt, t) =>
          sds_append (r_sk st) d mt t = (0%Z, r_sk st')
          /\ r_last st'
             = mk_timepos t (step_position half_step (position (r_last st)) d)
      | None => r_last st' = r_last st
      end)
  /\ (forall fuel sk sk' m move_start move_end,
        itersolve_gen_steps_range fuel sk m move_start move_end
        = Some (0%Z, sk') ->
        exists sk1 : stepper,
          sk' = run_post_cb sk1
          /\ commanded_pos sk1
             = fold_left (step_position (0.5 * step_dist sk))
                         (map cand_dir
                              (gen_steps_range_candidates fuel sk m move_start
                                                          move_end))
                         (commanded_pos sk))
  /\ (forall fuel sk m move_start move_end,
        (move_start - print_time m <=? move_end - print_time m) = true ->
        gen_steps_range_exact fuel sk m move_start move_end = true ->
        ascending (move_start - print_time m)
                  (map cand_time
                       (gen_steps_range_candidates fuel sk m move_start
                                                   move_end))
                  (move_end - print_time m) = true)
  /\ (forall fuel sk sk' m t0 t1 t2,
        (t0 - print_time m <=? t1 - print_time m) = true ->
        (t1 - print_time m <=? t2 - print_time m) = true ->
        gen_steps_range_exact fuel sk m t0 t1 = true ->
        gen_steps_range_exact fuel sk' m t1 t2 = true ->
        ascending (t0 - print_time m)
                  (map cand_time
                       (gen_steps_range_candidates fuel sk m t0 t1
                        ++ gen_steps_range_candidates fuel sk' m t1 t2))
                  (t2 - print_time m) = true)
  /\ (forall fuel sk flush_time q,
        tq sk = Some q ->
        (last_flush_time sk <=? last_flush_time sk) = true ->
        (flush_time <=? flush_time) = true ->
        forallb move_times_numbers (moves (trapq_check_sentinels q)) = true ->
        solves_from (last_flush_time sk) (flush_solves fuel sk flush_time)
        = true).
Proof.
  assert (Hasc : forall fuel sk m move_start move_end,
             (move_start - print_time m <=? move_end - print_time m) = true ->
             gen_steps_range_exact fuel sk m move_start move_end = true ->
             ascending (move_start - print_time m)
                       (map cand_time
                            (gen_steps_range_candidates fuel sk m move_start
                                                        move_end))
                       (move_end - print_time m) = true).
  { intros fuel sk m move_start move_end Hse Hex.
    apply (range_loop_ascending fuel m (0.5 * step_dist sk)
             (move_end - print_time m) fuel
             (range_init sk (move_start - print_time m))); [|exact Hex].
    unfold range_ordered. cbn [range_init r_last r_low r_high time].
    repeat split; by_rank. }
  split; [|split; [|split; [exact Hasc|split]]].
  - intros fuel m half_step end_ st st' H.
    pose proof (range_iter_last fuel m half_step end_ st) as Hi.
    pose proof (range_iter_append fuel m half_step end_ st) as Ha.
    destruct (range_candidate fuel m half_step st) as [[[d mt] t]|].
    + specialize (Ha d mt t eq_refl).
      destruct H as [H|H]; rewrite H in Hi, Ha; (split; [exact Ha|apply Hi]).
    + destruct H as [H|H]; rewrite H in Hi; apply Hi.
  - intros fuel sk sk' m move_start move_end.
    unfold itersolve_gen_steps_range, gen_steps_range_candidates. cbv zeta.
    intros H.
    match type of H with context [range_loop ?a ?b ?c ?d ?e ?s] =>
      pose proof (range_loop_last a b c d e s) as Hl;
      destruct (range_loop a b c d e s) as [[[ret sk2]|st']|]
    end; [| |discriminate].
    + destruct Hl as [Hr _]. injection H as -> _. congruence.
    + destruct Hl as [_ Hp]. cbn [range_init r_last position] in Hp.
      unfold range_finish in H.
      destruct (sds_flush (r_sk st') (print_time m) _) as [ret sk2].
      destruct (ret =? 0)%Z eqn:Hr; cbn [negb] in H.
      * injection H as <-. eexists; split; [reflexivity|].
        cbn [set_commanded_pos commanded_pos]. exact Hp.
      * apply Z.eqb_neq in Hr. injection H as -> _. congruence.
  - intros fuel sk sk' m t0 t1 t2 H01 H12 He1 He2.
    rewrite map_app.
    apply (ascending_app _ (t1 - print_time m)); apply Hasc; assumption.
  - intros fuel sk flush_time q Hq Hl Hft Hms.
    unfold flush_solves. cbv zeta. cbn [set_last_flush_time tq]. rewrite Hq.
    unfold list_first_entry.
    destruct (moves (trapq_check_sentinels q)) as [|m0 ms] eqn:Em;
      [reflexivity|].
    cbn [c_prev c_cur c_next].
    destruct (skip_flushed _ _ _ _) as [c|] eqn:Es; [|reflexivity].
    apply generate_solves_from; [exact Hft | exact Hl |].
    apply (skip_flushed_numbers _ _ _ _ _ Es).
    intros m Hm. cbn [c_prev c_cur c_next In] in Hm.
    rewrite forallb_forall in Hms. apply Hms.
    destruct Hm as [[]|[->|Hm]]; [left; reflexivity | right; exact Hm].
Qed.

(** A range solve that returns a non-zero status leaves [commanded_pos],
    [last_flush_time] and [step_dist] as they were at entry. *)
Lemma itersolve_gen_steps_range_error (fuel : nat) (sk sk' : stepper)
    (m : move) (move_start move_end : float) (ret : Z) :
  itersolve_gen_steps_range fuel sk m move_start move_end = Some (ret, sk') ->
  ret <> 0%Z -> same_frame sk sk'.
Proof.
  unfold itersolve_gen_steps_range. cbv zeta. intros H Hret.
  match type of H with context [range_loop ?a ?b ?c ?d ?e ?s] =>
    pose proof (range_loop_last a b c d e s) as Hl;
    destruct (range_loop a b c d e s) as [[[ret2 sk2]|st']|]
  end; [| |discriminate].
  - destruct Hl as [_ Hf]. injection H as -> ->. exact Hf.
  - destruct Hl as [Hf _]. cbn [range_init r_sk] in Hf.
    unfold range_finish in H.
    pose proof (sds_flush_frame (r_sk st') (print_time m)
                                (move_end - print_time m)) as Hfl.
    destruct (sds_flush (r_sk st') (print_time m) _) as [ret2 sk2].
    cbn [snd] in Hfl.
    destruct (ret2 =? 0)%Z eqn:Hr; cbn [negb] in H.
    + injection H as <- _. congruence.
    + injection H as -> ->. eapply same_frame_trans; eassumption.
Qed.

(** ** The flush driver *)

(** A rule for the driver's loop: an invariant [I] of the stepper that every
    completed range solve and the assignment of [last_move_time] keep, and a
    property [Q] of what the loop returns. *)
Lemma generate_loop_rule (fuel0 : nat) (I : stepper -> Prop)
    (Q : Z -> stepper -> Prop) :
  (forall sk m s e sk', I sk ->
     itersolve_gen_steps_range fuel0 sk m s e = Some (0%Z, sk') -> I sk') ->
  (forall sk e, I sk -> I (set_last_move_time sk e)) ->
  (forall sk, I sk -> Q 0%Z sk) ->
  (forall sk m s e ret sk', I sk ->
     itersolve_gen_steps_range fuel0 sk m s e = Some (ret, sk') ->
     ret <> 0%Z -> Q ret sk') ->
  forall fuel sk flush_time post lft force c ret sk',
    I sk ->
    generate_loop fuel0 fuel sk flush_time post lft force c = Some (ret, sk') ->
    Q ret sk'.
Proof.
  intros Hrange Hmove Hzero Herr.
  induction fuel as [|fuel IH]; intros sk flush_time post lft force c ret sk' HI H;
    [discriminate|].
  cbn [generate_loop] in H. cbv zeta in H.
  destruct (geb lft flush_time).
  { injection H as <- <-. apply Hzero, HI. }
  assert (Hadv : forall sk1 lft1 force1,
             I sk1 ->
             (if flush_time + gen_steps_pre_active sk1
                 <=? print_time (c_cur c) + move_t (c_cur c)
              then Some (0%Z, sk1)
              else
                match list_next_entry c with
                | Some c' =>
                    generate_loop fuel0 fuel sk1 flush_time post lft1 force1 c'
                | None => None
                end) = Some (ret, sk') -> Q ret sk').
  { clear H. intros sk1 lft1 force1 HI1 H1.
    destruct (_ <=? _).
    - injection H1 as <- <-. apply Hzero, HI1.
    - destruct (list_next_entry c) as [c'|]; [|discriminate].
      eapply IH; eassumption. }
  destruct (check_active sk (c_cur c)).
  - destruct (truthy (gen_steps_pre_active sk) && _).
    + destruct (rewind _ _ _ _) as [c'|]; [|discriminate].
      eapply IH; eassumption.
    + destruct (itersolve_gen_steps_range _ _ _ _ _) as [[r sk1]|] eqn:Hg;
        [|discriminate].
      destruct (r =? 0)%Z eqn:Hr; cbn [negb] in H.
      * apply Z.eqb_eq in Hr; subst r.
        eapply Hadv; [|exact H]. eapply Hmove, Hrange; eassumption.
      * apply Z.eqb_neq in Hr. injection H as <- <-.
        eapply Herr; eassumption.
  - destruct (_ <? force).
    + destruct (itersolve_gen_steps_range _ _ _ _ _) as [[r sk1]|] eqn:Hg;
        [|discriminate].
      destruct (r =? 0)%Z eqn:Hr; cbn [negb] in H.
      * apply Z.eqb_eq in Hr; subst r.
        eapply Hadv; [|exact H]. eapply Hrange; eassumption.
      * apply Z.eqb_neq in Hr. injection H as <- <-.
        eapply Herr; eassumption.
    + eapply Hadv; eassumption.
Qed.

(** A range solve writes [last_flush_time] only through the post-step hook. *)
Lemma itersolve_gen_steps_range_flush_time (fuel : nat) (sk sk' : stepper)
    (m : move) (move_start move_end : float) (ret : Z) :
  (forall cb, post_cb = Some cb ->
     forall s, last_flush_time (cb s) = last_flush_time s) ->
  itersolve_gen_steps_range fuel sk m move_start move_end = Some (ret, sk') ->
  last_flush_time sk' = last_flush_time sk.
Proof.
  intros Hpost H.
  destruct (Z.eq_dec ret 0) as [->|Hret].
  - revert H. unfold itersolve_gen_steps_range. cbv zeta. intros H.
    match type of H with context [range_loop ?a ?b ?c ?d ?e ?s] =>
      pose proof (range_loop_last a b c d e s) as Hl;
      destruct (range_loop a b c d e s) as [[[ret2 sk2]|st']|]
    end; [| |discriminate].
    + destruct Hl as [Hr _]. injection H as -> _. congruence.
    + unfold same_frame in Hl. destruct Hl as [(_ & Hf & _) _].
      cbn [range_init r_sk] in Hf.
      unfold range_finish in H.
      pose proof (sds_flush_frame (r_sk st') (print_time m)
                                  (move_end - print_time m)) as Hfl.
      unfold same_frame in Hfl. destruct Hfl as (_ & Hfl & _).
      destruct (sds_flush (r_sk st') (print_time m) _) as [ret2 sk2].
      cbn [snd] in Hfl.
      destruct (negb (ret2 =? 0)%Z); [injection H as _ <-; congruence|].
      injection H as <-.
      unfold run_post_cb. destruct post_cb as [cb|].
      * rewrite (Hpost cb eq_refl). cbn. congruence.
      * cbn. congruence.
  - apply (itersolve_gen_steps_range_error _ _ _ _ _ _ _ H Hret).
Qed.

(** The driver's loop returns the status of the first range solve that
    fails, with the stepper as that solve left it. *)
Lemma generate_loop_solve_fails (fuel0 : nat) :
  forall fuel sk flush_time post lft force c sk0 m s e ret sk',
    In (sk0, m, s, e)
       (generate_solves fuel0 fuel sk flush_time post lft force c) ->
    itersolve_gen_steps_range fuel0 sk0 m s e = Some (ret, sk') ->
    ret <> 0%Z ->
    generate_loop fuel0 fuel sk flush_time post lft force c = Some (ret, sk').
Proof.
  induction fuel as [|fuel IH];
    intros sk flush_time post lft force c sk0 m s e ret sk' Hin Hg Hret;
    [contradiction|].
  cbn [generate_solves generate_loop] in *. cbv zeta in *.
  destruct (geb lft flush_time); [contradiction|].
  assert (Hadv : forall sk1 lft1 force1,
             In (sk0, m, s, e)
                (if flush_time + gen_steps_pre_active sk1
                    <=? print_time (c_cur c) + move_t (c_cur c)
                 then []
                 else
                   match list_next_entry c with
                   | Some c' =>
                       generate_solves fuel0 fuel sk1 flush_time post lft1
                                       force1 c'
                   | None => []
                   end) ->
             (if flush_time + gen_steps_pre_active sk1
                 <=? print_time (c_cur c) + move_t (c_cur c)
              then Some (0%Z, sk1)
              else
                match list_next_entry c with
                | Some c' =>
                    generate_loop fuel0 fuel sk1 flush_time post lft1 force1 c'
                | None => None
                end) = Some (ret, sk')).
  { clear Hin. intros sk1 lft1 force1 Hin.
    destruct (_ <=? _); [contradiction|].
    destruct (list_next_entry c) as [c'|]; [|contradiction].
    eapply IH; eassumption. }
  assert (Hcall : forall sk1 s1 e1 (rest : Z -> stepper -> list range_call)
                         (k : Z -> stepper -> option (Z * stepper)),
             (forall sk2,
                 In (sk0, m, s, e) (rest 0%Z sk2) ->
                 k 0%Z sk2 = Some (ret, sk')) ->
             In (sk0, m, s, e)
                ((sk1, c_cur c, s1, e1)
                 :: match itersolve_gen_steps_range fuel0 sk1 (c_cur c) s1 e1
                    with
                    | Some (r, sk2) =>
                        if negb (r =? 0)%Z then [] else rest r sk2
                    | None => []
                    end) ->
             match itersolve_gen_steps_range fuel0 sk1 (c_cur c) s1 e1 with
             | Some (r, sk2) =>
                 if negb (r =? 0)%Z then Some (r, sk2) else k r sk2
             | None => None
             end = Some (ret, sk')).
  { clear Hin. intros sk1 s1 e1 rest k Hk [E|Hin].
    - injection E as -> -> -> ->. rewrite Hg.
      apply Z.eqb_neq in Hret. rewrite Hret. reflexivity.
    - destruct (itersolve_gen_steps_range fuel0 sk1 (c_cur c) s1 e1)
        as [[r sk2]|]; [|contradiction].
      destruct (r =? 0)%Z eqn:Hr; cbn [negb] in *; [|contradiction].
      apply Z.eqb_eq in Hr. subst r. apply Hk, Hin. }
  destruct (check_active sk (c_cur c)).
  - destruct (truthy (gen_steps_pre_active sk) && _).
    + destruct (rewind _ _ _ _) as [c'|]; [|contradiction].
      eapply IH; eassumption.
    + apply (Hcall sk _ _
               (fun _ sk2 =>
                  if flush_time + gen_steps_pre_active
                                    (set_last_move_time sk2
                                       (clip_end (c_cur c) flush_time))
                     <=? print_time (c_cur c) + move_t (c_cur c)
                  then []
                  else
                    match list_next_entry c with
                    | Some c' =>
                        generate_solves fuel0 fuel
                          (set_last_move_time sk2
                             (clip_end (c_cur c) flush_time))
                          flush_time post (clip_end (c_cur c) flush_time)
                          (clip_end (c_cur c) flush_time + post) c'
                    | None => []
                    end)
               (fun _ sk2 =>
                  if flush_time + gen_steps_pre_active
                                    (set_last_move_time sk2
                                       (clip_end (c_cur c) flush_time))
                     <=? print_time (c_cur c) + move_t (c_cur c)
                  then Some (0%Z, set_last_move_time sk2
                                     (clip_end (c_cur c) flush_time))
                  else
                    match list_next_entry c with
                    | Some c' =>
                        generate_loop fuel0 fuel
                          (set_last_move_time sk2
                             (clip_end (c_cur c) flush_time))
                          flush_time post (clip_end (c_cur c) flush_time)
                          (clip_end (c_cur c) flush_time + post) c'
                    | None => None
                    end));
        [intros sk2; apply Hadv | exact Hin].
  - destruct (_ <? force).
    + match type of Hin with
      | In _ ((_, _, _, ?e1) :: _) =>
          apply (Hcall sk _ e1
                   (fun _ sk2 =>
                      if flush_time + gen_steps_pre_active sk2
                         <=? print_time (c_cur c) + move_t (c_cur c)
                      then []
                      else
                        match list_next_entry c with
                        | Some c' =>
                            generate_solves fuel0 fuel sk2 flush_time post e1
                                            force c'
                        | None => []
                        end)
                   (fun _ sk2 =>
                      if flush_time + gen_steps_pre_active sk2
                         <=? print_time (c_cur c) + move_t (c_cur c)
                      then Some (0%Z, sk2)
                      else
                        match list_next_entry c with
                        | Some c' =>
                            generate_loop fuel0 fuel sk2 flush_time post e1
                                          force c'
                        | None => None
                        end));
            [intros sk2; apply Hadv | exact Hin]
      end.
    + apply Hadv, Hin.
Qed.

(** Conversely, a non-zero status of the driver's loop is the status of the
    last range solve it ran. *)
Lemma generate_loop_failed_solve (fuel0 : nat) :
  forall fuel sk flush_time post lft force c ret sk',
    generate_loop fuel0 fuel sk flush_time post lft force c = Some (ret, sk') ->
    ret <> 0%Z ->
    exists sk0 m s e,
      In (sk0, m, s, e)
         (generate_solves fuel0 fuel sk flush_time post lft force c)
      /\ itersolve_gen_steps_range fuel0 sk0 m s e = Some (ret, sk').
Proof.
  induction fuel as [|fuel IH];
    intros sk flush_time post lft force c ret sk' H Hret; [discriminate|].
  cbn [generate_solves generate_loop] in *. cbv zeta in *.
  destruct (geb lft flush_time); [injection H as <- _; congruence|].
  assert (Hadv : forall sk1 lft1 force1,
             (if flush_time + gen_steps_pre_active sk1
                 <=? print_time (c_cur c) + move_t (c_cur c)
              then Some (0%Z, sk1)
              else
                match list_next_entry c with
                | Some c' =>
                    generate_loop fuel0 fuel sk1 flush_time post lft1 force1 c'
                | None => None
                end) = Some (ret, sk') ->
             exists sk0 m s e,
               In (sk0, m, s, e)
                  (if flush_time + gen_steps_pre_active sk1
                      <=? print_time (c_cur c) + move_t (c_cur c)
                   then []
                   else
                     match list_next_entry c with
                     | Some c' =>
                         generate_solves fuel0 fuel sk1 flush_time post lft1
                                         force1 c'
                     | None => []
                     end)
               /\ itersolve_gen_steps_range fuel0 sk0 m s e = Some (ret, sk')).
  { clear H. intros sk1 lft1 force1 H.
    destruct (_ <=? _); [injection H as <- _; congruence|].
    destruct (list_next_entry c) as [c'|]; [|discriminate].
    eapply IH; eassumption. }
  destruct (check_active sk (c_cur c)).
  - destruct (truthy (gen_steps_pre_active sk) && _).
    + destruct (rewind _ _ _ _) as [c'|]; [|discriminate].
      eapply IH; eassumption.
    + destruct (itersolve_gen_steps_range _ _ _ _ _) as [[r sk1]|] eqn:Hg;
        [|discriminate].
      destruct (r =? 0)%Z eqn:Hr; cbn [negb] in *.
      * destruct (Hadv _ _ _ H) as (sk0 & m & s & e & Hin & Hs).
        exists sk0, m, s, e. split; [right; exact Hin | exact Hs].
      * injection H as <- <-. do 4 eexists.
        split; [left; reflexivity | exact Hg].
  - destruct (_ <? force).
    + destruct (itersolve_gen_steps_range _ _ _ _ _) as [[r sk1]|] eqn:Hg;
        [|discriminate].
      destruct (r =? 0)%Z eqn:Hr; cbn [negb] in *.
      * destruct (Hadv _ _ _ H) as (sk0 & m & s & e & Hin & Hs).
        exists sk0, m, s, e. split; [right; exact Hin | exact Hs].
      * injection H as <- <-. do 4 eexists.
        split; [left; reflexivity | exact Hg].
    + apply Hadv, H.
Qed.

Lemma itersolve_generate_steps_failed_solve (fuel : nat) (sk sk' : stepper)
    (flush_time : float) (ret : Z) :
  itersolve_generate_steps fuel sk flush_time = Some (ret, sk') ->
  ret <> 0%Z ->
  exists sk0 m s e,
    In (sk0, m, s, e) (flush_solves fuel sk flush_time)
    /\ itersolve_gen_steps_range fuel sk0 m s e = Some (ret, sk').
Proof.
  unfold itersolve_generate_steps, flush_solves. cbv zeta. intros H Hret.
  destruct (tq (set_last_flush_time sk flush_time)) as [q|].
  2:{ injection H as <- _. congruence. }
  destruct (list_first_entry _) as [c|]; [|discriminate].
  destruct (skip_flushed _ _ _ _) as [c'|]; [|discriminate].
  eapply generate_loop_failed_solve; eassumption.
Qed.

(** C5: a non-zero status that the sink gives to the step held by the
    filter is what [sds_append] returns, unless the new step cancels the held
    one; when such a status comes back from [sds_append], the pass of the
    range solver returns it at once, and so does the loop from that pass on;
    when it comes back from the [sds_flush] that follows the loop, the range
    solve returns it without assigning [commanded_pos]; a range solve that
    returns a non-zero status returns with [commanded_pos] as it was at
    entry; a flush one of whose range solves returns a non-zero status
    returns that same status, with the stepper as that range solve left it;
    and a non-zero status of a flush is always the status of one of its
    range solves. *)
Theorem itersolve_error_keeps_commanded_pos :
  (forall sk d mt st ret s',
      sds_pending sk = true ->
      negb (d =? next_step_dir sk)%Z
      && ((mt - next_move_print_time sk) + (st - next_step_time sk)
          <? SDS_FILTER_TIME) = false ->
      stepcompress_append (sc sk) (next_step_dir sk)
                          (next_move_print_time sk) (next_step_time sk)
      = (ret, s') ->
      ret <> 0%Z ->
      sds_append sk d mt st
      = (ret, set_sc (set_next_move_print_time sk 0) s'))
  /\ (forall m end_ st ret sk',
        sds_flush (r_sk st) (print_time m) end_ = (ret, sk') ->
        ret <> 0%Z ->
        range_finish m end_ st = (ret, sk')
        /\ commanded_pos sk' = commanded_pos (r_sk st))
  /\ (forall fuel m half_step end_ st d mt t ret sk',
      range_candidate fuel m half_step st = Some (d, mt, t) ->
      sds_append (r_sk st) d mt t = (ret, sk') ->
      ret <> 0%Z ->
      range_iter fuel m half_step end_ st = RReturn ret sk'
      /\ forall n,
           range_loop fuel (S n) m half_step end_ st = Some (inl (ret, sk')))
  /\ (forall fuel sk sk' m move_start move_end ret,
        itersolve_gen_steps_range fuel sk m move_start move_end
        = Some (ret, sk') ->
        ret <> 0%Z -> commanded_pos sk' = commanded_pos sk)
  /\ (forall fuel sk flush_time sk0 m move_start move_end ret sk',
        In (sk0, m, move_start, move_end) (flush_solves fuel sk flush_time) ->
        itersolve_gen_steps_range fuel sk0 m move_start move_end
        = Some (ret, sk') ->
        ret <> 0%Z ->
        itersolve_generate_steps fuel sk flush_time = Some (ret, sk')
        /\ commanded_pos sk' = commanded_pos sk0)
  /\ (forall fuel sk flush_time ret sk',
        itersolve_generate_steps fuel sk flush_time = Some (ret, sk') ->
        ret <> 0%Z ->
        exists sk0 m move_start move_end,
          In (sk0, m, move_start, move_end) (flush_solves fuel sk flush_time)
          /\ itersolve_gen_steps_range fuel sk0 m move_start move_end
             = Some (ret, sk')
          /\ commanded_pos sk' = commanded_pos sk0).
Proof.
  split; [|split; [|split; [|split; [|split]]]].
  - intros sk d mt st ret s' Hp Hw Hs Hret.
    unfold sds_append. cbv zeta. unfold sds_pending in Hp. rewrite Hp.
    rewrite sds_commit_sink, Hs. cbn [fst snd].
    apply Z.eqb_neq in Hret. rewrite Hret. cbn [negb].
    destruct (negb (d =? next_step_dir sk)%Z); [|reflexivity].
    cbn [andb] in Hw. rewrite Hw. reflexivity.
  - intros m end_ st ret sk' Hf Hret. unfold range_finish. rewrite Hf.
    pose proof (sds_flush_frame (r_sk st) (print_time m) end_) as Hfr.
    rewrite Hf in Hfr. cbn [snd] in Hfr.
    apply Z.eqb_neq in Hret. rewrite Hret. cbn [negb].
    split; [reflexivity | apply Hfr].
  - intros fuel m half_step end_ st d mt t ret sk' Hc Ha Hret.
    assert (E : range_iter fuel m half_step end_ st = RReturn ret sk').
    { pose proof (range_iter_append fuel m half_step end_ st d mt t Hc) as Hi.
      revert Hc Hi. unfold range_iter, range_candidate. cbv zeta.
      destruct (geb (toward (r_sdir st) _) half_step); [|discriminate].
      destruct (itersolve_find_step _ _ _ _ _ _) as [next|]; [|discriminate].
      intros [= <- <- <-]. rewrite Ha.
      apply Z.eqb_neq in Hret. rewrite Hret. reflexivity. }
    split; [exact E|]. intros n. cbn [range_loop]. rewrite E. reflexivity.
  - intros fuel sk sk' m s e ret H Hret.
    apply (itersolve_gen_steps_range_error _ _ _ _ _ _ _ H Hret).
  - intros fuel sk ft sk0 m s e ret sk' Hin Hg Hret. split.
    + revert Hin. unfold itersolve_generate_steps, flush_solves. cbv zeta.
      destruct (tq (set_last_flush_time sk ft)) as [q|]; [|contradiction].
      destruct (list_first_entry _) as [c|]; [|contradiction].
      destruct (skip_flushed _ _ _ _) as [c'|]; [|contradiction].
      intros Hin. eapply generate_loop_solve_fails; eassumption.
    + apply (itersolve_gen_steps_range_error _ _ _ _ _ _ _ Hg Hret).
  - intros fuel sk ft ret sk' H Hret.
    destruct (itersolve_generate_steps_failed_solve _ _ _ _ _ H Hret)
      as (sk0 & m & s & e & Hin & Hg).
    exists sk0, m, s, e. split; [exact Hin|]. split; [exact Hg|].
    apply (itersolve_gen_steps_range_error _ _ _ _ _ _ _ Hg Hret).
Qed.

(** C10: when [itersolve_generate_steps] returns, whatever the status,
    [sk->last_flush_time] is the [flush_time] it was called with, provided
    the post-step hook leaves that field alone (nothing else writes it after
    the assignment at entry); without a queue the call returns 0 at once,
    having assigned the field. *)
Theorem itersolve_generate_steps_last_flush_time (fuel : nat)
    (sk sk' : stepper) (flush_time : float) (ret : Z) :
  (forall cb, post_cb = Some cb ->
     forall s, last_flush_time (cb s) = last_flush_time s) ->
  (itersolve_generate_steps fuel sk flush_time = Some (ret, sk') ->
   last_flush_time sk' = flush_time)
  /\ (tq sk = None ->
      itersolve_generate_steps fuel sk flush_time
      = Some (0%Z, set_last_flush_time sk flush_time)).
Proof.
  intros Hpost. split.
  - unfold itersolve_generate_steps. cbv zeta. intros H.
    destruct (tq (set_last_flush_time sk flush_time)) as [q|].
    2:{ injection H as _ <-. reflexivity. }
    destruct (list_first_entry _) as [c|]; [|discriminate].
    destruct (skip_flushed _ _ _ _) as [c'|]; [|discriminate].
    eapply (generate_loop_rule fuel
              (fun s => last_flush_time s = flush_time)
              (fun _ s => last_flush_time s = flush_time));
      [ | | | | | exact H]; auto.
    + intros s m st e s' Hs Hg.
      rewrite (itersolve_gen_steps_range_flush_time _ _ _ _ _ _ _ Hpost Hg).
      exact Hs.
    + intros s m st e r s' Hs Hg _.
      rewrite (itersolve_gen_steps_range_flush_time _ _ _ _ _ _ _ Hpost Hg).
      exact Hs.
  - intros Hq. unfold itersolve_generate_steps. cbv zeta.
    cbn [set_last_flush_time tq]. rewrite Hq. reflexivity.
Qed.

(** ** The upcoming-activity query *)

(** In a queue in order, every later move starts at or after the end of
    the first. *)
Lemma queue_in_order_after (next : list move) :
  forall m n : move,
    queue_in_order (m :: next) = true -> In n next ->
    (print_time m + move_t m <=? print_time n) = true.
Proof.
  induction next as [|n1 rest IH]; intros m n H Hin; [contradiction|].
  cbn [queue_in_order] in H.
  apply andb_prop in H as [H H3]. apply andb_prop in H as [H1 H2].
  destruct Hin as [<-|Hin].
  - by_rank.
  - specialize (IH n1 n H3 Hin).
    assert (H4 : (print_time n1 <=? print_time n1 + move_t n1) = true).
    { cbn [queue_in_order] in H3.
      apply andb_prop in H3 as [H3 _]. apply andb_prop in H3 as [H3 _].
      exact H3. }
    by_rank.
Qed.

(** The skipping loop passes over moves that are outside the window, and
    stops on a move that starts at or before [last_flush_time] and ends after
    it. *)
Lemma skip_flushed_window (sk : stepper) (lft flush_time : float)
    (next : list move) :
  forall (prev : list move) (m : move) (c : cursor),
    queue_in_order (m :: next) = true ->
    (print_time m <=? lft) = true ->
    skip_flushed lft prev m next = Some c ->
    find (fun m => check_active sk m && in_open_window lft flush_time m)
         (m :: next)
    = find (fun m => check_active sk m && in_open_window lft flush_time m)
           (c_cur c :: c_next c)
    /\ queue_in_order (c_cur c :: c_next c) = true
    /\ (print_time (c_cur c) <=? lft) = true
    /\ (lft <? print_time (c_cur c) + move_t (c_cur c)) = true.
Proof.
  induction next as [|n rest IH]; intros prev m c Ho Hs;
    cbn [skip_flushed];
    destruct (geb lft (print_time m + move_t m)) eqn:Hg;
    try discriminate.
  - intros [= <-]. cbn [c_cur c_next]. repeat split; try assumption.
    cbn [queue_in_order] in Ho.
    apply andb_prop in Ho as [Ho _]. apply andb_prop in Ho as [Ho _].
    by_rank.
  - intros H.
    pose proof Ho as Ho'. cbn [queue_in_order] in Ho'.
    apply andb_prop in Ho' as [Ho' H3]. apply andb_prop in Ho' as [H1 H2].
    assert (Hn : (print_time n <=? lft) = true) by by_rank.
    destruct (IH (m :: prev) n c H3 Hn H) as (Hf & Hq & Hc).
    split; [|split; assumption].
    rewrite <- Hf. cbn [find]. unfold in_open_window at 1.
    replace (lft <? print_time m + move_t m) with false by (symmetry; by_rank).
    rewrite andb_false_r. reflexivity.
  - intros [= <-]. cbn [c_cur c_next]. repeat split; try assumption.
    cbn [queue_in_order] in Ho.
    apply andb_prop in Ho as [Ho _]. apply andb_prop in Ho as [Ho _].
    by_rank.
Qed.

(** On a queue in order, from a move that lies in the window, the walk
    answers with the first active move that starts before [flush_time]. *)
Lemma check_active_walk_window (sk : stepper) (lft flush_time : float)
    (next : list move) :
  forall (m : move) (r : float),
    queue_in_order (m :: next) = true ->
    (lft <? print_time m + move_t m) = true ->
    (print_time m <? flush_time) = true ->
    check_active_walk sk flush_time m next = Some r ->
    r = match find (fun m => check_active sk m
                             && in_open_window lft flush_time m)
                   (m :: next) with
        | Some a => print_time a
        | None => 0
        end.
Proof.
  assert (Hcons : forall (f : move -> bool) a l,
             find f (a :: l) = if f a then Some a else find f l)
    by reflexivity.
  induction next as [|n rest IH]; intros m r Ho Hl Hf;
    cbn [check_active_walk]; rewrite Hcons; unfold in_open_window at 1;
    rewrite Hl, Hf;
    destruct (check_active sk m) eqn:Ha; cbn [andb];
    try (intros [= <-]; reflexivity);
    destruct (flush_time <=? print_time m + move_t m) eqn:He;
    try discriminate.
  - intros [= <-]. reflexivity.
  - intros [= <-].
    destruct (find (fun m0 => check_active sk m0
                              && in_open_window lft flush_time m0)
                   (n :: rest)) as [a|] eqn:Hfind; [|reflexivity].
    exfalso. apply find_some in Hfind as [Hin Hp].
    pose proof (queue_in_order_after _ _ _ Ho Hin) as Hafter.
    apply andb_prop in Hp as [_ Hp]. unfold in_open_window in Hp.
    apply andb_prop in Hp as [_ Hp]. by_rank.
  - intros H.
    pose proof Ho as Ho'. cbn [queue_in_order] in Ho'.
    apply andb_prop in Ho' as [Ho' H3]. apply andb_prop in Ho' as [H1 H2].
    assert (H4 : (print_time n <=? print_time n + move_t n) = true).
    { cbn [queue_in_order] in H3.
      apply andb_prop in H3 as [H3' _]. apply andb_prop in H3' as [H3' _].
      exact H3'. }
    apply (IH n r H3); [by_rank | by_rank | exact H].
Qed.

(** With a last entry that is neither flushed nor short of [flush_time], as
    the tail sentinel is, neither loop leaves the list. *)
Lemma skip_flushed_total (lft : float) (tail : move) (next prev : list move)
    (m : move) (body : list move) :
  geb lft (print_time tail + move_t tail) = false ->
  m :: next = body ++ [tail] ->
  exists c body',
    skip_flushed lft prev m next = Some c
    /\ c_cur c :: c_next c = body' ++ [tail].
Proof.
  intros Ht. revert prev m body.
  induction next as [|n rest IH]; intros prev m body E; cbn [skip_flushed].
  - destruct body as [|b [|b' body]]; cbn in E; try discriminate.
    injection E as ->. rewrite Ht.
    exists (mk_cursor prev tail []), []. split; reflexivity.
  - destruct (geb lft (print_time m + move_t m)).
    + destruct body as [|b body]; cbn in E; [discriminate|].
      injection E as _ E. apply (IH (m :: prev) n body E).
    + exists (mk_cursor prev m (n :: rest)), body. split; [reflexivity|exact E].
Qed.

Lemma check_active_walk_total (sk : stepper) (flush_time : float)
    (tail : move) (next : list move) (m : move) (body : list move) :
  (flush_time <=? print_time tail + move_t tail) = true ->
  m :: next = body ++ [tail] ->
  exists r, check_active_walk sk flush_time m next = Some r.
Proof.
  intros Ht. revert m body.
  induction next as [|n rest IH]; intros m body E; cbn [check_active_walk];
    destruct (check_active sk m); try (eexists; reflexivity).
  - destruct body as [|b [|b' body]]; cbn in E; try discriminate.
    injection E as ->. rewrite Ht. eexists; reflexivity.
  - destruct (flush_time <=? print_time m + move_t m);
      [eexists; reflexivity|].
    destruct body as [|b body]; cbn in E; [discriminate|].
    injection E as _ E. apply (IH n body E).
Qed.

(** C7 (as amended): [itersolve_check_active] returns 0 when no queue is
    attached.  With a queue that is in order and reaches back to
    [last_flush_time], and with [flush_time] after [last_flush_time], whenever
    it returns it returns the print time of the first move that is active for
    the stepper, ends after [last_flush_time] and starts before [flush_time],
    and 0 when there is no such move; and it does return when the last entry
    of the list (the tail sentinel) ends after [last_flush_time] and not
    before [flush_time]. *)
Theorem itersolve_check_active_first_active (sk : stepper)
    (flush_time : float) :
  (tq sk = None -> itersolve_check_active sk flush_time = Some (0, sk))
  /\ (forall q r sk',
        tq sk = Some q ->
        queue_in_order (moves (trapq_check_sentinels q)) = true ->
        (forall m0, hd_error (moves (trapq_check_sentinels q)) = Some m0 ->
                    (print_time m0 <=? last_flush_time sk) = true) ->
        (last_flush_time sk <? flush_time) = true ->
        itersolve_check_active sk flush_time = Some (r, sk') ->
        r = first_active_before sk flush_time
                                (moves (trapq_check_sentinels q))
        /\ sk' = set_tq sk (Some (trapq_check_sentinels q)))
  /\ (forall q body tail,
        tq sk = Some q ->
        moves (trapq_check_sentinels q) = body ++ [tail] ->
        queue_in_order (moves (trapq_check_sentinels q)) = true ->
        (forall m0, hd_error (moves (trapq_check_sentinels q)) = Some m0 ->
                    (print_time m0 <=? last_flush_time sk) = true) ->
        (last_flush_time sk <? flush_time) = true ->
        geb (last_flush_time sk) (print_time tail + move_t tail) = false ->
        (flush_time <=? print_time tail + move_t tail) = true ->
        itersolve_check_active sk flush_time
        = Some (first_active_before sk flush_time
                                    (moves (trapq_check_sentinels q)),
                set_tq sk (Some (trapq_check_sentinels q)))).
Proof.
  assert (Hret : forall q r sk',
             tq sk = Some q ->
             queue_in_order (moves (trapq_check_sentinels q)) = true ->
             (forall m0,
                 hd_error (moves (trapq_check_sentinels q)) = Some m0 ->
                 (print_time m0 <=? last_flush_time sk) = true) ->
             (last_flush_time sk <? flush_time) = true ->
             itersolve_check_active sk flush_time = Some (r, sk') ->
             r = first_active_before sk flush_time
                                     (moves (trapq_check_sentinels q))
             /\ sk' = set_tq sk (Some (trapq_check_sentinels q))).
  { intros q r sk' Hq Ho Hh Hlt. unfold itersolve_check_active. rewrite Hq.
    cbv zeta. unfold list_first_entry, first_active_before.
    destruct (moves (trapq_check_sentinels q)) as [|m0 ms]; [discriminate|].
    cbn [c_prev c_cur c_next last_flush_time set_tq].
    specialize (Hh m0 eq_refl).
    destruct (skip_flushed _ _ _ _) as [c|] eqn:Hs; [|discriminate].
    destruct (skip_flushed_window sk (last_flush_time sk) flush_time ms [] m0
                                  c Ho Hh Hs) as (Hf & Hq' & Hc & Hl).
    rewrite Hf.
    destruct (check_active_walk _ _ _ _) as [r0|] eqn:Hw; [|discriminate].
    intros [= <- <-]. split; [|reflexivity].
    apply (check_active_walk_window
             (set_tq sk (Some (trapq_check_sentinels q)))
             (last_flush_time sk) flush_time (c_next c) (c_cur c) r0 Hq' Hl);
      [by_rank | exact Hw]. }
  split; [|split; [exact Hret|]].
  - intros Hq. unfold itersolve_check_active. rewrite Hq. reflexivity.
  - intros q body tail Hq Hm Ho Hh Hlt Hl Hf.
    destruct (itersolve_check_active sk flush_time) as [[r sk']|] eqn:E.
    + destruct (Hret q r sk' Hq Ho Hh Hlt eq_refl) as [-> ->]. reflexivity.
    + exfalso. revert E. unfold itersolve_check_active. rewrite Hq. cbv zeta.
      unfold list_first_entry. rewrite Hm.
      destruct (body ++ [tail]) as [|m0 ms] eqn:Eb;
        [destruct body; discriminate|].
      cbn [c_prev c_cur c_next last_flush_time set_tq].
      symmetry in Eb.
      destruct (skip_flushed_total (last_flush_time sk) tail ms [] m0 body Hl Eb)
        as (c & body' & Hs & Hc).
      rewrite Hs.
      destruct (check_active_walk_total
                  (set_tq sk (Some (trapq_check_sentinels q)))
                  flush_time tail (c_next c) (c_cur c) body' Hf Hc)
        as (r & Hw).
      rewrite Hw. discriminate.
Qed.

(** * Further properties of the solver *)

(** ** The root finder, continued *)

Lemma find_loop_best (fuel : nat) (sk : stepper) (m : move) (target : float)
    (hs : bool) (st : find_state) (r : timepos) :
  find_loop fuel sk m target hs st = Some r ->
  r = f_best st \/ position r = calc_position_cb sk m (time r).
Proof.
  revert st. induction fuel as [|fuel IH]; intros st; cbn [find_loop];
    [discriminate|].
  destruct (find_exit st).
  - intros [= <-]. left; reflexivity.
  - intros H. right. destruct (IH _ H) as [->|E]; [|exact E].
    unfold find_next. cbv zeta.
    destruct (Bool.eqb _ hs); reflexivity.
Qed.

(** X1: whatever [itersolve_find_step] returns is one of three things: the
    high endpoint as it was passed, the pair [(low.time, target)], or a time
    together with the projection evaluated at that very time. *)
Theorem itersolve_find_step_result (fuel : nat) (sk : stepper) (m : move)
    (low high : timepos) (target : float) (r : timepos) :
  itersolve_find_step fuel sk m low high target = Some r ->
  r = high
  \/ r = mk_timepos (time low) target
  \/ position r = calc_position_cb sk m (time r).
Proof.
  unfold itersolve_find_step. cbv zeta. cbn [position time].
  destruct (negb (truthy (position high - target)));
    [intros [= <-]; left; reflexivity|].
  destruct (Bool.eqb _ _); [intros [= <-]; right; left; reflexivity|].
  intros H. apply find_loop_best in H. cbn [f_best] in H.
  destruct H as [->|E]; [left; reflexivity | right; right; exact E].
Qed.

(** X2: the loop of the root finder keeps the target bracketed in sign: after
    any number of passes the high endpoint still has the sign bit it had at
    entry and the low endpoint the opposite one, and each endpoint that a
    pass has moved carries the projection at its time, less the target. *)
Theorem find_iterate_signs (k : nat) (sk : stepper) (m : move)
    (target : float) (hs : bool) (st : find_state) :
  signbit (position (f_high st)) = hs ->
  signbit (position (f_low st)) = negb hs ->
  let st' := find_iterate k sk m target hs st in
  signbit (position (f_high st')) = hs
  /\ signbit (position (f_low st')) = negb hs
  /\ (f_high st' = f_high st
      \/ position (f_high st')
         = calc_position_cb sk m (time (f_high st')) - target)
  /\ (f_low st' = f_low st
      \/ position (f_low st')
         = calc_position_cb sk m (time (f_low st')) - target).
Proof.
  revert st. induction k as [|k IH]; intros st Hh Hl; cbn [find_iterate].
  - cbv zeta. repeat split; auto.
  - cbv zeta.
    assert (Hn : let n := find_next sk m target hs st in
                 signbit (position (f_high n)) = hs
                 /\ signbit (position (f_low n)) = negb hs
                 /\ (f_high n = f_high st
                     \/ position (f_high n)
                        = calc_position_cb sk m (time (f_high n)) - target)
                 /\ (f_low n = f_low st
                     \/ position (f_low n)
                        = calc_position_cb sk m (time (f_low n)) - target)).
    { unfold find_next. cbv zeta. cbn [position].
      destruct (Bool.eqb _ hs) eqn:E; cbn [f_high f_low position time].
      - apply Bool.eqb_prop in E. repeat split; auto.
      - apply Bool.eqb_false_iff in E.
        repeat split; auto.
        clear - E.
        destruct (signbit (calc_position_cb sk m (find_guess st) - target)),
          hs; cbn [negb]; try reflexivity; exfalso; apply E; reflexivity. }
    cbv zeta in Hn. destruct Hn as (Hh' & Hl' & Eh & El).
    destruct (IH _ Hh' Hl') as (H1 & H2 & H3 & H4).
    repeat split; auto.
    + destruct H3 as [->|H3]; [exact Eh | right; exact H3].
    + destruct H4 as [->|H4]; [exact El | right; exact H4].
Qed.

(** ** The range solver, continued *)

(** No double is less than itself. *)
Lemma ltb_irrefl (v : float) : (v <? v) = false.
Proof.
  rewrite ltb_spec. unfold SFltb.
  destruct (Prim2SF v) as [s|s| |s mv ev]; cbn [SFcompare];
    try destruct s; try reflexivity;
    rewrite Z.compare_refl, Pos.compare_cont_refl; reflexivity.
Qed.

(** X3: widening the search range.  It ends the loop exactly when the high
    bound has reached the end of the range: then, and only then, the outcome
    is [break], with the state as it was.  Otherwise the old high bound
    becomes the low bound, the new high bound never lies beyond the end of
    the range, it is either the end itself or a time that is not at or before
    the new low bound, and its position is the projection at its time. *)
Theorem range_widen_bracket (fuel : nat) (m : move) (end_ : float)
    (st : range_state) :
  (geb (time (r_high st)) end_ = true ->
   range_widen fuel m end_ st = RBreak st)
  /\ (forall st' : range_state,
        range_widen fuel m end_ st = RBreak st' ->
        st' = st /\ geb (time (r_high st)) end_ = true)
  /\ (forall st' : range_state,
        range_widen fuel m end_ st = RContinue st' ->
        geb (time (r_high st)) end_ = false
        /\ r_low st' = r_high st
        /\ gtb (time (r_high st')) end_ = false
        /\ (time (r_high st') = end_
            \/ (time (r_high st') <=? time (r_low st')) = false)
        /\ position (r_high st')
           = calc_position_cb (r_sk st) m (time (r_high st')))
  /\ (forall (ret : Z) (sk' : stepper),
        range_widen fuel m end_ st <> RReturn ret sk').
Proof.
  unfold range_widen.
  destruct (geb (time (r_high st)) end_) eqn:Hg.
  - split; [reflexivity|]. split; [intros st' [= <-]; split; reflexivity|].
    split; discriminate.
  - destruct (seek_loop _ _ _ _) as [[ht sd]|] eqn:Hs;
      [|repeat split; discriminate].
    split; [discriminate|]. split; [discriminate|]. split; [|discriminate].
    intros st' [= <-]. cbn [r_low r_high time position].
    apply seek_loop_beyond in Hs.
    split; [reflexivity|]. split; [reflexivity|].
    destruct (gtb ht end_) eqn:Hc.
    + split; [apply ltb_irrefl|]. split; [left|]; reflexivity.
    + split; [exact Hc|]. split; [right; exact Hs | reflexivity].
Qed.

Lemma range_widen_break (fuel : nat) (m : move) (end_ : float)
    (st st' : range_state) :
  range_widen fuel m end_ st = RBreak st' ->
  geb (time (r_high st')) end_ = true.
Proof.
  unfold range_widen.
  destruct (geb (time (r_high st)) end_) eqn:Hg.
  - intros [= <-]. exact Hg.
  - destruct (seek_loop _ _ _ _) as [[ht sd]|]; discriminate.
Qed.

(** A pass of the loop that ends it found the high bound at the end of the
    range. *)
Lemma range_iter_break (fuel : nat) (m : move) (half_step end_ : float)
    (st st' : range_state) :
  range_iter fuel m half_step end_ st = RBreak st' ->
  geb (time (r_high st')) end_ = true.
Proof.
  unfold range_iter. cbv zeta.
  assert (W : forall s, range_widen fuel m end_ s = RBreak st' ->
                        geb (time (r_high st')) end_ = true)
    by (intros s; apply range_widen_break).
  destruct (geb (toward (r_sdir st) _) half_step).
  - destruct (itersolve_find_step _ _ _ _ _ _) as [next|]; [|discriminate].
    destruct (sds_append _ _ _ _) as [ret sk1].
    destruct (negb (ret =? 0)%Z); [discriminate|].
    destruct (time next <? time (r_high st)); [discriminate|]. apply W.
  - destruct (gtb _ 0); [apply W|].
    destruct (_ <? _); [|apply W].
    destruct (gtb (time (r_low st)) (time (r_last st))); [discriminate|].
    destruct (gtb (time (r_high st)) _); [discriminate|]. apply W.
Qed.

(** The loop of the range solver is left only through this test, so a range
    solve that completes has searched up to the end of its range. *)
Lemma range_loop_break (fuel0 fuel : nat) (m : move) (half_step end_ : float)
    (st st' : range_state) :
  range_loop fuel0 fuel m half_step end_ st = Some (inr st') ->
  geb (time (r_high st')) end_ = true.
Proof.
  revert st. induction fuel as [|fuel IH]; intros st; cbn [range_loop];
    [discriminate|].
  destruct (range_iter fuel0 m half_step end_ st) as [s1|s1|ret sk1|] eqn:E;
    try discriminate.
  - apply IH.
  - intros [= <-]. apply (range_iter_break _ _ _ _ _ _ E).
Qed.

(** *** What a range solve asks of the filter *)

(** The steps that a sequence of filter calls appends. *)
Definition appended_steps (ops : list filter_op) : list (Z * float * float) :=
  flat_map (fun op =>
              match op with
              | FAppend d mt st => [(d, mt, st)]
              | _ => []
              end) ops.

(** The filter call of one pass of the range loop, if it makes one. *)
Definition range_pass_ops (fuel : nat) (m : move) (half_step : float)
    (st : range_state) : list filter_op :=
  let dist :=
    toward (r_sdir st) (position (r_high st) - position (r_last st)) in
  if geb dist half_step then
    match range_candidate fuel m half_step st with
    | Some (d, mt, t) => [FAppend d mt t]
    | None => []
    end
  else if gtb dist 0 then [FCommitPending]
  else [].

Lemma filter_run_app (a b : list filter_op) (sk : stepper) :
  filter_run (a ++ b) sk = filter_run b (filter_run a sk).
Proof. apply fold_left_app. Qed.

Lemma appended_steps_app (a b : list filter_op) :
  appended_steps (a ++ b) = appended_steps a ++ appended_steps b.
Proof. apply flat_map_app. Qed.

Lemma appended_pass_ops (fuel : nat) (m : move) (half_step : float)
    (st : range_state) :
  appended_steps (range_pass_ops fuel m half_step st)
  = match range_candidate fuel m half_step st with
    | Some c => [c]
    | None => []
    end.
Proof.
  unfold range_pass_ops. cbv zeta.
  destruct (geb _ half_step) eqn:Hg.
  - destruct (range_candidate fuel m half_step st) as [[[d mt] t]|];
      reflexivity.
  - unfold range_candidate. cbv zeta. rewrite Hg.
    destruct (gtb _ 0); reflexivity.
Qed.

(** The stepper after a pass is the stepper before it, put through the
    filter call of the pass. *)
Lemma range_iter_filter (fuel : nat) (m : move) (half_step end_ : float)
    (st : range_state) :
  match range_iter fuel m half_step end_ st with
  | RContinue st' | RBreak st' =>
      r_sk st' = filter_run (range_pass_ops fuel m half_step st) (r_sk st)
  | RReturn ret sk' =>
      sk' = filter_run (range_pass_ops fuel m half_step st) (r_sk st)
      /\ ret <> 0%Z
      /\ exists d mt t, sds_append (r_sk st) d mt t = (ret, sk')
  | RStuck => True
  end.
Proof.
  unfold range_iter, range_pass_ops, range_candidate. cbv zeta.
  destruct (geb (toward (r_sdir st) _) half_step).
  - destruct (itersolve_find_step _ _ _ _ _ _) as [next|]; [|exact I].
    cbn [filter_run fold_left filter_step].
    destruct (sds_append _ _ _ _) as [ret sk1] eqn:Ea. cbn [snd].
    destruct (ret =? 0)%Z eqn:Hr; cbn [negb].
    + destruct (time next <? time (r_high st)); [reflexivity|].
      widen_cases Hl Hs; exact Hs.
    + apply Z.eqb_neq in Hr. split; [reflexivity|]. split; [exact Hr|].
      eauto.
  - destruct (gtb _ 0).
    + cbn [filter_run fold_left filter_step]. widen_cases Hl Hs; exact Hs.
    + cbn [filter_run fold_left].
      destruct (_ <? _).
      * destruct (gtb (time (r_low st)) (time (r_last st))); [reflexivity|].
        destruct (gtb (time (r_high st)) _); [reflexivity|].
        widen_cases Hl Hs; exact Hs.
      * widen_cases Hl Hs; exact Hs.
Qed.

(** The stepper a loop result carries. *)
Definition result_sk (r : Z * stepper + range_state) : stepper :=
  match r with
  | inl (_, sk) => sk
  | inr st => r_sk st
  end.

Lemma range_loop_filter (fuel0 fuel : nat) (m : move) (half_step end_ : float)
    (st : range_state) (r : Z * stepper + range_state) :
  range_loop fuel0 fuel m half_step end_ st = Some r ->
  exists ops,
    result_sk r = filter_run ops (r_sk st)
    /\ appended_steps ops = range_candidates fuel0 fuel m half_step end_ st.
Proof.
  revert st. induction fuel as [|fuel IH]; intros st;
    cbn [range_loop range_candidates]; [discriminate|].
  pose proof (range_iter_filter fuel0 m half_step end_ st) as Hf.
  pose proof (appended_pass_ops fuel0 m half_step st) as Ha.
  destruct (range_iter fuel0 m half_step end_ st) as [s1|s1|ret sk1|];
    intros H; try discriminate.
  - destruct (IH _ H) as (ops & Hr & Hc).
    exists (range_pass_ops fuel0 m half_step st ++ ops).
    rewrite filter_run_app, appended_steps_app, <- Hf, Hr, Hc, Ha.
    split; reflexivity.
  - injection H as <-. exists (range_pass_ops fuel0 m half_step st).
    split; [exact Hf | exact Ha].
  - injection H as <-. exists (range_pass_ops fuel0 m half_step st).
    split; [apply Hf | exact Ha].
Qed.

(** A range solve, seen from the filter: a sequence of calls whose appended
    steps are the candidate steps of the solve, in order; the stepper
    returned is the result of these calls, with [commanded_pos] assigned and
    the post-step hook run when the status is 0. *)
Lemma itersolve_gen_steps_range_filter (fuel : nat) (sk sk' : stepper)
    (m : move) (move_start move_end : float) (ret : Z) :
  itersolve_gen_steps_range fuel sk m move_start move_end = Some (ret, sk') ->
  exists ops,
    appended_steps ops
    = gen_steps_range_candidates fuel sk m move_start move_end
    /\ ((ret <> 0%Z /\ sk' = filter_run ops sk)
        \/ (ret = 0%Z
            /\ exists p,
                 sk' = run_post_cb (set_commanded_pos (filter_run ops sk) p))).
Proof.
  unfold itersolve_gen_steps_range, gen_steps_range_candidates. cbv zeta.
  intros H.
  match type of H with context [range_loop ?a ?b ?c ?d ?e ?s] =>
    pose proof (range_loop_filter a b c d e s) as Hl;
    pose proof (range_loop_last a b c d e s) as Hn;
    destruct (range_loop a b c d e s) as [[[ret2 sk2]|st']|]
  end; [| |discriminate].
  - injection H as -> ->.
    destruct (Hl _ eq_refl) as (ops & Hr & Hc). cbn [result_sk range_init r_sk] in Hr.
    exists ops. split; [exact Hc|]. left. split; [apply Hn | exact Hr].
  - destruct (Hl _ eq_refl) as (ops & Hr & Hc).
    cbn [result_sk range_init r_sk] in Hr.
    exists (ops ++ [FFlush (print_time m) (move_end - print_time m)]).
    rewrite appended_steps_app, filter_run_app, app_nil_r, <- Hr.
    split; [exact Hc|]. cbn [filter_run fold_left filter_step].
    unfold range_finish in H.
    destruct (sds_flush (r_sk st') (print_time m) _) as [ret2 sk2].
    cbn [snd].
    destruct (ret2 =? 0)%Z eqn:Hz; cbn [negb] in H; injection H as <- <-.
    + right. split; [reflexivity|]. eexists; reflexivity.
    + apply Z.eqb_neq in Hz. left. split; [exact Hz | reflexivity].
Qed.

(** *** The direction kept across range solves *)

Lemma sds_commit_dir (sk : stepper) :
  next_step_dir (snd (sds_commit sk)) = next_step_dir sk.
Proof. rewrite sds_commit_sink. reflexivity. Qed.

Lemma sds_flush_dir (sk : stepper) (mt st : float) :
  next_step_dir (snd (sds_flush sk mt st)) = next_step_dir sk.
Proof.
  unfold sds_flush. destruct (truthy _); [|reflexivity].
  destruct (geb _ _); [apply sds_commit_dir | reflexivity].
Qed.

(** An append that returns 0 leaves its direction in [next_step_dir], whether
    it stored the step or cancelled the pending one. *)
Lemma sds_append_dir (sk sk' : stepper) (d : Z) (mt st : float) :
  sds_append sk d mt st = (0%Z, sk') -> next_step_dir sk' = d.
Proof.
  unfold sds_append. cbv zeta. rewrite sds_commit_sink.
  destruct (truthy (next_move_print_time sk));
    [destruct (negb (d =? next_step_dir sk)%Z);
     [destruct (_ <? SDS_FILTER_TIME)|]|];
    try (destruct (fst _ =? 0)%Z eqn:Hr; cbn [negb]);
    intros E; inversion E; subst; try reflexivity;
    apply Z.eqb_neq in Hr; congruence.
Qed.

Lemma last_cons_default {A : Type} (a : A) (l : list A) (d d' : A) :
  last (a :: l) d = last (a :: l) d'.
Proof.
  revert a. induction l as [|b l IH]; intros a; [reflexivity|].
  change (last (b :: l) d = last (b :: l) d'). apply IH.
Qed.

Lemma last_app_default {A : Type} (l l' : list A) (d : A) :
  last (l ++ l') d = last l' (last l d).
Proof.
  induction l as [|a l IH]; [reflexivity|].
  destruct l as [|b l].
  - destruct l' as [|c l']; [reflexivity|].
    change (last (c :: l') d = last (c :: l') a). apply last_cons_default.
  - exact IH.
Qed.

Lemma range_iter_dir (fuel : nat) (m : move) (half_step end_ : float)
    (st st' : range_state) :
  range_iter fuel m half_step end_ st = RContinue st'
  \/ range_iter fuel m half_step end_ st = RBreak st' ->
  next_step_dir (r_sk st')
  = match range_candidate fuel m half_step st with
    | Some c => cand_dir c
    | None => next_step_dir (r_sk st)
    end.
Proof.
  intros H.
  pose proof (range_iter_append fuel m half_step end_ st) as Ha.
  pose proof (range_iter_filter fuel m half_step end_ st) as Hf.
  destruct (range_candidate fuel m half_step st) as [[[d mt] t]|] eqn:Ec.
  - specialize (Ha d mt t eq_refl).
    destruct H as [H|H]; rewrite H in Ha; apply (sds_append_dir _ _ _ _ _ Ha).
  - assert (E : r_sk st'
                = filter_run (range_pass_ops fuel m half_step st) (r_sk st))
      by (destruct H as [H|H]; rewrite H in Hf; exact Hf).
    rewrite E. unfold range_pass_ops. cbv zeta. rewrite Ec.
    destruct (geb _ half_step); [reflexivity|].
    destruct (gtb _ 0); [|reflexivity].
    cbn [filter_run fold_left filter_step].
    destruct (truthy _); [apply sds_commit_dir | reflexivity].
Qed.

Lemma range_loop_dir (fuel0 fuel : nat) (m : move) (half_step end_ : float)
    (st st' : range_state) :
  range_loop fuel0 fuel m half_step end_ st = Some (inr st') ->
  next_step_dir (r_sk st')
  = last (map cand_dir (range_candidates fuel0 fuel m half_step end_ st))
         (next_step_dir (r_sk st)).
Proof.
  revert st. induction fuel as [|fuel IH]; intros st;
    cbn [range_loop range_candidates]; [discriminate|].
  pose proof (range_iter_dir fuel0 m half_step end_ st) as Hd.
  destruct (range_iter fuel0 m half_step end_ st) as [s1|s1|ret sk1|];
    intros H; try discriminate.
  - rewrite (IH _ H), map_app, last_app_default, (Hd s1 (or_introl eq_refl)).
    f_equal.
    destruct (range_candidate fuel0 m half_step st); reflexivity.
  - injection H as <-. rewrite (Hd s1 (or_intror eq_refl)).
    destruct (range_candidate fuel0 m half_step st); reflexivity.
Qed.

(** X4: the direction that a completed range solve leaves in
    [next_step_dir], where the next range solve will pick it up, is the
    direction of the last candidate step it handed to the filter; a solve
    without candidate steps leaves the field as it found it, even if the
    solver turned round meanwhile. *)
Theorem itersolve_gen_steps_range_dir (fuel : nat) (sk sk' : stepper)
    (m : move) (move_start move_end : float) :
  itersolve_gen_steps_range fuel sk m move_start move_end = Some (0%Z, sk') ->
  exists sk1 : stepper,
    sk' = run_post_cb sk1
    /\ next_step_dir sk1
       = last (map cand_dir
                   (gen_steps_range_candidates fuel sk m move_start move_end))
              (next_step_dir sk).
Proof.
  unfold itersolve_gen_steps_range, gen_steps_range_candidates. cbv zeta.
  intros H.
  match type of H with context [range_loop ?a ?b ?c ?d ?e ?s] =>
    pose proof (range_loop_dir a b c d e s) as Hd;
    pose proof (range_loop_last a b c d e s) as Hn;
    destruct (range_loop a b c d e s) as [[[ret2 sk2]|st']|]
  end; [| |discriminate].
  - destruct Hn as [Hn _]. injection H as -> _. congruence.
  - specialize (Hd st' eq_refl). cbn [range_init r_sk] in Hd.
    unfold range_finish in H.
    pose proof (sds_flush_dir (r_sk st') (print_time m)
                              (move_end - print_time m)) as Hfl.
    destruct (sds_flush (r_sk st') (print_time m) _) as [ret2 sk2].
    cbn [snd] in Hfl.
    destruct (ret2 =? 0)%Z eqn:Hz; cbn [negb] in H.
    + injection H as <-. eexists. split; [reflexivity|].
      cbn [set_commanded_pos next_step_dir]. congruence.
    + apply Z.eqb_neq in Hz. injection H as -> _. congruence.
Qed.

(** *** The step left pending, and the filter after a failure *)

(** X5: when a range solve completes, a step that the filter still holds is
    less than 0.75 ms short of the end of the range, in combined move and
    step time: the flush that ends the solve committed anything older. *)
Theorem itersolve_gen_steps_range_pending (fuel : nat) (sk sk' : stepper)
    (m : move) (move_start move_end : float) :
  itersolve_gen_steps_range fuel sk m move_start move_end = Some (0%Z, sk') ->
  exists sk1 : stepper,
    sk' = run_post_cb sk1
    /\ (sds_pending sk1 = true ->
        geb ((print_time m - next_move_print_time sk1)
             + ((move_end - print_time m) - next_step_time sk1))
            SDS_FILTER_TIME = false).
Proof.
  unfold itersolve_gen_steps_range. cbv zeta. intros H.
  match type of H with context [range_loop ?a ?b ?c ?d ?e ?s] =>
    pose proof (range_loop_last a b c d e s) as Hn;
    destruct (range_loop a b c d e s) as [[[ret2 sk2]|st']|]
  end; [| |discriminate].
  - destruct Hn as [Hn _]. injection H as -> _. congruence.
  - unfold range_finish, sds_flush in H.
    destruct (truthy (next_move_print_time (r_sk st'))) eqn:Hp.
    + destruct (geb _ SDS_FILTER_TIME) eqn:Hg.
      * pose proof (sds_commit_empty (r_sk st')) as He.
        destruct (sds_commit (r_sk st')) as [ret2 sk2]. cbn [snd] in He.
        destruct (negb (ret2 =? 0)%Z) eqn:Hz.
        { apply negb_true_iff, Z.eqb_neq in Hz. injection H as -> _.
          congruence. }
        injection H as <-. eexists. split; [reflexivity|].
        unfold sds_pending in *. cbn [set_commanded_pos next_move_print_time].
        congruence.
      * cbn [negb Z.eqb] in H. injection H as <-.
        eexists. split; [reflexivity|]. intros _. exact Hg.
    + cbn [negb Z.eqb] in H. injection H as <-.
      eexists. split; [reflexivity|].
      unfold sds_pending. cbn [set_commanded_pos next_move_print_time].
      congruence.
Qed.

(** A filter call can only fail in [sds_commit]: the filter held a step, and
    the status and the stepper returned are those of committing it. *)
Lemma sds_append_refused (sk sk' : stepper) (d : Z) (mt st : float) (ret : Z) :
  sds_append sk d mt st = (ret, sk') -> ret <> 0%Z ->
  sds_pending sk = true /\ sds_commit sk = (ret, sk').
Proof.
  unfold sds_append, sds_pending. cbv zeta.
  destruct (truthy (next_move_print_time sk));
    [|intros [= <- _] Hr; congruence].
  assert (K : (let (r, s) := sds_commit sk in
               if negb (r =? 0)%Z then (r, s)
               else (0%Z, sds_store s d mt st)) = (ret, sk') ->
              ret <> 0%Z -> true = true /\ sds_commit sk = (ret, sk')).
  { destruct (sds_commit sk) as [r s].
    destruct (r =? 0)%Z; cbn [negb]; intros [= <- <-] Hr;
      [congruence | split; reflexivity]. }
  destruct (negb (d =? next_step_dir sk)%Z); [|exact K].
  destruct (_ <? SDS_FILTER_TIME); [|exact K].
  intros [= <- _] Hr. congruence.
Qed.

Lemma sds_flush_refused (sk sk' : stepper) (mt st : float) (ret : Z) :
  sds_flush sk mt st = (ret, sk') -> ret <> 0%Z ->
  sds_pending sk = true /\ sds_commit sk = (ret, sk').
Proof.
  unfold sds_flush, sds_pending.
  destruct (truthy (next_move_print_time sk));
    [|intros [= <- _] Hr; congruence].
  destruct (geb _ _); [|intros [= <- _] Hr; congruence].
  intros H _. split; [reflexivity | exact H].
Qed.

Lemma range_loop_refused (fuel0 fuel : nat) (m : move) (half_step end_ : float)
    (st : range_state) (ret : Z) (sk' : stepper) :
  range_loop fuel0 fuel m half_step end_ st = Some (inl (ret, sk')) ->
  exists ops rest,
    range_candidates fuel0 fuel m half_step end_ st = appended_steps ops ++ rest
    /\ sds_pending (filter_run ops (r_sk st)) = true
    /\ sds_commit (filter_run ops (r_sk st)) = (ret, sk').
Proof.
  revert st. induction fuel as [|fuel IH]; intros st;
    cbn [range_loop range_candidates]; [discriminate|].
  pose proof (range_iter_filter fuel0 m half_step end_ st) as Hf.
  pose proof (appended_pass_ops fuel0 m half_step st) as Ha.
  destruct (range_iter fuel0 m half_step end_ st) as [s1|s1|r sk1|];
    intros H; try discriminate.
  - destruct (IH _ H) as (ops & rest & Hc & Hp & Hk).
    exists (range_pass_ops fuel0 m half_step st ++ ops), rest.
    rewrite filter_run_app, appended_steps_app, <- Hf, Hc, Ha, app_assoc.
    repeat split; assumption.
  - injection H as -> ->. destruct Hf as (_ & Hr & d & mt & t & Ea).
    exists [], (match range_candidate fuel0 m half_step st with
                | Some c => [c]
                | None => []
                end).
    split; [reflexivity|]. cbn [filter_run fold_left].
    apply (sds_append_refused _ _ _ _ _ _ Ea Hr).
Qed.

(** A range solve that fails: after some of its filter calls, which have
    appended the first of its candidate steps, the filter holds a step, and
    committing that step is what fails. *)
Lemma itersolve_gen_steps_range_refused (fuel : nat) (sk sk' : stepper)
    (m : move) (move_start move_end : float) (ret : Z) :
  itersolve_gen_steps_range fuel sk m move_start move_end = Some (ret, sk') ->
  ret <> 0%Z ->
  exists ops rest,
    gen_steps_range_candidates fuel sk m move_start move_end
    = appended_steps ops ++ rest
    /\ sds_pending (filter_run ops sk) = true
    /\ sds_commit (filter_run ops sk) = (ret, sk').
Proof.
  unfold itersolve_gen_steps_range, gen_steps_range_candidates. cbv zeta.
  intros H Hret.
  match type of H with context [range_loop ?a ?b ?c ?d ?e ?s] =>
    pose proof (range_loop_refused a b c d e s) as Hr;
    pose proof (range_loop_filter a b c d e s) as Hl;
    destruct (range_loop a b c d e s) as [[[ret2 sk2]|st']|]
  end; [| |discriminate].
  - injection H as -> ->. apply (Hr _ _ eq_refl).
  - destruct (Hl _ eq_refl) as (ops & Hs & Hc).
    cbn [result_sk range_init r_sk] in Hs.
    exists ops, []. rewrite app_nil_r, <- Hs. split; [symmetry; exact Hc|].
    unfold range_finish in H.
    destruct (sds_flush (r_sk st') (print_time m) _) as [ret2 sk2] eqn:Ef.
    destruct (ret2 =? 0)%Z eqn:Hz; cbn [negb] in H.
    + injection H as <- _. congruence.
    + injection H as -> ->. apply (sds_flush_refused _ _ _ _ _ Ef Hret).
Qed.

(** X6: a flush that returns a non-zero status was refused a step by the
    sink.  One of its range solves returned that status; after some of the
    filter calls of that solve the filter held a step; the sink, asked to
    take that step, answered with the status; and the stepper returned is the
    stepper at that moment with the sink as the refusal left it and the
    filter Empty: the step refused is no longer held, and no other step has
    taken its place. *)
Theorem itersolve_generate_steps_failure (fuel : nat) (sk sk' : stepper)
    (flush_time : float) (ret : Z) :
  itersolve_generate_steps fuel sk flush_time = Some (ret, sk') ->
  ret <> 0%Z ->
  exists sk0 m move_start move_end ops rest,
    In (sk0, m, move_start, move_end) (flush_solves fuel sk flush_time)
    /\ itersolve_gen_steps_range fuel sk0 m move_start move_end
       = Some (ret, sk')
    /\ gen_steps_range_candidates fuel sk0 m move_start move_end
       = appended_steps ops ++ rest
    /\ let skp := filter_run ops sk0 in
       sds_pending skp = true
       /\ stepcompress_append (sc skp) (next_step_dir skp)
                              (next_move_print_time skp) (next_step_time skp)
          = (ret, sc sk')
       /\ sk' = set_sc (set_next_move_print_time skp 0) (sc sk')
       /\ sds_pending sk' = false.
Proof.
  intros H Hret.
  destruct (itersolve_generate_steps_failed_solve _ _ _ _ _ H Hret)
    as (sk0 & m & s & e & Hin & Hg).
  destruct (itersolve_gen_steps_range_refused _ _ _ _ _ _ _ Hg Hret)
    as (ops & rest & Hc & Hp & Hk).
  exists sk0, m, s, e, ops, rest.
  split; [exact Hin|]. split; [exact Hg|]. split; [exact Hc|].
  cbv zeta. split; [exact Hp|].
  rewrite sds_commit_sink in Hk.
  destruct (stepcompress_append _ _ _ _) as [r s']. cbn [fst snd] in Hk.
  injection Hk as -> <-. repeat split.
Qed.

(** ** The flush driver, continued *)

Lemma set_tq_same (sk : stepper) : set_tq sk (tq sk) = sk.
Proof. destruct sk; reflexivity. Qed.

(** X7: a flush to a time that is not after [last_flush_time] solves
    nothing.  Whenever it returns it returns 0 and leaves the stepper as it
    was, the sink and the filter included, but for two things: the queue has
    had its sentinels checked, and [last_flush_time] is overwritten with
    [flush_time], which moves it back when [flush_time] is the earlier of
    the two.  It does return when the last entry of the queue ends after
    [last_flush_time]. *)
Theorem itersolve_generate_steps_not_after (fuel : nat) (sk : stepper)
    (flush_time : float) :
  geb (last_flush_time sk) flush_time = true ->
  (forall ret sk',
      itersolve_generate_steps fuel sk flush_time = Some (ret, sk') ->
      ret = 0%Z
      /\ sk' = set_tq (set_last_flush_time sk flush_time)
                      (option_map trapq_check_sentinels (tq sk)))
  /\ (forall q body tail,
        tq sk = Some q ->
        moves (trapq_check_sentinels q) = body ++ [tail] ->
        geb (last_flush_time sk) (print_time tail + move_t tail) = false ->
        itersolve_generate_steps (S fuel) sk flush_time
        = Some (0%Z, set_tq (set_last_flush_time sk flush_time)
                            (Some (trapq_check_sentinels q)))).
Proof.
  intros Hge.
  assert (Hret : forall n ret sk',
             itersolve_generate_steps n sk flush_time = Some (ret, sk') ->
             ret = 0%Z
             /\ sk' = set_tq (set_last_flush_time sk flush_time)
                             (option_map trapq_check_sentinels (tq sk))).
  { intros n ret sk'. unfold itersolve_generate_steps. cbv zeta.
    cbn [set_last_flush_time tq].
    destruct (tq sk) as [q|] eqn:Hq; cbn [option_map].
    - destruct (list_first_entry _) as [c|]; [|discriminate].
      destruct (skip_flushed _ _ _ _) as [c'|]; [|discriminate].
      destruct n as [|n]; cbn [generate_loop]; [discriminate|].
      rewrite Hge. intros [= <- <-]. split; reflexivity.
    - intros [= <- <-]. split; [reflexivity|].
      transitivity (set_tq (set_last_flush_time sk flush_time)
                           (tq (set_last_flush_time sk flush_time)));
        [symmetry; apply set_tq_same|].
      cbn [set_last_flush_time tq]. rewrite Hq. reflexivity. }
  split; [apply Hret|].
  intros q body tail Hq Hm Hl.
  destruct (itersolve_generate_steps (S fuel) sk flush_time)
    as [[ret sk']|] eqn:E.
  - destruct (Hret _ _ _ E) as [-> ->]. rewrite Hq. reflexivity.
  - exfalso. revert E. unfold itersolve_generate_steps. cbv zeta.
    cbn [set_last_flush_time tq]. rewrite Hq.
    unfold list_first_entry. rewrite Hm.
    destruct (body ++ [tail]) as [|m0 ms] eqn:Eb;
      [destruct body; discriminate|].
    cbn [c_prev c_cur c_next]. symmetry in Eb.
    destruct (skip_flushed_total (last_flush_time sk) tail ms [] m0 body Hl Eb)
      as (c & body' & Hs & _).
    rewrite Hs. cbn [generate_loop]. rewrite Hge. discriminate.
Qed.

(** ** Axes *)

(** X8: [itersolve_is_active_axis] answers 0 or 1, and 0 for any character
    other than 'x', 'y' and 'z'; and a move counts as active for a stepper
    exactly when it has a non-zero [axes_r] component on an axis for which
    that function answers 1.  (The flags are laid out as the shift in
    [itersolve_is_active_axis] supposes: [AF_Y] and [AF_Z] are [AF_X]
    shifted by one and two.) *)
Theorem check_active_is_active_axis (sk : stepper) (m : move) :
  check_active sk m
  = ((itersolve_is_active_axis sk 120 =? 1)%Z && negb (x (axes_r m) =? 0))
    || ((itersolve_is_active_axis sk 121 =? 1)%Z && negb (y (axes_r m) =? 0))
    || ((itersolve_is_active_axis sk 122 =? 1)%Z && negb (z (axes_r m) =? 0))
  /\ (forall axis : Z,
        itersolve_is_active_axis sk axis = 0%Z
        \/ itersolve_is_active_axis sk axis = 1%Z)
  /\ (forall axis : Z,
        (axis < 120 \/ 122 < axis)%Z ->
        itersolve_is_active_axis sk axis = 0%Z).
Proof.
  split; [|split].
  - unfold check_active, itersolve_is_active_axis. cbv zeta.
    change (Z.shiftl AF_X (120 - 120)) with AF_X.
    change (Z.shiftl AF_X (121 - 120)) with AF_Y.
    change (Z.shiftl AF_X (122 - 120)) with AF_Z.
    cbn [Z.ltb Z.gtb Z.compare Pos.compare Pos.compare_cont orb].
    destruct (Z.land (active_flags sk) AF_X =? 0)%Z,
             (Z.land (active_flags sk) AF_Y =? 0)%Z,
             (Z.land (active_flags sk) AF_Z =? 0)%Z; reflexivity.
  - intros axis. unfold itersolve_is_active_axis.
    destruct (_ || _); [left; reflexivity|].
    destruct (_ =? 0)%Z; [left | right]; reflexivity.
  - intros axis H. unfold itersolve_is_active_axis.
    destruct H as [H|H].
    + apply Z.ltb_lt in H. rewrite H. reflexivity.
    + apply Z.gtb_lt in H. rewrite H, orb_true_r. reflexivity.
Qed.

End Itersolve.

(** * Instances

    Concrete sinks, projections and steppers on which the statements above
    are run. *)

(** A step as the sink receives it: direction, move print time, step time. *)
Definition step_log : Type := list (Z * float * float).

(** A sink that accepts every step and records it. *)
Definition log_append (l : step_log) (d : Z) (mt st : float) : Z * step_log :=
  (0%Z, l ++ [(d, mt, st)]).

(** A sink that accepts four steps and answers 7 from the fifth on. *)
Definition fifth_fails_append (l : step_log) (d : Z) (mt st : float)
  : Z * step_log :=
  if (4 <=? length l)%nat then (7%Z, l) else (0%Z, l ++ [(d, mt, st)]).

(** A sink that answers 7 to every step; it records what it was offered. *)
Definition refuse_append (l : step_log) (d : Z) (mt st : float)
  : Z * step_log :=
  (7%Z, l ++ [(d, mt, st)]).

(** Projections: constant velocity [v]; standing at [p]; a position that
    jumps from 0 to [big] at time [t0]; one that stands at [-p] before [t0]
    and at [p] from [t0] on. *)
Definition linear_cb (v : float) (sk : stepper_kinematics step_log)
    (m : move) (t : float) : float := v * t.

Definition constant_cb (p : float) (sk : stepper_kinematics step_log)
    (m : move) (t : float) : float := p.

Definition jump_cb (t0 big : float) (sk : stepper_kinematics step_log)
    (m : move) (t : float) : float := if t <? t0 then 0 else big.

Definition flip_cb (t0 p : float) (sk : stepper_kinematics step_log)
    (m : move) (t : float) : float := if t <? t0 then - p else p.

(** Out by 0.01 mm and back within 20 ms: the position 100 t (0.02 - t). *)
Definition out_and_back_cb (sk : stepper_kinematics step_log) (m : move)
    (t : float) : float := 100 * t * (0.02 - t).

(** A post-step hook in the manner of a rotary axis: it brings
    [commanded_pos] back above -4. *)
Definition wrap_post_cb (sk : stepper_kinematics step_log)
  : stepper_kinematics step_log :=
  if commanded_pos sk <? -4 then set_commanded_pos sk (commanded_pos sk + 8)
  else sk.

(** A move along X of duration [dur] starting at [pt], a move that leaves
    every axis alone, and the two sentinels of a queue whose last move ends
    at [pt]. *)
Definition x_move (pt dur : float) : move :=
  mk_move pt dur 0 0 (mk_coord 0 0 0) (mk_coord 1 0 0).

Definition null_move (pt dur : float) : move :=
  mk_move pt dur 0 0 (mk_coord 0 0 0) (mk_coord 0 0 0).

Definition head_sentinel : move := null_move 0 0.

Definition tail_sentinel (pt : float) : move :=
  null_move pt 9999999999999999.9.

(** A stepper on X with step distance [sd] at position [cp], last direction
    [d], flushed up to [lft], with queue [q] and an empty filter. *)
Definition x_stepper (sd cp : float) (d : Z) (lft : float) (q : option trapq)
  : stepper_kinematics step_log :=
  mk_sk sd cp [] lft 0 q AF_X 0 0 0 0 d.

(** The same stepper with the step [(d, mt, st)] pending in the filter. *)
Definition x_stepper_pending (sd cp : float) (d : Z) (mt st lft : float)
    (q : option trapq) : stepper_kinematics step_log :=
  mk_sk sd cp [] lft mt q AF_X 0 0 mt st d.

(** A queue of one second without motion followed by one second along X. *)
Definition idle_then_x : trapq :=
  mk_trapq [head_sentinel; null_move 0 1; x_move 1 1; tail_sentinel 2].

(** The stepper of the linear-motion scenario: 10 mm/s, steps of 0.01 mm,
    flushed up to the start of the X move. *)
Definition linear_stepper : stepper_kinematics step_log :=
  x_stepper 0.01 0 0 1 (Some idle_then_x).

(** What the range solve of the first 10.5 ms of the X move leaves. *)
Definition linear_range_result : stepper_kinematics step_log :=
  Eval vm_compute in
    match itersolve_gen_steps_range log_append (linear_cb 10) None 100
                                    linear_stepper (x_move 1 1) 1 1.0105 with
    | Some (_, sk) => sk
    | None => linear_stepper
    end.

(** What a flush to 2.01 leaves when the sink fails on its fifth step. *)
Definition fifth_fails_result : stepper_kinematics step_log :=
  Eval vm_compute in
    match itersolve_generate_steps fifth_fails_append (fun q => q)
                                   (linear_cb 10) None 100 linear_stepper
                                   2.01 with
    | Some (_, sk) => sk
    | None => linear_stepper
    end.

(** What a flush to 1.0105 leaves with the recording sink and the wrapping
    hook. *)
Definition linear_flush_result : stepper_kinematics step_log :=
  Eval vm_compute in
    match itersolve_generate_steps log_append (fun q => q) (linear_cb 10)
                                   (Some wrap_post_cb) 100 linear_stepper
                                   1.0105 with
    | Some (_, sk) => sk
    | None => linear_stepper
    end.

(** A stepper with steps of 1 mm whose filter holds a step of the previous
    move, 0.1 ms before the end of that move, and its queue. *)
Definition held_step_queue : trapq :=
  mk_trapq [head_sentinel; null_move 0 0.5; x_move 0.5 0.5; x_move 1 1;
            tail_sentinel 2].

Definition held_step_stepper : stepper_kinematics step_log :=
  x_stepper_pending 1 0 1 0.5 0.4999 1 (Some held_step_queue).

(** * Instances of the statements *)

Lemma sds_append_rollback_witness :
  let sk := x_stepper_pending 0.01 0 1 1 0.1 1 None in
  let sk2 := snd (sds_append log_append sk 0 1 0.1003) in
  fst (sds_append log_append sk 0 1 0.1003) = 0%Z
  /\ sc sk2 = sc sk
  /\ sds_pending sk2 = false
  /\ next_step_dir sk2 = 0%Z
  /\ forall mt st, sds_flush log_append sk2 mt st = (0%Z, sk2).
Proof.
  apply (sds_append_rollback log_append
           (x_stepper_pending 0.01 0 1 1 0.1 1 None) 0 1 0.1003).
  - reflexivity.
  - discriminate.
  - reflexivity.
Defined.

(** C2, as stated, fails: of three candidate steps 0.1 ms apart with
    directions 1, 0, 1, the second cancels the first, which leaves the
    filter Empty; the third, although it follows the second within 0.75 ms
    and reverses it, is then stored as pending and a later flush forwards it
    to the sink. *)
Lemma sds_append_third_step_survives :
  let sk0 := x_stepper 0.01 0 0 0 None in
  let sk1 := snd (sds_append log_append sk0 1 1 0.1) in
  let sk2 := snd (sds_append log_append sk1 0 1 0.1001) in
  let sk3 := snd (sds_append log_append sk2 1 1 0.1002) in
  (0 <> 1)%Z
  /\ ((1 - 1) + (0.1002 - 0.1001) <? SDS_FILTER_TIME) = true
  /\ sds_pending sk3 = true
  /\ sc (snd (sds_flush log_append sk3 1 0.2)) = [(1%Z, 1, 0.1002)].
Proof. cbv zeta. repeat split. discriminate. Qed.

Lemma sds_append_zero_print_time_witness :
  let sk := x_stepper_pending 0.01 0 1 1 0.1 1 None in
  let sk' := snd (sds_append log_append sk 1 0 0.9) in
  sds_pending sk' = false
  /\ (forall mt' st', sds_flush log_append sk' mt' st' = (0%Z, sk'))
  /\ (forall d' mt' st',
        sds_append log_append sk' d' mt' st' = (0%Z, sds_store sk' d' mt' st')
        /\ sc (sds_store sk' d' mt' st') = sc sk')
  /\ (if truthy (next_move_print_time sk') then snd (sds_commit log_append sk')
      else sk') = sk'
  /\ (forall ops t0,
        sc (filter_run log_append ops (set_next_step_time sk' t0))
        = sc (filter_run log_append ops sk')).
Proof.
  apply (sds_append_zero_print_time log_append
           (x_stepper_pending 0.01 0 1 1 0.1 1 None) 1 0 0.9).
  reflexivity.
Defined.

Lemma itersolve_find_step_no_iteration_witness :
  (itersolve_find_step (linear_cb 10) 0 linear_stepper (x_move 1 1)
                       (mk_timepos 0 0) (mk_timepos 0.0001 0.005) 0.005
   = Some (mk_timepos 0.0001 0.005)
   /\ (0.005 =? 0.005) = true)
  /\ itersolve_find_step (linear_cb 10) 0 linear_stepper (x_move 1 1)
                         (mk_timepos 0.1 5.1) (mk_timepos 0.2 5.2) 1.5
     = Some (mk_timepos 0.1 1.5).
Proof.
  split.
  - apply (proj1 (itersolve_find_step_no_iteration (linear_cb 10) 0
                    linear_stepper (x_move 1 1) (mk_timepos 0 0)
                    (mk_timepos 0.0001 0.005) 0.005)).
    reflexivity.
  - apply (proj2 (itersolve_find_step_no_iteration (linear_cb 10) 0
                    linear_stepper (x_move 1 1) (mk_timepos 0.1 5.1)
                    (mk_timepos 0.2 5.2) 1.5)); reflexivity.
Defined.

Lemma itersolve_find_step_terminates_witness :
  exists (k : nat) (r : timepos),
    (Z.of_nat k <= Z.max 0 (doubles_between 0 0.001))%Z
    /\ (forall fuel : nat, (k < fuel)%nat ->
          itersolve_find_step out_and_back_cb fuel linear_stepper (x_move 1 1)
                              (mk_timepos 0 0) (mk_timepos 0.001 0.0019)
                              0.0005 = Some r)
    /\ (r = mk_timepos 0.001 0.0019
        \/ ((0 <? time r) = true /\ (time r <? 0.001) = true)).
Proof.
  apply (proj1 (proj2 (itersolve_find_step_terminates out_and_back_cb
                         linear_stepper (x_move 1 1) (mk_timepos 0 0)
                         (mk_timepos 0.001 0.0019) 0.0005
                         eq_refl ltac:(discriminate)))).
  intros k H.
  do 4 (destruct k as [|k]; [reflexivity|]).
  exfalso. specialize (H 4%nat ltac:(lia)). vm_compute in H. discriminate.
Defined.

(** Linear motion at 1 mm/s, a hundred million seconds into a move: the
    bracket from 100000000 to 100000001 around the target 100000000.2.  The
    two brackets between which the root finder ends up alternating. *)
Definition far_bracket_a : find_state :=
  Eval vm_compute in
    find_iterate (linear_cb 1) 1 linear_stepper (x_move 0 200000000)
                 100000000.2 false
                 (mk_find (mk_timepos 100000000 (100000000 - 100000000.2))
                          (mk_timepos 100000001 (100000001 - 100000000.2))
                          (mk_timepos 100000001 100000001)).

Definition far_bracket_b : find_state :=
  Eval vm_compute in
    find_next (linear_cb 1) linear_stepper (x_move 0 200000000) 100000000.2
              false far_bracket_a.

(** C4, as stated, fails, in two ways.  First, a bracketed call whose
    projection takes only the two finite values -1.5e308 and 1.5e308: the
    first guess is the quotient of two sums that overflow, a NaN; it becomes
    the time of the high endpoint, every later guess is a NaN again, and the
    exit test, a comparison with a NaN, never holds.  Second, without any
    overflow or NaN, linear motion at 1 mm/s a hundred million seconds into a
    move, where neighbouring doubles are 1.5e-8 s apart: the high endpoint
    reaches the root at 100000000.2, the next guess rounds to the double
    above it, the guess after that is 100000000.2 again, and the two guesses,
    more than 1e-9 s apart, alternate for ever.  In neither case does any
    amount of fuel give a result. *)
Lemma itersolve_find_step_diverges :
  (let low := mk_timepos 1 (-1.5e308) in
   let high := mk_timepos 2 1.5e308 in
   (position high - 0 =? 0) = false
   /\ signbit (position low - 0) <> signbit (position high - 0)
   /\ ~ exists fuel r,
          itersolve_find_step (flip_cb 1.5 1.5e308) fuel linear_stepper
                              (x_move 1 1) low high 0 = Some r)
  /\ (let low := mk_timepos 100000000 100000000 in
      let high := mk_timepos 100000001 100000001 in
      (position high - 100000000.2 =? 0) = false
      /\ signbit (position low - 100000000.2)
         <> signbit (position high - 100000000.2)
      /\ time (f_high far_bracket_a) = 100000000.2
      /\ find_guess far_bracket_a = 100000000.20000002
      /\ find_guess far_bracket_b = 100000000.2
      /\ find_inside far_bracket_a = false
      /\ ~ exists fuel r,
             itersolve_find_step (linear_cb 1) fuel linear_stepper
                                 (x_move 0 200000000) low high 100000000.2
             = Some r).
Proof.
  cbv zeta. split.
  - split; [reflexivity|]. split; [discriminate|].
    intros (fuel & r & H).
    destruct fuel as [|fuel]; [discriminate|].
    change (find_loop (flip_cb 1.5 1.5e308) fuel linear_stepper (x_move 1 1) 0
                      false
                      (mk_find (mk_timepos 1 (-1.5e308))
                               (mk_timepos nan 1.5e308)
                               (mk_timepos nan 1.5e308)) = Some r) in H.
    rewrite find_loop_fixed_point in H; [discriminate | reflexivity..].
  - split; [reflexivity|]. split; [discriminate|].
    do 4 (split; [reflexivity|]).
    intros (fuel & r & H).
    destruct fuel as [|fuel]; [discriminate|].
    change (find_loop (linear_cb 1) fuel linear_stepper (x_move 0 200000000)
                      100000000.2 false far_bracket_a = Some r) in H.
    rewrite (proj1 (find_loop_two_cycle (linear_cb 1) linear_stepper
                      (x_move 0 200000000) 100000000.2 false
                      far_bracket_a far_bracket_b
                      eq_refl eq_refl eq_refl eq_refl fuel)) in H.
    discriminate.
Qed.

Lemma itersolve_gen_steps_range_position_witness :
  (exists sk1 : stepper_kinematics step_log,
      linear_range_result = run_post_cb None sk1
      /\ commanded_pos sk1
         = fold_left (step_position (0.5 * step_dist linear_stepper))
                     (map cand_dir
                          (gen_steps_range_candidates log_append (linear_cb 10)
                             100 linear_stepper (x_move 1 1) 1 1.0105))
                     (commanded_pos linear_stepper))
  /\ ascending (1 - print_time (x_move 1 1))
               (map cand_time
                    (gen_steps_range_candidates log_append (linear_cb 10) 100
                       linear_stepper (x_move 1 1) 1 1.0105
                     ++ gen_steps_range_candidates log_append (linear_cb 10)
                          100 linear_range_result (x_move 1 1) 1.0105 1.02))
               (1.02 - print_time (x_move 1 1)) = true
  /\ ascending (1 - print_time (x_move 1 1))
               (map cand_time
                    (gen_steps_range_candidates log_append out_and_back_cb 300
                       (x_stepper 0.001 0 1 0 None) (x_move 1 1) 1 1.02))
               (1.02 - print_time (x_move 1 1)) = true
  /\ (let sk := x_stepper 1 0 1 0.4 (Some held_step_queue) in
      length (flush_solves log_append (fun q => q) (constant_cb 0.25) None
                           100 sk 1.0005) = 2%nat
      /\ solves_from (last_flush_time sk)
                     (flush_solves log_append (fun q => q) (constant_cb 0.25)
                                   None 100 sk 1.0005) = true).
Proof.
  split; [|split; [|split]].
  - apply (proj1 (proj2 (itersolve_gen_steps_range_position log_append
                           (fun q => q) (linear_cb 10) None))
             100%nat linear_stepper linear_range_result (x_move 1 1) 1 1.0105).
    vm_compute. reflexivity.
  - apply (proj1 (proj2 (proj2 (proj2
             (itersolve_gen_steps_range_position log_append (fun q => q)
                (linear_cb 10) None))))
             100%nat linear_stepper linear_range_result (x_move 1 1)
             1 1.0105 1.02);
      vm_compute; reflexivity.
  - apply (proj1 (proj2 (proj2 (itersolve_gen_steps_range_position log_append
                                  (fun q => q) out_and_back_cb None)))
             300%nat (x_stepper 0.001 0 1 0 None) (x_move 1 1) 1 1.02);
      vm_compute; reflexivity.
  - cbv zeta. split; [reflexivity|].
    apply (proj2 (proj2 (proj2 (proj2
             (itersolve_gen_steps_range_position log_append (fun q => q)
                (constant_cb 0.25) None))))
             100%nat (x_stepper 1 0 1 0.4 (Some held_step_queue)) 1.0005
             held_step_queue);
      reflexivity.
Defined.

(** C1, as stated, fails on both counts.  First, linear motion at 10 mm/s
    with steps of 0.01 mm, solved from position 0.02 over one millisecond:
    the one candidate step moves the position to 0.030000000000000002,
    which is neither 0.02 + 0.01 nor at distance 0.01 from 0.02 in double
    arithmetic.  Second, a position that jumps by 1e12 mm while the stepper
    stands at 0 with steps of 0.0025 mm: the first candidate step of the
    range solve is handed to the filter with step time 0.30000000000000004
    and the second with step time 0.3, the root finder having answered with
    a time one double below its bracket. *)
Lemma gen_steps_range_inexact_and_unordered :
  (let sk := x_stepper 0.01 0.02 1 0 None in
   exists sk',
     itersolve_gen_steps_range log_append (linear_cb 10) None 100 sk
                               (x_move 1 1) 1.002 1.003 = Some (0%Z, sk')
     /\ (0 <? step_dist sk) = true
     /\ length (gen_steps_range_candidates log_append (linear_cb 10) 100 sk
                                           (x_move 1 1) 1.002 1.003) = 1%nat
     /\ (commanded_pos sk' =? commanded_pos sk + step_dist sk) = false
     /\ (commanded_pos sk' - commanded_pos sk =? step_dist sk) = false)
  /\ (let sk := x_stepper 0.0025 0 1 0 None in
      exists c1 c2 rest,
        gen_steps_range_candidates log_append (jump_cb 0.30005 1e12) 6 sk
                                   (x_move 1 1) 1.3 2 = c1 :: c2 :: rest
        /\ (0 <? step_dist sk) = true
        /\ (cand_time c2 <? cand_time c1) = true
        /\ gen_steps_range_exact log_append (jump_cb 0.30005 1e12) 6 sk
                                 (x_move 1 1) 1.3 2 = false).
Proof.
  cbv zeta. split.
  - eexists. split; [vm_compute; reflexivity|]. vm_compute. repeat split.
  - do 3 eexists. split; [vm_compute; reflexivity|]. vm_compute.
    repeat split.
Qed.

Lemma itersolve_error_keeps_commanded_pos_witness :
  itersolve_generate_steps fifth_fails_append (fun q => q) (linear_cb 10) None
                           100 linear_stepper 2.01
  = Some (7%Z, fifth_fails_result)
  /\ commanded_pos fifth_fails_result = commanded_pos linear_stepper.
Proof.
  apply (proj1 (proj2 (proj2 (proj2 (proj2
           (itersolve_error_keeps_commanded_pos fifth_fails_append
              (fun q => q) (linear_cb 10) None)))))
           100%nat linear_stepper 2.01
           (set_tq (set_last_flush_time linear_stepper 2.01)
                   (Some idle_then_x))
           (x_move 1 1) 1 2 7%Z fifth_fails_result).
  - vm_compute. left. reflexivity.
  - vm_compute. reflexivity.
  - discriminate.
Defined.

(** C6, at the failing input: a range solve of 0.5 ms during which the
    stepper has covered a quarter of a step.  The partial-progress branch
    commits the step held by the filter; the sink answers 7 to it (here to
    every step), yet the flush returns 0, and the filter is left Empty: the
    step is lost and the failure unreported. *)
Lemma itersolve_generate_steps_drops_commit_status :
  let sk := held_step_stepper in
  sds_pending sk = true
  /\ fst (refuse_append (sc sk) (next_step_dir sk) (next_move_print_time sk)
                        (next_step_time sk)) = 7%Z
  /\ exists sk',
       itersolve_generate_steps refuse_append (fun q => q) (constant_cb 0.25)
                                None 100 sk 1.0005 = Some (0%Z, sk')
       /\ sc sk' = [(next_step_dir sk, next_move_print_time sk,
                     next_step_time sk)]
       /\ sds_pending sk' = false.
Proof.
  cbv zeta. split; [reflexivity|]. split; [reflexivity|].
  eexists. split; [vm_compute; reflexivity|]. split; reflexivity.
Qed.

Lemma itersolve_check_active_first_active_witness :
  let sk := x_stepper 0.01 0 0 0.5 (Some idle_then_x) in
  itersolve_check_active (fun q => q) sk 1.5 = Some (1, sk)
  /\ itersolve_check_active (fun q => q) sk 0.75 = Some (0, sk).
Proof.
  cbv zeta. split.
  - apply (proj2 (proj2 (itersolve_check_active_first_active (fun q => q)
                           (x_stepper 0.01 0 0 0.5 (Some idle_then_x)) 1.5))
             idle_then_x
             [head_sentinel; null_move 0 1; x_move 1 1] (tail_sentinel 2));
      try reflexivity.
    intros m0 [= <-]. reflexivity.
  - apply (proj2 (proj2 (itersolve_check_active_first_active (fun q => q)
                           (x_stepper 0.01 0 0 0.5 (Some idle_then_x)) 0.75))
             idle_then_x
             [head_sentinel; null_move 0 1; x_move 1 1] (tail_sentinel 2));
      try reflexivity.
    intros m0 [= <-]. reflexivity.
Defined.

(** C7, as stated, fails at both ends of the window.  With [flush_time]
    before [last_flush_time] the window is empty, yet the query answers with
    the print time of the X move, the first move not yet flushed, which it
    never compares with [flush_time]; and with [flush_time] at the very start
    of the X move, which therefore lies within the window, the query answers
    0, because the move before it already ends at [flush_time]. *)
Lemma itersolve_check_active_outside_window :
  (let sk := x_stepper 0.01 0 0 1.5 (Some idle_then_x) in
   itersolve_check_active (fun q => q) sk 0.25 = Some (1, sk)
   /\ first_active_in_window sk 0.25 (moves idle_then_x) = 0)
  /\ (let sk := x_stepper 0.01 0 0 0.5 (Some idle_then_x) in
      itersolve_check_active (fun q => q) sk 1 = Some (0, sk)
      /\ first_active_in_window sk 1 (moves idle_then_x) = 1).
Proof. cbv zeta. repeat split. Qed.

Lemma wrap_post_cb_last_flush_time :
  forall cb, Some wrap_post_cb = Some cb ->
  forall s, last_flush_time (cb s) = last_flush_time s.
Proof.
  intros cb [= <-] s. unfold wrap_post_cb.
  destruct (commanded_pos s <? -4); reflexivity.
Defined.

Lemma itersolve_generate_steps_last_flush_time_witness :
  last_flush_time linear_flush_result = 1.0105
  /\ last_flush_time fifth_fails_result = 2.01.
Proof.
  split.
  - apply (proj1 (itersolve_generate_steps_last_flush_time log_append
                    (fun q => q) (linear_cb 10) (Some wrap_post_cb) 100
                    linear_stepper linear_flush_result 1.0105 0
                    wrap_post_cb_last_flush_time)).
    vm_compute. reflexivity.
  - apply (proj1 (itersolve_generate_steps_last_flush_time fifth_fails_append
                    (fun q => q) (linear_cb 10) None 100
                    linear_stepper fifth_fails_result 2.01 7
                    ltac:(discriminate))).
    vm_compute. reflexivity.
Defined.

(** * The steps that reach the sink

    To speak of the steps that the filter forwards, the sink is wrapped in
    one that records every step it is offered before passing it on. *)

Create HintDb steps.

(** [l] is [l'] with some elements left out. *)
Inductive subseq {A : Type} : list A -> list A -> Prop :=
| subseq_nil : subseq [] []
| subseq_skip (a : A) (l l' : list A) : subseq l l' -> subseq l (a :: l')
| subseq_take (a : A) (l l' : list A) : subseq l l' -> subseq (a :: l) (a :: l').

Lemma subseq_refl {A : Type} (l : list A) : subseq l l.
Proof. induction l; constructor; assumption. Qed.

Lemma subseq_app {A : Type} (a b c d : list A) :
  subseq a b -> subseq c d -> subseq (a ++ c) (b ++ d).
Proof.
  intros H. induction H; intros Hc; cbn [app];
    [exact Hc | apply subseq_skip; auto | apply subseq_take; auto].
Qed.

Lemma subseq_trans {A : Type} (a b c : list A) :
  subseq a b -> subseq b c -> subseq a c.
Proof.
  intros Hab Hbc. revert a Hab.
  induction Hbc as [|x l l' Hbc IH|x l l' Hbc IH]; intros a Hab.
  - exact Hab.
  - apply subseq_skip, IH, Hab.
  - inversion Hab; subst.
    + apply subseq_skip, IH. assumption.
    + apply subseq_take, IH. assumption.
Qed.

(** The step that the filter holds, if it holds one. *)
Definition held_step {SC : Type} (sk : stepper_kinematics SC)
  : list (Z * float * float) :=
  if sds_pending sk
  then [(next_step_dir sk, next_move_print_time sk, next_step_time sk)]
  else [].

(** The step that a filter call appends, if it is an append. *)
Definition op_step (op : filter_op) : list (Z * float * float) :=
  match op with
  | FAppend d mt st => [(d, mt, st)]
  | _ => []
  end.

Section Recording.

Context {SC : Type}.

(** Any sink. *)
Variable inner_append : SC -> Z -> float -> float -> Z * SC.

(** The same sink, keeping a record of the steps it is offered. *)
Definition rec_append (s : step_log * SC) (d : Z) (mt st : float)
  : Z * (step_log * SC) :=
  let (ret, s') := inner_append (snd s) d mt st in
  (ret, (fst s ++ [(d, mt, st)], s')).

Definition sink_log (sk : stepper_kinematics (step_log * SC)) : step_log :=
  fst (sc sk).

Lemma rec_commit (sk : stepper_kinematics (step_log * SC)) :
  sink_log (snd (sds_commit rec_append sk))
  = sink_log sk
    ++ [(next_step_dir sk, next_move_print_time sk, next_step_time sk)]
  /\ held_step (snd (sds_commit rec_append sk)) = [].
Proof.
  rewrite sds_commit_sink. unfold sink_log, rec_append. cbn [snd sc set_sc].
  destruct (inner_append _ _ _ _). split; reflexivity.
Qed.

#[local] Hint Constructors subseq : steps.

(** One filter call: what it adds to the record, followed by what it leaves
    in the filter, is taken from what the filter held followed by the step
    appended. *)
Lemma filter_step_steps (sk : stepper_kinematics (step_log * SC))
    (op : filter_op) :
  exists e,
    sink_log (filter_step rec_append sk op) = sink_log sk ++ e
    /\ subseq (e ++ held_step (filter_step rec_append sk op))
              (held_step sk ++ op_step op).
Proof.
  pose proof (rec_commit sk) as [Hc Hh].
  assert (K : forall s : stepper_kinematics (step_log * SC),
             sink_log s = sink_log sk -> held_step s = held_step sk ->
             exists e, sink_log s = sink_log sk ++ e
                       /\ subseq (e ++ held_step s) (held_step sk ++ [])).
  { intros s E1 E2. exists []. rewrite E1, E2, !app_nil_r.
    split; [reflexivity | apply subseq_refl]. }
  destruct op as [d mt st|mt st|]; cbn [filter_step op_step].
  - unfold sds_append. cbv zeta.
    unfold held_step at 2. unfold sds_pending.
    destruct (truthy (next_move_print_time sk)) eqn:Hp.
    + assert (Hcommit :
          exists e,
            sink_log
              (snd (let (ret, sk0) := sds_commit rec_append sk in
                    if negb (ret =? 0)%Z then (ret, sk0)
                    else (0%Z, sds_store sk0 d mt st))) = sink_log sk ++ e
            /\ subseq
                 (e ++ held_step
                         (snd (let (ret, sk0) := sds_commit rec_append sk in
                               if negb (ret =? 0)%Z then (ret, sk0)
                               else (0%Z, sds_store sk0 d mt st))))
                 ([(next_step_dir sk, next_move_print_time sk,
                    next_step_time sk)] ++ [(d, mt, st)])).
      { destruct (sds_commit rec_append sk) as [ret sk0]. cbn [snd] in Hc, Hh.
        exists [(next_step_dir sk, next_move_print_time sk, next_step_time sk)].
        destruct (negb (ret =? 0)%Z); cbn [snd].
        - rewrite Hh. split; [exact Hc|]. cbn [app]. auto with steps.
        - split; [exact Hc|].
          unfold held_step, sds_pending.
          cbn [sds_store set_next_step_dir set_next_step_time
               set_next_move_print_time next_move_print_time next_step_dir
               next_step_time].
          destruct (truthy mt); cbn [app]; auto with steps. }
      destruct (negb (d =? next_step_dir sk)%Z); [|exact Hcommit].
      destruct (_ <? SDS_FILTER_TIME); [|exact Hcommit].
      exists []. cbn [snd]. split; [symmetry; apply app_nil_r|].
      cbn [app]. auto with steps.
    + exists []. cbn [snd]. split; [symmetry; apply app_nil_r|].
      unfold held_step, sds_pending.
      cbn [sds_store set_next_step_dir set_next_step_time
           set_next_move_print_time next_move_print_time next_step_dir
           next_step_time].
      destruct (truthy mt); cbn [app]; auto with steps.
  - unfold sds_flush.
    destruct (truthy (next_move_print_time sk)) eqn:Hp; [|apply K; reflexivity].
    destruct (geb _ _); [|apply K; reflexivity].
    exists [(next_step_dir sk, next_move_print_time sk, next_step_time sk)].
    rewrite Hh. split; [exact Hc|].
    unfold held_step, sds_pending. rewrite Hp. apply subseq_refl.
  - destruct (truthy (next_move_print_time sk)) eqn:Hp; [|apply K; reflexivity].
    exists [(next_step_dir sk, next_move_print_time sk, next_step_time sk)].
    rewrite Hh. split; [exact Hc|].
    unfold held_step, sds_pending. rewrite Hp. apply subseq_refl.
Qed.

Lemma appended_steps_cons (op : filter_op) (ops : list filter_op) :
  appended_steps (op :: ops) = op_step op ++ appended_steps ops.
Proof. destruct op; reflexivity. Qed.

(** X9: the filter neither invents nor repeats nor reorders steps.  After
    any sequence of calls (appends, flushes, commits of the pending step),
    the steps offered to the sink since the start, followed by the step
    still held, form a subsequence of the step held at the start followed by
    the steps appended, whatever the sink answers. *)
Theorem filter_run_conserves_steps (ops : list filter_op)
    (sk : stepper_kinematics (step_log * SC)) :
  exists e,
    sink_log (filter_run rec_append ops sk) = sink_log sk ++ e
    /\ subseq (e ++ held_step (filter_run rec_append ops sk))
              (held_step sk ++ appended_steps ops).
Proof.
  revert sk. induction ops as [|op ops IH]; intros sk.
  - exists []. cbn [filter_run fold_left appended_steps flat_map].
    rewrite !app_nil_r. split; [reflexivity | apply subseq_refl].
  - change (filter_run rec_append (op :: ops) sk)
      with (filter_run rec_append ops (filter_step rec_append sk op)).
    destruct (filter_step_steps sk op) as (e1 & L1 & S1).
    destruct (IH (filter_step rec_append sk op)) as (e2 & L2 & S2).
    exists (e1 ++ e2). rewrite L2, L1, app_assoc. split; [reflexivity|].
    rewrite appended_steps_cons, <- app_assoc.
    eapply subseq_trans.
    + apply subseq_app; [apply subseq_refl | exact S2].
    + rewrite !app_assoc. apply subseq_app; [exact S1 | apply subseq_refl].
Qed.

(** X10: the same for a range solve.  The steps that one call of
    [itersolve_gen_steps_range] offers to the sink, followed by the step it
    leaves in the filter, form a subsequence of the step held at entry
    followed by the candidate steps of the solve, whether the call completes
    (the stepper then passes through the post-step hook) or returns a sink
    error. *)
Theorem itersolve_gen_steps_range_emits
    (cb : stepper_kinematics (step_log * SC) -> move -> float -> float)
    (post : option (stepper_kinematics (step_log * SC)
                    -> stepper_kinematics (step_log * SC)))
    (fuel : nat) (sk sk' : stepper_kinematics (step_log * SC)) (m : move)
    (move_start move_end : float) (ret : Z) :
  itersolve_gen_steps_range rec_append cb post fuel sk m move_start move_end
  = Some (ret, sk') ->
  exists sk1 e,
    ((ret <> 0%Z /\ sk' = sk1) \/ (ret = 0%Z /\ sk' = run_post_cb post sk1))
    /\ sink_log sk1 = sink_log sk ++ e
    /\ subseq (e ++ held_step sk1)
              (held_step sk
               ++ gen_steps_range_candidates rec_append cb fuel sk m
                                             move_start move_end).
Proof.
  intros H.
  destruct (itersolve_gen_steps_range_filter _ _ _ _ _ _ _ _ _ _ H)
    as (ops & Hc & Hs).
  assert (R : forall ops0 (sk0 : stepper_kinematics (step_log * SC)),
             exists e,
               sink_log (filter_run rec_append ops0 sk0) = sink_log sk0 ++ e
               /\ subseq (e ++ held_step (filter_run rec_append ops0 sk0))
                         (held_step sk0 ++ appended_steps ops0)).
  { induction ops0 as [|op ops0 IH]; intros sk0.
    - exists []. cbn [filter_run fold_left appended_steps flat_map].
      rewrite !app_nil_r. split; [reflexivity | apply subseq_refl].
    - change (filter_run rec_append (op :: ops0) sk0)
        with (filter_run rec_append ops0 (filter_step rec_append sk0 op)).
      destruct (filter_step_steps sk0 op) as (e1 & L1 & S1).
      destruct (IH (filter_step rec_append sk0 op)) as (e2 & L2 & S2).
      exists (e1 ++ e2). rewrite L2, L1, app_assoc. split; [reflexivity|].
      rewrite appended_steps_cons, <- app_assoc.
      eapply subseq_trans.
      + apply subseq_app; [apply subseq_refl | exact S2].
      + rewrite !app_assoc. apply subseq_app; [exact S1 | apply subseq_refl]. }
  destruct (R ops sk) as (e & L & S).
  rewrite Hc in S.
  destruct Hs as [[Hr ->]|[-> [p ->]]].
  - exists (filter_run rec_append ops sk), e. auto.
  - exists (set_commanded_pos (filter_run rec_append ops sk) p), e.
    split; [right; split; reflexivity|]. split; [exact L | exact S].
Qed.

End Recording.

(** * Instances of the further properties *)

(** The first widening of the search range in the linear-motion scenario,
    over the first 10.5 ms of the X move. *)
Definition linear_first_widen : range_state :=
  Eval vm_compute in
    match range_widen (linear_cb 10) 100 (x_move 1 1) 0.0105
                      (range_init linear_stepper 0) with
    | RContinue st => st
    | _ => range_init linear_stepper 0
    end.

(** A stepper on X whose sink records what it is offered and accepts four
    steps, and the linear projection for it. *)
Definition recording_stepper : stepper_kinematics (step_log * step_log) :=
  mk_sk 0.01 0 ([], []) 1 0 (Some idle_then_x) AF_X 0 0 0 0 0%Z.

Definition recording_linear_cb (sk : stepper_kinematics (step_log * step_log))
    (m : move) (t : float) : float := 10 * t.

Definition recording_result : stepper_kinematics (step_log * step_log) :=
  Eval vm_compute in
    match itersolve_gen_steps_range (rec_append fifth_fails_append)
                                    recording_linear_cb None 100
                                    recording_stepper (x_move 1 1) 1 1.0105 with
    | Some (_, sk) => sk
    | None => recording_stepper
    end.

(** What the range solve of the first 0.8 ms of the X move leaves: the step
    found at 0.5 ms is still held by the filter. *)
Definition held_range_result : stepper_kinematics step_log :=
  Eval vm_compute in
    match itersolve_gen_steps_range log_append (linear_cb 10) None 100
                                    linear_stepper (x_move 1 1) 1 1.0008 with
    | Some (_, sk) => sk
    | None => linear_stepper
    end.

Lemma itersolve_find_step_result_witness :
  mk_timepos 5.0000000000000002e-05 0.00050000000000000001
  = mk_timepos 0.0001 0.001
  \/ mk_timepos 5.0000000000000002e-05 0.00050000000000000001
     = mk_timepos 0 0.0005
  \/ 0.00050000000000000001
     = linear_cb 10 linear_stepper (x_move 1 1) 5.0000000000000002e-05.
Proof.
  apply (itersolve_find_step_result (linear_cb 10) 10 linear_stepper
           (x_move 1 1) (mk_timepos 0 0) (mk_timepos 0.0001 0.001) 0.0005
           (mk_timepos 5.0000000000000002e-05 0.00050000000000000001)).
  reflexivity.
Defined.

Lemma find_iterate_signs_witness :
  let st := mk_find (mk_timepos 0 (0 - 0.0005))
                    (mk_timepos 0.0001 (0.001 - 0.0005))
                    (mk_timepos 0.0001 0.001) in
  let st' := find_iterate (linear_cb 10) 1 linear_stepper (x_move 1 1) 0.0005
                          false st in
  signbit (position (f_high st')) = false
  /\ signbit (position (f_low st')) = negb false
  /\ (f_high st' = f_high st
      \/ position (f_high st')
         = linear_cb 10 linear_stepper (x_move 1 1) (time (f_high st')) - 0.0005)
  /\ (f_low st' = f_low st
      \/ position (f_low st')
         = linear_cb 10 linear_stepper (x_move 1 1) (time (f_low st')) - 0.0005).
Proof.
  apply (find_iterate_signs (linear_cb 10) 1 linear_stepper (x_move 1 1) 0.0005
           false
           (mk_find (mk_timepos 0 (0 - 0.0005))
                    (mk_timepos 0.0001 (0.001 - 0.0005))
                    (mk_timepos 0.0001 0.001)));
    reflexivity.
Defined.

Lemma range_widen_bracket_witness :
  range_widen (linear_cb 10) 100 (x_move 1 1) 0.0105
              (range_init linear_stepper 0.0105)
  = RBreak (range_init linear_stepper 0.0105)
  /\ geb (time (r_high (range_init linear_stepper 0))) 0.0105 = false
  /\ r_low linear_first_widen = r_high (range_init linear_stepper 0)
  /\ gtb (time (r_high linear_first_widen)) 0.0105 = false
  /\ (time (r_high linear_first_widen) = 0.0105
      \/ (time (r_high linear_first_widen) <=? time (r_low linear_first_widen))
         = false)
  /\ position (r_high linear_first_widen)
     = linear_cb 10 linear_stepper (x_move 1 1)
                 (time (r_high linear_first_widen)).
Proof.
  split.
  - apply (proj1 (range_widen_bracket (linear_cb 10) 100 (x_move 1 1) 0.0105
                    (range_init linear_stepper 0.0105))).
    reflexivity.
  - apply (proj1 (proj2 (proj2
             (range_widen_bracket (linear_cb 10) 100 (x_move 1 1) 0.0105
                (range_init linear_stepper 0))))
             linear_first_widen).
    reflexivity.
Defined.

Lemma itersolve_gen_steps_range_dir_witness :
  exists sk1 : stepper_kinematics step_log,
    linear_range_result = run_post_cb None sk1
    /\ next_step_dir sk1
       = last (map cand_dir
                   (gen_steps_range_candidates log_append (linear_cb 10) 100
                      linear_stepper (x_move 1 1) 1 1.0105))
              (next_step_dir linear_stepper).
Proof.
  apply (itersolve_gen_steps_range_dir log_append (linear_cb 10) None 100
           linear_stepper linear_range_result (x_move 1 1) 1 1.0105).
  vm_compute. reflexivity.
Defined.

Lemma itersolve_gen_steps_range_pending_witness :
  sds_pending held_range_result = true
  /\ geb ((print_time (x_move 1 1) - next_move_print_time held_range_result)
          + ((1.0008 - print_time (x_move 1 1))
             - next_step_time held_range_result))
         SDS_FILTER_TIME = false.
Proof.
  split; [reflexivity|].
  destruct (itersolve_gen_steps_range_pending log_append (linear_cb 10) None
              100 linear_stepper held_range_result (x_move 1 1) 1 1.0008
              ltac:(vm_compute; reflexivity))
    as (sk1 & E & H).
  cbn [run_post_cb] in E. rewrite E. apply H. rewrite <- E. reflexivity.
Defined.

Lemma itersolve_generate_steps_failure_witness :
  exists sk0 m move_start move_end ops rest,
    In (sk0, m, move_start, move_end)
       (flush_solves fifth_fails_append (fun q => q) (linear_cb 10) None 100
                     linear_stepper 2.01)
    /\ itersolve_gen_steps_range fifth_fails_append (linear_cb 10) None 100
                                 sk0 m move_start move_end
       = Some (7%Z, fifth_fails_result)
    /\ gen_steps_range_candidates fifth_fails_append (linear_cb 10) 100 sk0 m
                                  move_start move_end
       = appended_steps ops ++ rest
    /\ let skp := filter_run fifth_fails_append ops sk0 in
       sds_pending skp = true
       /\ fifth_fails_append (sc skp) (next_step_dir skp)
                             (next_move_print_time skp) (next_step_time skp)
          = (7%Z, sc fifth_fails_result)
       /\ fifth_fails_result
          = set_sc (set_next_move_print_time skp 0) (sc fifth_fails_result)
       /\ sds_pending fifth_fails_result = false.
Proof.
  apply (itersolve_generate_steps_failure fifth_fails_append (fun q => q)
           (linear_cb 10) None 100 linear_stepper fifth_fails_result 2.01 7).
  - vm_compute. reflexivity.
  - discriminate.
Defined.

Lemma itersolve_generate_steps_not_after_witness :
  itersolve_generate_steps log_append (fun q => q) (linear_cb 10) None 1
                           linear_stepper 0.5
  = Some (0%Z, set_tq (set_last_flush_time linear_stepper 0.5)
                      (Some idle_then_x)).
Proof.
  apply (proj2 (itersolve_generate_steps_not_after log_append (fun q => q)
                  (linear_cb 10) None 0 linear_stepper 0.5 eq_refl)
           idle_then_x [head_sentinel; null_move 0 1; x_move 1 1]
           (tail_sentinel 2));
    reflexivity.
Defined.

Lemma itersolve_gen_steps_range_emits_witness :
  exists sk1 e,
    ((7%Z <> 0%Z /\ recording_result = sk1)
     \/ (7%Z = 0%Z /\ recording_result = run_post_cb None sk1))
    /\ sink_log sk1 = sink_log recording_stepper ++ e
    /\ subseq (e ++ held_step sk1)
              (held_step recording_stepper
               ++ gen_steps_range_candidates (rec_append fifth_fails_append)
                    recording_linear_cb 100 recording_stepper (x_move 1 1)
                    1 1.0105).
Proof.
  apply (itersolve_gen_steps_range_emits fifth_fails_append
           recording_linear_cb None 100 recording_stepper recording_result
           (x_move 1 1) 1 1.0105 7).
  vm_compute. reflexivity.
Defined.
